(** * MIDI track engine: event timeline, track selection, channel
      standardisation, bass relocation and drum merging

    A shallow embedding of the algorithmic core of
    [MidiFile_combiner_6to5.py], [MidiFile_Filter.py] and
    [MidiFile_Quantizer.py], and the properties their specification
    states about it.

    Messages are mido messages.  Python integers are [Z]; Python lists
    are lists; a track-info dictionary is a record whose optional keys
    are [option] fields.  The functions of the source mutate message
    and dictionary objects in place; every such object is reachable
    from exactly one place (mido builds a fresh object per message,
    [msg.copy] builds a fresh one, a track-info dictionary wraps one
    track), so in-place update is modelled by a functional update of
    the owning list. *)

From stdpp Require Import base numbers list sorting strings gmap.
From Stdlib Require Import ZArith Lia.

Local Open Scope Z_scope.

(** ** Messages *)

(** What a mido message carries besides its delta time.  The four
    kinds the engine reads have their own constructor; [ChannelVoice]
    stands for the remaining channel messages (pitchwheel, aftertouch,
    polytouch), [System] for the channel-less non-meta messages (sysex
    and system common / real-time), and [Meta] for meta messages, of
    which [channel_prefix] alone has a [channel] attribute. *)
Inductive Body : Type :=
| NoteOn (channel note velocity : Z)
| NoteOff (channel note velocity : Z)
| ControlChange (channel control value : Z)
| ProgramChange (channel program : Z)
| ChannelVoice (kind : string) (channel : Z) (data : list Z)
| System (kind : string) (data : list Z)
| Meta (kind : string) (channel : option Z) (data : list Z).

Record Msg : Type := mkMsg { time : Z; body : Body }.

Definition Track : Type := list Msg.

(** [msg.is_meta] *)
Definition is_meta (msg : Msg) : bool :=
  match body msg with Meta _ _ _ => true | _ => false end.

(** [msg.channel] where [hasattr(msg, 'channel')], [None] otherwise. *)
Definition msg_channel (msg : Msg) : option Z :=
  match body msg with
  | NoteOn c _ _ | NoteOff c _ _ | ControlChange c _ _
  | ProgramChange c _ | ChannelVoice _ c _ => Some c
  | System _ _ => None
  | Meta _ c _ => c
  end.

(** [msg.type == 'note_on'] (a note_on always has a [note]). *)
Definition is_note_on (msg : Msg) : bool :=
  match body msg with NoteOn _ _ _ => true | _ => false end.

(** [msg.type == 'note_on' and msg.velocity > 0] *)
Definition is_onset (msg : Msg) : bool :=
  match body msg with NoteOn _ _ v => 0 <? v | _ => false end.

(** [msg.note] of a note message; only read behind [is_note_on]. *)
Definition msg_note (msg : Msg) : Z :=
  match body msg with
  | NoteOn _ n _ | NoteOff _ n _ => n
  | _ => 0
  end.

(** [msg.copy(time=t)], and equally the assignment [msg.time = t] on a
    message nobody else holds. *)
Definition set_time (t : Z) (msg : Msg) : Msg :=
  {| time := t; body := body msg |}.

(** [if hasattr(msg, 'channel'): msg.channel = c] *)
Definition set_channel (c : Z) (msg : Msg) : Msg :=
  {| time := time msg;
     body := match body msg with
             | NoteOn _ n v => NoteOn c n v
             | NoteOff _ n v => NoteOff c n v
             | ControlChange _ k v => ControlChange c k v
             | ProgramChange _ p => ProgramChange c p
             | ChannelVoice k _ d => ChannelVoice k c d
             | System k d => System k d
             | Meta k (Some _) d => Meta k (Some c) d
             | Meta k None d => Meta k None d
             end |}.

(** [mido.MetaMessage('end_of_track', time=0)] *)
Definition end_of_track : Msg :=
  {| time := 0; body := Meta "end_of_track" None [] |}.

(** ** Event timeline *)

(** The loop of [get_abs_times], entered with the running [abs_time]. *)
Fixpoint get_abs_times_from (abs_time : Z) (messages : list Msg)
  : list (Z * Msg) :=
  match messages with
  | [] => []
  | msg :: rest =>
      let abs_time := abs_time + time msg in
      (abs_time, set_time 0 msg) :: get_abs_times_from abs_time rest
  end.

(** [get_abs_times(messages)], the specification's [to_absolute]. *)
Definition get_abs_times (messages : list Msg) : list (Z * Msg) :=
  get_abs_times_from 0 messages.

(** The "convert back to delta times" loop, entered with [last_time]. *)
Fixpoint to_relative_from (last_time : Z) (combined : list (Z * Msg))
  : list Msg :=
  match combined with
  | [] => []
  | (abs_time, msg) :: rest =>
      set_time (abs_time - last_time) msg :: to_relative_from abs_time rest
  end.

(** The specification's [to_relative]: the loop that closes
    [merge_drum_tracks] and builds each track of
    [convert_type0_to_type1], with [last_time = 0] on entry. *)
Definition to_relative (combined : list (Z * Msg)) : list Msg :=
  to_relative_from 0 combined.

(** How a call ends: with a value, or with a raised exception. *)
Inductive PyError : Type := OrderingError | IndexError.

Inductive outcome (A : Type) : Type :=
| Returned (a : A)
| Raised (e : PyError).
Arguments Returned {A} a.
Arguments Raised {A} e.

(** [to_relative] as a call: the loop has no [raise] and performs no
    operation that can fail on integers, so it always returns. *)
Definition to_relative_call (combined : list (Z * Msg)) : outcome Track :=
  Returned (to_relative combined).

(** ** [list.sort(key=..., reverse=...)]

    Python's sort is stable, also with [reverse=True]: elements with
    equal keys keep their input order.  A stable sort is determined by
    its input, so insertion from the right computes the same list. *)
Section py_sort.
Context {A : Type} (key : A → Z) (reverse : bool).

Definition key_le (x y : A) : bool :=
  if reverse then key y <=? key x else key x <=? key y.

Fixpoint sort_insert (x : A) (l : list A) : list A :=
  match l with
  | [] => [x]
  | y :: l' => if key_le x y then x :: l else y :: sort_insert x l'
  end.

Definition py_sort (l : list A) : list A := foldr sort_insert [] l.
End py_sort.

(** ** Drum merger ([merge_drum_tracks]) *)

(** The dictionary key [(abs_time, msg.note)] of a timed message. *)
Definition note_key (e : Z * Msg) : Z * Z := (e.1, msg_note e.2).

(** The loop that fills [track6_note_times]; the dictionary only ever
    maps a key to [True], so it is the set of its keys. *)
Fixpoint track6_note_times_from (seen : gset (Z * Z))
  (track6_abs : list (Z * Msg)) : gset (Z * Z) :=
  match track6_abs with
  | [] => seen
  | e :: rest =>
      track6_note_times_from
        (if is_onset e.2 then {[ note_key e ]} ∪ seen else seen) rest
  end.

Definition track6_note_times (track6_abs : list (Z * Msg)) : gset (Z * Z) :=
  track6_note_times_from ∅ track6_abs.

(** The test that lets an entry of [track5_abs] into [filtered_track5]. *)
Definition survives (note_times : gset (Z * Z)) (e : Z * Msg) : bool :=
  if is_onset e.2 then negb (bool_decide (note_key e ∈ note_times))
  else true.

Definition filtered_track5 (track5_abs track6_abs : list (Z * Msg))
  : list (Z * Msg) :=
  List.filter (survives (track6_note_times track6_abs)) track5_abs.

(** [combined] after [combined.sort(key=lambda x: x[0])]. *)
Definition combined (track5_msgs track6_msgs : list Msg) : list (Z * Msg) :=
  let track5_abs := get_abs_times track5_msgs in
  let track6_abs := get_abs_times track6_msgs in
  py_sort fst false (filtered_track5 track5_abs track6_abs ++ track6_abs).

Definition merge_drum_tracks (track5_msgs track6_msgs : list Msg)
  : list Msg :=
  to_relative (combined track5_msgs track6_msgs).

(** ** Track classifier *)

(** Number of elements of a list that pass a test, as a Python int. *)
Fixpoint count_if {A : Type} (p : A → bool) (l : list A) : Z :=
  match l with
  | [] => 0
  | x :: rest => (if p x then 1 else 0) + count_if p rest
  end.

Definition count_track_events (track : Track) : Z :=
  count_if (λ msg, negb (is_meta msg)) track.

Fixpoint get_track_channel (track : Track) : Z :=
  match track with
  | [] => 999
  | msg :: rest =>
      match msg_channel msg with
      | Some c => c
      | None => get_track_channel rest
      end
  end.

(** ** Track information

    The dictionaries of [process_files].  [old_channel], [moved_from],
    [swapped_from] and [is_bass] are keys that may be absent
    ([is_bass] is only ever set to [True]).  The key [channel] is
    added to the selected tracks before anything reads it and is a
    function of the track alone, so it is filled in from the start. *)
Record TrackInfo : Type := mkTrackInfo {
  index : nat;
  track : Track;
  events : Z;
  channel : Z;
  old_channel : option Z;
  moved_from : option Z;
  swapped_from : option Z;
  is_bass : bool
}.

Definition track_info (tracks : list Track) : list TrackInfo :=
  imap (λ i track,
          {| index := i; track := track;
             events := count_track_events track;
             channel := get_track_channel track;
             old_channel := None; moved_from := None;
             swapped_from := None; is_bass := false |}) tracks.

(** ** Track selector (the filter / sort / slice of [process_files]) *)

Definition substantial_tracks (min_events : Z) (track_info : list TrackInfo)
  : list TrackInfo :=
  List.filter (λ t, min_events <=? events t) track_info.

(** [top_tracks] and [removed_empty]; [self.max_tracks] is the constant
    5 in the source, any slice length of that kind here. *)
Definition select_top_tracks (min_events : Z) (max_tracks : nat)
  (track_info : list TrackInfo) : list TrackInfo * Z :=
  let substantial := substantial_tracks min_events track_info in
  (take max_tracks (py_sort events true substantial),
   Z.of_nat (length track_info) - Z.of_nat (length substantial)).

(** ** Channel standardizer ([standardize_channels]) *)

Definition melodic_channels : list Z := [0; 1; 2; 3].
Definition drum_channel : Z := 9.

(** [x in l] on a list of integers. *)
Definition py_in (x : Z) (l : list Z) : bool := existsb (Z.eqb x) l.

(** The body of a remap: every message that has a channel is set to
    [new_ch], and the dictionary records the old and the new channel. *)
Definition remap (new_ch : Z) (t : TrackInfo) : TrackInfo :=
  {| index := index t; track := map (set_channel new_ch) (track t);
     events := events t; channel := new_ch;
     old_channel := Some (channel t); moved_from := moved_from t;
     swapped_from := swapped_from t; is_bass := is_bass t |}.

(** The loop over [drum_tracks]. *)
Definition standardize_drums (drum_tracks : list TrackInfo)
  : list TrackInfo :=
  map (λ t, if negb (channel t =? 9) then remap 9 t else t) drum_tracks.

(** The loop over [melodic_tracks], entered with [next_melodic_idx]. *)
Fixpoint standardize_melodic (next_melodic_idx : Z)
  (melodic_tracks : list TrackInfo) : list TrackInfo :=
  match melodic_tracks with
  | [] => []
  | t :: rest =>
      let old_ch := channel t in
      let t' :=
        if negb (py_in old_ch melodic_channels) || (old_ch =? 999) then
          let new_ch :=
            nth (Z.to_nat (next_melodic_idx
                           mod Z.of_nat (length melodic_channels)))
                melodic_channels 0 in
          remap new_ch t
        else t in
      t' :: standardize_melodic (next_melodic_idx + 1) rest
  end.

Definition standardize_channels (tracks : list TrackInfo)
  : list TrackInfo :=
  let drum_tracks := List.filter (λ t, channel t =? 9) tracks in
  let melodic_tracks := List.filter (λ t, negb (channel t =? 9)) tracks in
  standardize_drums drum_tracks ++ standardize_melodic 0 melodic_tracks.

(** ** Bass relocator ([detect_bass_track]) *)

Definition total_notes (track : Track) : Z := count_if is_note_on track.

Definition bass_count (track : Track) : Z :=
  count_if (λ msg, is_note_on msg && (msg_note msg <? 48)) track.

(** [t['channel'] == 9 or t['channel'] == 999] *)
Definition skipped (t : TrackInfo) : bool :=
  (channel t =? 9) || (channel t =? 999).

(** [bass_count / total_notes > 0.5].  The quotient is a correctly
    rounded double; with fewer than [2^52] notes it exceeds one half
    exactly when the rational does. *)
Definition mostly_bass (bass_count total_notes : Z) : bool :=
  total_notes <? 2 * bass_count.

(** The analysis loop.  Its state is [(bass_track_idx, bass_track)]
    (both [None] together) and [max_bass_notes]. *)
Fixpoint scan_bass (idx : nat) (tracks : list TrackInfo)
  (st : option (nat * TrackInfo) * Z) : option (nat * TrackInfo) * Z :=
  match tracks with
  | [] => st
  | t :: rest =>
      let st' :=
        if skipped t then st
        else
          let bc := bass_count (track t) in
          let tn := total_notes (track t) in
          if (0 <? tn) && mostly_bass bc tn && (st.2 <? bc)
          then (Some (idx, t), bc) else st in
      scan_bass (S idx) rest st'
  end.

(** The search for a track already on channel 1. *)
Fixpoint find_channel_1 (idx bass_track_idx : nat)
  (tracks : list TrackInfo) : option (nat * TrackInfo) :=
  match tracks with
  | [] => None
  | t :: rest =>
      if (channel t =? 1) && negb (Nat.eqb idx bass_track_idx)
      then Some (idx, t)
      else find_channel_1 (S idx) bass_track_idx rest
  end.

(** What happens to the bass track in either branch. *)
Definition move_bass (bass_track : TrackInfo) : TrackInfo :=
  {| index := index bass_track;
     track := map (set_channel 1) (track bass_track);
     events := events bass_track; channel := 1;
     old_channel := old_channel bass_track;
     moved_from := Some (channel bass_track);
     swapped_from := swapped_from bass_track; is_bass := true |}.

(** What happens to the track that held channel 1. *)
Definition swap_out (old_ch : Z) (channel_1_track : TrackInfo) : TrackInfo :=
  {| index := index channel_1_track;
     track := map (set_channel old_ch) (track channel_1_track);
     events := events channel_1_track; channel := old_ch;
     old_channel := old_channel channel_1_track;
     moved_from := moved_from channel_1_track;
     swapped_from := Some 1; is_bass := is_bass channel_1_track |}.

Definition detect_bass_track (tracks : list TrackInfo) : list TrackInfo :=
  match (scan_bass 0 tracks (None, 0)).1 with
  | None => tracks
  | Some (bass_track_idx, bass_track) =>
      if negb (channel bass_track =? 1) then
        let old_ch := channel bass_track in
        match find_channel_1 0 bass_track_idx tracks with
        | Some (channel_1_idx, channel_1_track) =>
            <[channel_1_idx := swap_out old_ch channel_1_track]>
              (<[bass_track_idx := move_bass bass_track]> tracks)
        | None => <[bass_track_idx := move_bass bass_track]> tracks
        end
      else tracks
  end.

(** ** Channel splitter ([convert_type0_to_type1]) *)

Record MidiFile : Type := mkMidiFile {
  type : Z;
  ticks_per_beat : Z;
  tracks : list Track
}.

(** Python's [l[i]] position in a list of length [n]: negative indices
    count from the end, anything else out of range raises. *)
Definition py_index (i : Z) (n : nat) : option nat :=
  if (0 <=? i) && (i <? Z.of_nat n) then Some (Z.to_nat i)
  else if (- Z.of_nat n <=? i) && (i <? 0) then Some (Z.to_nat (Z.of_nat n + i))
  else None.

(** The loop over [original_track]. *)
Fixpoint split_loop (current_time : Z)
  (channel_messages : list (list (Z * Msg)))
  (meta_messages : list (Z * Msg)) (original_track : Track)
  : outcome (list (list (Z * Msg)) * list (Z * Msg)) :=
  match original_track with
  | [] => Returned (channel_messages, meta_messages)
  | msg :: rest =>
      let current_time := current_time + time msg in
      if is_meta msg then
        split_loop current_time channel_messages
                   (meta_messages ++ [(current_time, msg)]) rest
      else
        match msg_channel msg with
        | Some c =>
            match py_index c (length channel_messages) with
            | Some i =>
                split_loop current_time
                  (alter (λ b, b ++ [(current_time, set_time 0 msg)])
                         i channel_messages)
                  meta_messages rest
            | None => Raised IndexError
            end
        | None => split_loop current_time channel_messages meta_messages rest
        end
  end.

(** The track built from one non-empty channel bucket. *)
Definition channel_track (bucket : list (Z * Msg)) : Track :=
  to_relative (py_sort fst false bucket) ++ [end_of_track].

(** The [for channel in range(16)] loop over the buckets. *)
Fixpoint channel_tracks (channel_messages : list (list (Z * Msg)))
  : list Track :=
  match channel_messages with
  | [] => []
  | [] :: rest => channel_tracks rest
  | bucket :: rest => channel_track bucket :: channel_tracks rest
  end.

Definition meta_tracks (meta_messages : list (Z * Msg)) : list Track :=
  match meta_messages with
  | [] => []
  | _ => [to_relative meta_messages]
  end.

Definition convert_type0_to_type1 (mid : MidiFile) : outcome MidiFile :=
  match tracks mid with
  | [] => Raised IndexError
  | original_track :: _ =>
      match split_loop 0 (replicate 16 []) [] original_track with
      | Raised e => Raised e
      | Returned (channel_messages, meta_messages) =>
          Returned {| type := 1;
                      ticks_per_beat := ticks_per_beat mid;
                      tracks := meta_tracks meta_messages
                                ++ channel_tracks channel_messages |}
      end
  end.

(** ** The reassignment steps of [process_files] *)

(** [standardize_channels] followed by [detect_bass_track], as
    [process_files] applies them to [top_tracks]. *)
Definition reassign_channels (top_tracks : list TrackInfo)
  : list TrackInfo :=
  detect_bass_track (standardize_channels top_tracks).

(** From the tracks of a file to the reassigned selection. *)
Definition process_tracks (min_events : Z) (max_tracks : nat)
  (tracks : list Track) : list TrackInfo :=
  reassign_channels (select_top_tracks min_events max_tracks
                                       (track_info tracks)).1.

(** ** Writing a file ([MidiFile.save])

    The three programs hand a [MidiFile] to mido's [save].  What is
    modelled of it is what can make the call raise on a file whose
    messages mido holds, and what it changes in the tracks it writes.
    The folder is taken to be writable, and what a call that raises
    has left on disk by then is outside the model. *)

(** [msg.type == kind], asked of a meta message. *)
Definition meta_is (kind : string) (msg : Msg) : bool :=
  match body msg with
  | Meta k _ _ => String.eqb k kind
  | _ => false
  end.

(** mido's [REALTIME_TYPES], and [msg.is_realtime]. *)
Definition REALTIME_TYPES : list string :=
  ["tune_request"; "clock"; "start"; "continue"; "stop"].

Definition is_realtime (msg : Msg) : bool :=
  match body msg with
  | System kind _ => bool_decide (kind ∈ REALTIME_TYPES)
  | _ => false
  end.

(** mido's [fix_end_of_track], entered with [accum]: every end-of-track
    is taken out, its delta time is added to the next message, and one
    end-of-track closes the track. *)
Fixpoint fix_end_of_track (accum : Z) (messages : list Msg) : list Msg :=
  match messages with
  | [] => [set_time accum end_of_track]
  | msg :: rest =>
      if meta_is "end_of_track" msg
      then fix_end_of_track (accum + time msg) rest
      else if negb (accum =? 0)
           then set_time (accum + time msg) msg :: fix_end_of_track 0 rest
           else msg :: fix_end_of_track 0 rest
  end.

(** The tests of [write_track] on a message: a negative delta time and
    a real-time message raise [ValueError]. *)
Definition writable (msg : Msg) : bool :=
  (0 <=? time msg) && negb (is_realtime msg).

(** A value [struct.pack] accepts for the format [h] of the header. *)
Definition short (x : Z) : bool := (-32768 <=? x) && (x <=? 32767).

(** [mid.save(path)]: the file written, as mido reads it back, or
    [None] when the call raises: a format-0 file must have exactly one
    track, the three header fields must fit 16 signed bits, and every
    message written must pass the tests of [write_track]. *)
Definition save (mid : MidiFile) : option MidiFile :=
  if (type mid =? 0) && negb (Nat.eqb (length (tracks mid)) 1) then None
  else if short (type mid) && short (Z.of_nat (length (tracks mid)))
          && short (ticks_per_beat mid)
          && forallb (λ track, forallb writable (fix_end_of_track 0 track))
                     (tracks mid)
  then Some {| type := type mid; ticks_per_beat := ticks_per_beat mid;
               tracks := map (fix_end_of_track 0) (tracks mid) |}
  else None.

(** ** One file through [process_files] *)

(** The body of the loop of [process_files] after the type dispatch,
    up to the call of [save]: selection, reassignment, the final
    [top_tracks.sort] by channel, and the new file built from the
    tracks.  [self.min_events] and [self.max_tracks] are the constants
    50 and 5 in the source. *)
Definition filter_tracks (min_events : Z) (max_tracks : nat)
  (mid : MidiFile) : MidiFile :=
  let top_tracks :=
    py_sort channel false (process_tracks min_events max_tracks (tracks mid)) in
  {| type := 1; ticks_per_beat := ticks_per_beat mid;
     tracks := map track top_tracks |}.

(** What becomes of one file: it is saved, it is skipped for its type,
    or an exception is caught and counted, raised by the conversion or
    by [save]. *)
Inductive file_result : Type :=
| Saved (new_mid : MidiFile)
| Skipped
| Errored (e : PyError)
| SaveRefused.

(** [new_mid.save(output_file)] at the end of the loop body. *)
Definition save_filtered (new_mid : MidiFile) : file_result :=
  match save new_mid with
  | Some saved => Saved saved
  | None => SaveRefused
  end.

Definition process_file (min_events : Z) (max_tracks : nat)
  (mid : MidiFile) : file_result :=
  if type mid =? 0 then
    match convert_type0_to_type1 mid with
    | Returned mid' => save_filtered (filter_tracks min_events max_tracks mid')
    | Raised e => Errored e
    end
  else if type mid =? 1
       then save_filtered (filter_tracks min_events max_tracks mid)
  else Skipped.

(** ** Combiner ([combine_midi_files]) *)

(** [MetaMessage('track_name', name=..., time=0)]; the name is held as
    its character codes. *)
Definition track_name (name : list Z) : Msg :=
  {| time := 0; body := Meta "track_name" None name |}.

(** [MetaMessage('set_tempo', tempo=tempo, time=0)] *)
Definition set_tempo (tempo : Z) : Msg :=
  {| time := 0; body := Meta "set_tempo" None [tempo] |}.

(** The check mido makes of the tempo of a [set_tempo] event, which is
    stored in three bytes; outside the range the constructor raises
    [ValueError]. *)
Definition tempo_ok (tempo : Z) : bool :=
  (0 <=? tempo) && (tempo <=? 16777215).

(** [f'CH{i}'] for a one-digit [i], and ['CH10']. *)
Definition ch_name (i : Z) : list Z := [67; 72; 48 + i].
Definition ch10_name : list Z := [67; 72; 49; 48].

(** [msg.copy(channel=c)].  mido checks the overridden attribute
    against the message type and raises [ValueError] for a type that
    has no channel; [None] stands for that. *)
Definition copy_channel (c : Z) (msg : Msg) : option Msg :=
  match msg_channel msg with
  | Some _ => Some (set_channel c msg)
  | None => None
  end.

(** The test on a meta message in the loop over files 1 to 4. *)
Definition kept_meta_melodic (msg : Msg) : bool :=
  negb (meta_is "end_of_track" msg) && negb (meta_is "set_tempo" msg)
  && negb (meta_is "track_name" msg).

(** The message loops over the tracks of one of the files 1 to 4. *)
Fixpoint copy_melodic (c : Z) (msgs : list Msg) : option (list Msg) :=
  match msgs with
  | [] => Some []
  | msg :: rest =>
      if is_meta msg then
        if kept_meta_melodic msg
        then cons msg <$> copy_melodic c rest
        else copy_melodic c rest
      else
        match copy_channel c msg with
        | Some new_msg => cons new_msg <$> copy_melodic c rest
        | None => None
        end
  end.

(** [new_track] for file [i]: the name, the copies, the end-of-track. *)
Definition melodic_track (i : Z) (midi_file : MidiFile) : option Track :=
  copied ← copy_melodic (i - 1) (concat (tracks midi_file));
  Some (track_name (ch_name i) :: copied ++ [end_of_track]).

(** The message loops over the tracks of file 5 or 6. *)
Fixpoint copy_drums (msgs : list Msg) : option (list Msg) :=
  match msgs with
  | [] => Some []
  | msg :: rest =>
      if negb (is_meta msg)
         || (negb (meta_is "end_of_track" msg) && negb (meta_is "set_tempo" msg))
      then
        if is_meta msg then cons msg <$> copy_drums rest
        else
          match copy_channel 9 msg with
          | Some new_msg => cons new_msg <$> copy_drums rest
          | None => None
          end
      else copy_drums rest
  end.

(** The exceptions [combine_midi_files] lets out: a numbered file is
    not there (raised on opening ["1.mid"], and by the explicit check
    for each of the six), or the tempo event or a message copy is
    refused. *)
Inductive CombineError : Type :=
| FileNotFoundError (i : Z)
| ValueError.

Inductive attempt (A : Type) : Type :=
| Done (a : A)
| Failed (e : CombineError).
Arguments Done {A} a.
Arguments Failed {A} e.

(** The loop over the files [numbers] (1 to 4 in the source).  The
    folder gives the parsed file stored as ["<i>.mid"], if it exists. *)
Fixpoint load_melodic (folder : Z → option MidiFile) (numbers : list Z)
  : attempt (list Track) :=
  match numbers with
  | [] => Done []
  | i :: rest =>
      match folder i with
      | None => Failed (FileNotFoundError i)
      | Some midi_file =>
          match melodic_track i midi_file with
          | None => Failed ValueError
          | Some new_track =>
              match load_melodic folder rest with
              | Done new_tracks => Done (new_track :: new_tracks)
              | Failed e => Failed e
              end
          end
      end
  end.

(** One round of the loop over files 5 and 6. *)
Definition load_drums (folder : Z → option MidiFile) (i : Z)
  : attempt (list Msg) :=
  match folder i with
  | None => Failed (FileNotFoundError i)
  | Some midi_file =>
      match copy_drums (concat (tracks midi_file)) with
      | Some msg_list => Done msg_list
      | None => Failed ValueError
      end
  end.

(** [combine_midi_files], up to the deletion of the source files:
    [tempo] is the integer that [bpm2tempo(bpm)] returns (the caller
    passes a positive [bpm]).  ["1.mid"] is opened first, then the
    tempo track is built, then the six files are gone through. *)
Definition combine_midi_files (folder : Z → option MidiFile) (tempo : Z)
  : attempt MidiFile :=
  match folder 1 with
  | None => Failed (FileNotFoundError 1)
  | Some first_file =>
      if negb (tempo_ok tempo) then Failed ValueError
      else
      match load_melodic folder [1; 2; 3; 4] with
      | Failed e => Failed e
      | Done melodic =>
          match load_drums folder 5 with
          | Failed e => Failed e
          | Done track5_msgs =>
              match load_drums folder 6 with
              | Failed e => Failed e
              | Done track6_msgs =>
                  Done {| type := 1;
                          ticks_per_beat := ticks_per_beat first_file;
                          tracks :=
                            [set_tempo tempo; end_of_track]
                            :: melodic
                            ++ [track_name ch10_name
                                :: merge_drum_tracks track5_msgs track6_msgs
                                ++ [end_of_track]] |}
              end
          end
      end
  end.

(** ** Note quantizer ([MidiFile_Quantizer.py]) *)

(** [min(l, key=key)] once a first element is in hand: a later element
    replaces the best one only when its key is strictly smaller. *)
Fixpoint py_min_from (key : Z → Z) (best : Z) (l : list Z) : Z :=
  match l with
  | [] => best
  | x :: rest =>
      py_min_from key (if key x <? key best then x else best) rest
  end.

(** [min(l, key=key)]; [None] is the [ValueError] for an empty list. *)
Definition py_min (key : Z → Z) (l : list Z) : option Z :=
  match l with
  | [] => None
  | x :: rest => Some (py_min_from key x rest)
  end.

Definition get_closest_note (midi_note : Z) (allowed_notes : list Z)
  : option Z :=
  let note_in_octave := midi_note mod 12 in
  let octave := midi_note / 12 in
  closest ← py_min (λ x, Z.abs (x - note_in_octave)) allowed_notes;
  Some (octave * 12 + closest).

(** [msg.note = n] on a note message: mido checks that a data byte is
    in 0..127 and raises [ValueError] otherwise ([None]). *)
Definition set_note (n : Z) (msg : Msg) : option Msg :=
  if (0 <=? n) && (n <=? 127) then
    Some {| time := time msg;
            body := match body msg with
                    | NoteOn c _ v => NoteOn c n v
                    | NoteOff c _ v => NoteOff c n v
                    | b => b
                    end |}
  else None.

(** The body of the message loop of [process_midi_file]: the message
    as it is left, and what it adds to the change counters. *)
Definition quantize_msg (allowed_notes : list Z) (msg : Msg)
  : option (Msg * Z) :=
  match body msg with
  | NoteOn c original_note _ | NoteOff c original_note _ =>
      if c =? 9 then Some (msg, 0)
      else
        quantized_note ← get_closest_note original_note allowed_notes;
        if negb (original_note =? quantized_note) then
          new_msg ← set_note quantized_note msg; Some (new_msg, 1)
        else Some (msg, 0)
  | _ => Some (msg, 0)
  end.

(** The loop over the messages of one track, with
    [changes_per_track[track_idx]]. *)
Fixpoint quantize_track (allowed_notes : list Z) (track : Track)
  : option (Track * Z) :=
  match track with
  | [] => Some ([], 0)
  | msg :: rest =>
      r ← quantize_msg allowed_notes msg;
      rs ← quantize_track allowed_notes rest;
      Some (r.1 :: rs.1, r.2 + rs.2)
  end.

(** The loop over the tracks: the tracks as they are left and the
    values of [changes_per_track] in track order. *)
Fixpoint quantize_tracks (allowed_notes : list Z) (tracks : list Track)
  : option (list Track * list Z) :=
  match tracks with
  | [] => Some ([], [])
  | track :: rest =>
      r ← quantize_track allowed_notes track;
      rs ← quantize_tracks allowed_notes rest;
      Some (r.1 :: rs.1, r.2 :: rs.2)
  end.

(** What [process_midi_file] does with a file: it saves the quantized
    file and returns the counters ([Quantized] holds the file as
    written), or an exception is caught, raised in the loops or by
    [save], and [(0, {})] is returned. *)
Inductive quantize_result : Type :=
| Quantized (mid : MidiFile) (total_changes : Z) (changes_per_track : list Z)
| NotSaved.

Definition process_midi_file (allowed_notes : list Z) (mid : MidiFile)
  : quantize_result :=
  match quantize_tracks allowed_notes (tracks mid) with
  | Some (new_tracks, changes_per_track) =>
      match save {| type := type mid; ticks_per_beat := ticks_per_beat mid;
                    tracks := new_tracks |} with
      | Some saved =>
          Quantized saved (foldr Z.add 0 changes_per_track) changes_per_track
      | None => NotSaved
      end
  | None => NotSaved
  end.

(** ** Sample input *)

(** A format-0 track with a tempo event, a drum hit, a note with a
    system-exclusive message inside it, a pitch bend, and the
    end-of-track. *)
Definition sample_track : Track :=
  [mkMsg 0 (Meta "set_tempo" None [500000]);
   mkMsg 0 (NoteOn 9 36 100);
   mkMsg 10 (NoteOn 0 60 64);
   mkMsg 5 (System "sysex" [126; 127; 9; 1]);
   mkMsg 5 (ChannelVoice "pitchwheel" 0 [8192]);
   mkMsg 100 (NoteOff 0 60 0);
   mkMsg 0 (Meta "end_of_track" None [])].

Definition sample_file : MidiFile :=
  {| type := 0; ticks_per_beat := 480; tracks := [sample_track] |}.

(** Six single-track files as the combiner expects them under
    ["1.mid"] to ["6.mid"]: four melodic parts and two drum parts whose
    snare hits coincide at tick 480. *)
Definition sample_part (ch note : Z) : MidiFile :=
  {| type := 0; ticks_per_beat := 480;
     tracks := [[mkMsg 0 (Meta "track_name" None [80]);
                 mkMsg 0 (NoteOn ch note 100);
                 mkMsg 480 (NoteOff ch note 0);
                 mkMsg 0 (Meta "end_of_track" None [])]] |}.

Definition sample_drums (note velocity : Z) : MidiFile :=
  {| type := 0; ticks_per_beat := 480;
     tracks := [[mkMsg 0 (NoteOn 0 note 100);
                 mkMsg 480 (NoteOn 0 38 velocity);
                 mkMsg 0 (Meta "end_of_track" None [])]] |}.

Definition sample_folder (i : Z) : option MidiFile :=
  if (1 <=? i) && (i <=? 4) then Some (sample_part 0 (59 + i))
  else if i =? 5 then Some (sample_drums 42 90)
  else if i =? 6 then Some (sample_drums 36 100)
  else None.

(** The same folder with the sample file, which holds a
    system-exclusive message, in place of ["3.mid"]. *)
Definition sample_folder_sysex (i : Z) : option MidiFile :=
  if i =? 3 then Some sample_file else sample_folder i.

(** * Vocabulary of the statements *)

(** Every entry of an absolute-time list carries a message whose own
    time field is 0. *)
Definition zero_timed (e : Z * Msg) : Prop := time e.2 = 0.

(** The time before entry [i] of an absolute-time list: 0 ahead of the
    first entry. *)
Definition time_before (l : list (Z * Msg)) (i : nat) : Z :=
  match i with
  | O => 0
  | S j => default 0 (fst <$> l !! j)
  end.

(** Entry [S i] of an absolute-time list is earlier than entry [i]. *)
Definition decreases_at (l : list (Z * Msg)) (i : nat) : Prop :=
  ∃ a m1 b m2, l !! i = Some (a, m1) ∧ l !! S i = Some (b, m2) ∧ b < a.

(** The entries of an absolute-time list that sit at [tick]. *)
Definition at_tick (tick : Z) (l : list (Z * Msg)) : list (Z * Msg) :=
  List.filter (λ e, e.1 =? tick) l.

(** The ranking of the selector: more events first, and among equal
    event counts the lower original track index first. *)
Definition ranks_before (x y : TrackInfo) : Prop :=
  events y < events x ∨ (events x = events y ∧ (index x < index y)%nat).

(** Every message of the track that has a channel is on the channel
    its track information records: the track has one active channel,
    or none when it is meta-only. *)
Definition uniform (t : TrackInfo) : Prop :=
  ∀ msg c, msg ∈ track t → msg_channel msg = Some c → c = channel t.




(** What the analysis loop of the bass detection reads of a track. *)
Definition same_view (t t' : TrackInfo) : Prop :=
  skipped t = skipped t'
  ∧ bass_count (track t) = bass_count (track t')
  ∧ total_notes (track t) = total_notes (track t').


(** The melodic tracks of a selection, as [standardize_channels]
    partitions it. *)
Definition melodic_of (tracks : list TrackInfo) : list TrackInfo :=
  List.filter (λ t, negb (channel t =? 9)) tracks.


(** Every channel a non-meta message of the track carries is one of
    the sixteen MIDI channels (mido accepts no other). *)
Definition channels_in_range (track : Track) : Prop :=
  Forall (λ msg, is_meta msg = false →
                 ∀ c, msg_channel msg = Some c → 0 ≤ c < 16) track.

(** The entry belongs in the bucket of channel [i]. *)
Definition in_bucket (i : nat) (e : Z * Msg) : bool :=
  negb (is_meta e.2) && bool_decide (msg_channel e.2 = Some (Z.of_nat i)).

(** The non-meta entries of an absolute-time list on channel [i]. *)
Definition bucket_of (i : nat) (abs : list (Z * Msg)) : list (Z * Msg) :=
  List.filter (in_bucket i) abs.

Arguments bucket_of : simpl never.

(** The meta entries of an absolute-time list. *)
Definition meta_of (abs : list (Z * Msg)) : list (Z * Msg) :=
  List.filter (λ e, is_meta e.2) abs.

(** The meta entries as the splitter collects them, each still with
    the delta time it had in the original track. *)
Fixpoint meta_abs (current_time : Z) (original_track : Track)
  : list (Z * Msg) :=
  match original_track with
  | [] => []
  | msg :: rest =>
      let current_time := current_time + time msg in
      if is_meta msg then (current_time, msg) :: meta_abs current_time rest
      else meta_abs current_time rest
  end.

(** The meta track of the output: present when there is a meta entry. *)
Definition meta_track_of (abs : list (Z * Msg)) : list Track :=
  match meta_of abs with
  | [] => []
  | metas => [to_relative metas]
  end.

(** The track of channel [i] in the output: present when the channel
    has an entry, and closed by an end-of-track of delta 0. *)
Definition tracks_of_channel (abs : list (Z * Msg)) (i : nat) : list Track :=
  match bucket_of i abs with
  | [] => []
  | bucket => [to_relative (py_sort fst false bucket) ++ [end_of_track]]
  end.

(** The track passes the tests of the bass analysis: it is not
    skipped, it has a note-on, and more than half of its note-ons are
    below note 48. *)
Definition eligible (t : TrackInfo) : Prop :=
  skipped t = false
  ∧ 0 < total_notes (track t)
  ∧ total_notes (track t) < 2 * bass_count (track t).

(** Two track informations differ in nothing but channels: same
    original index, same event count, and the same messages once the
    channel of each is blanked. *)
Definition same_content (t t' : TrackInfo) : Prop :=
  index t' = index t
  ∧ events t' = events t
  ∧ map (set_channel 0) (track t') = map (set_channel 0) (track t).

(** All delta times of a track are non-negative. *)
Definition nonneg_deltas (tr : Track) : Prop := Forall (λ msg, 0 ≤ time msg) tr.

(** The ticks a track spans: the sum of its delta times. *)
Definition duration (tr : Track) : Z := foldr Z.add 0 (time <$> tr).

(** What the analysis loop knows after the first [k] tracks of [all]:
    no eligible track so far, or the first eligible track of largest
    sub-48 count so far. *)
Definition scan_inv (all : list TrackInfo) (k : nat)
  (st : option (nat * TrackInfo) * Z) : Prop :=
  match st.1 with
  | None =>
      st.2 = 0 ∧ ∀ i u, (i < k)%nat → all !! i = Some u → ¬ eligible u
  | Some (b, t) =>
      (b < k)%nat ∧ all !! b = Some t ∧ eligible t
      ∧ st.2 = bass_count (track t)
      ∧ (∀ i u, (i < k)%nat → all !! i = Some u → eligible u →
                bass_count (track u) ≤ bass_count (track t))
      ∧ (∀ i u, (i < b)%nat → all !! i = Some u → eligible u →
                bass_count (track u) < bass_count (track t))
  end.

(** The tick of the last entry of an absolute-time list, [a] when the
    list is empty. *)
Fixpoint last_tick (a : Z) (l : list (Z * Msg)) : Z :=
  match l with
  | [] => a
  | e :: rest => last_tick e.1 rest
  end.

(** The messages of a list of tracks that pass a test, counted. *)
Definition count_in_tracks (p : Msg → bool) (trs : list Track) : Z :=
  foldr (λ tr acc, count_if p tr + acc) 0 trs.

(** The message is a non-meta message on channel [i]. *)
Definition on_channel (i : nat) (msg : Msg) : bool :=
  negb (is_meta msg) && bool_decide (msg_channel msg = Some (Z.of_nat i)).

(** Every non-meta message of the list has a channel, so that
    [msg.copy(channel=...)] accepts it. *)
Definition copyable (msgs : list Msg) : Prop :=
  Forall (λ msg, is_meta msg = false → msg_channel msg ≠ None) msgs.

(** What the copies from one of the files 1 to 4 look like: non-meta
    messages on channel [c], meta messages other than end-of-track,
    tempo and track name. *)
Definition melodic_part (c : Z) (msgs : list Msg) : Prop :=
  Forall (λ msg, if is_meta msg then kept_meta_melodic msg = true
                 else msg_channel msg = Some c) msgs.

(** What the merged drum messages look like: non-meta messages on
    channel 9, meta messages other than end-of-track and tempo. *)
Definition drum_part (msgs : list Msg) : Prop :=
  Forall (λ msg, if is_meta msg
                 then meta_is "end_of_track" msg = false
                      ∧ meta_is "set_tempo" msg = false
                 else msg_channel msg = Some 9) msgs.

(** The copy the combiner makes of a message for channel [c]. *)
Definition to_channel (c : Z) (msg : Msg) : Msg :=
  if is_meta msg then msg else set_channel c msg.

(** The message is copied from one of the files 1 to 4: it is not an
    end-of-track, tempo or track-name event. *)
Definition kept_melodic (msg : Msg) : bool :=
  negb (is_meta msg) || kept_meta_melodic msg.

(** The message is a note-on or note-off on a channel other than 9:
    one the quantizer works on. *)
Definition quantizable (msg : Msg) : bool :=
  match body msg with
  | NoteOn c _ _ | NoteOff c _ _ => negb (c =? 9)
  | _ => false
  end.

(** The message with its note number blanked. *)
Definition blank_note (msg : Msg) : Msg :=
  {| time := time msg;
     body := match body msg with
             | NoteOn c _ v => NoteOn c 0 v
             | NoteOff c _ v => NoteOff c 0 v
             | b => b
             end |}.

(** Equality of messages is decidable. *)
#[global] Instance Body_eq_dec : EqDecision Body.
Proof. solve_decision. Defined.

#[global] Instance Msg_eq_dec : EqDecision Msg.
Proof. solve_decision. Defined.

(** How many positions of two tracks hold different messages. *)
Fixpoint differences (tr tr' : Track) : Z :=
  match tr, tr' with
  | m :: rest, m' :: rest' =>
      (if bool_decide (m = m') then 0 else 1) + differences rest rest'
  | _, _ => 0
  end.

(** What quantizing does to a message at most: the note number of a
    note outside channel 9 may change, to one whose offset in the
    octave is allowed. *)
Definition quantized_from (allowed_notes : list Z) (msg msg' : Msg) : Prop :=
  blank_note msg' = blank_note msg
  ∧ (quantizable msg = false → msg' = msg)
  ∧ (quantizable msg' = true → msg_note msg' mod 12 ∈ allowed_notes).

(** The message passes the tests of [write_track]: its delta time is
    not negative and it is not a real-time message. *)
Definition plain_timed (msg : Msg) : Prop :=
  0 ≤ time msg ∧ is_realtime msg = false.

(** The header fields fit the 16 signed bits each is written in, as
    they do in every file mido has read. *)
Definition header_fits (mid : MidiFile) : Prop :=
  -32768 ≤ type mid ≤ 32767
  ∧ Z.of_nat (length (tracks mid)) ≤ 32767
  ∧ -32768 ≤ ticks_per_beat mid ≤ 32767.

(** The quantizer leaves the message as it is. *)
Definition settled (allowed_notes : list Z) (msg : Msg) : Prop :=
  quantize_msg allowed_notes msg = Some (msg, 0).

(** * Properties *)

(** ** Event timeline *)

Lemma set_time_time (msg : Msg) : set_time (time msg) msg = msg.
Proof. by destruct msg. Qed.

Lemma set_time_set_time (s t : Z) (msg : Msg) :
  set_time s (set_time t msg) = set_time s msg.
Proof. done. Qed.

Lemma to_relative_from_get_abs_times_from (a : Z) (t : Track) :
  to_relative_from a (get_abs_times_from a t) = t.
Proof.
  revert a; induction t as [|msg t IH]; intros a; simpl; [done|].
  rewrite IH, set_time_set_time.
  replace (a + time msg - a) with (time msg) by lia.
  by rewrite set_time_time.
Qed.

Lemma get_abs_times_from_to_relative_from (a : Z) (l : list (Z * Msg)) :
  get_abs_times_from a (to_relative_from a l)
  = map (λ e, (e.1, set_time 0 e.2)) l.
Proof.
  revert a; induction l as [|[t msg] l IH]; intros a; simpl; [done|].
  replace (a + (t - a)) with t by lia.
  by rewrite IH.
Qed.

Lemma get_abs_times_from_length (a : Z) (t : Track) :
  length (get_abs_times_from a t) = length t.
Proof. revert a; induction t; intros; simpl; auto. Qed.

Lemma to_relative_from_length (a : Z) (l : list (Z * Msg)) :
  length (to_relative_from a l) = length l.
Proof. revert a; induction l as [|[??] l IH]; intros; simpl; auto. Qed.

Lemma get_abs_times_from_zero_timed (a : Z) (t : Track) :
  Forall zero_timed (get_abs_times_from a t).
Proof.
  revert a; induction t; intros; simpl; constructor; auto.
  reflexivity.
Qed.

Lemma get_abs_times_to_relative (l : list (Z * Msg)) :
  Forall zero_timed l → get_abs_times (to_relative l) = l.
Proof.
  intros Hl. unfold get_abs_times, to_relative.
  rewrite get_abs_times_from_to_relative_from.
  induction Hl as [|[t [tm b]] l Hz _ IH]; simpl; [done|].
  unfold zero_timed in Hz; simpl in Hz; subst tm.
  by rewrite IH.
Qed.

(** The absolute time of entry [i] is the start time plus the sum of
    the deltas up to and including message [i]. *)
Lemma get_abs_times_from_lookup (a : Z) (t : Track) (i : nat) (msg : Msg) :
  t !! i = Some msg →
  get_abs_times_from a t !! i
  = Some (a + foldr Z.add 0 (time <$> take (S i) t), set_time 0 msg).
Proof.
  revert a i; induction t as [|m t IH]; intros a i Hi; [done|].
  destruct i as [|i]; simpl in *.
  - inversion Hi; subst. by rewrite Z.add_0_r.
  - rewrite (IH _ _ Hi). do 2 f_equal. symmetry; apply Z.add_assoc.
Qed.

Lemma to_relative_from_lookup (a : Z) (l : list (Z * Msg)) (i : nat)
  (t : Z) (msg : Msg) :
  l !! i = Some (t, msg) →
  to_relative_from a l !! i
  = Some (set_time (t - match i with O => a | S _ => time_before l i end) msg).
Proof.
  revert a i; induction l as [|[t0 m0] l IH]; intros a i Hi; [done|].
  destruct i as [|i]; simpl in *.
  - by inversion Hi; subst.
  - rewrite (IH _ _ Hi). destruct i as [|i]; simpl; [done|]. done.
Qed.

(** ** The stable sort *)

Section py_sort_facts.
Context {A : Type} (key : A → Z) (reverse : bool).

Local Abbreviation le := (λ x y, key_le key reverse x y = true).

Lemma key_le_total (x y : A) :
  key_le key reverse x y = true ∨ key_le key reverse y x = true.
Proof. unfold key_le; destruct reverse; lia. Qed.

Lemma key_le_trans (x y z : A) :
  key_le key reverse x y = true → key_le key reverse y z = true →
  key_le key reverse x z = true.
Proof. unfold key_le; destruct reverse; lia. Qed.

Lemma key_le_same (x y : A) : key x = key y → key_le key reverse x y = true.
Proof. unfold key_le; destruct reverse; lia. Qed.

Lemma sort_insert_perm (x : A) (l : list A) :
  sort_insert key reverse x l ≡ₚ x :: l.
Proof.
  induction l as [|y l IH]; simpl; [done|].
  destruct (key_le key reverse x y); [done|].
  rewrite IH. apply Permutation_swap.
Qed.

Lemma py_sort_perm (l : list A) : py_sort key reverse l ≡ₚ l.
Proof.
  induction l as [|x l IH]; simpl; [done|].
  by rewrite sort_insert_perm, IH.
Qed.

Lemma sort_insert_sorted (x : A) (l : list A) :
  StronglySorted le l → StronglySorted le (sort_insert key reverse x l).
Proof.
  induction 1 as [|y l Hl IH Hy]; simpl.
  - repeat constructor.
  - destruct (key_le key reverse x y) eqn:Hxy.
    + constructor; [by constructor|].
      constructor; [done|].
      eapply Forall_impl; [exact Hy|]. intros z Hz.
      by eapply key_le_trans.
    + constructor; [done|].
      rewrite sort_insert_perm. constructor; [|done].
      destruct (key_le_total x y); congruence.
Qed.

Lemma py_sort_sorted (l : list A) : StronglySorted le (py_sort key reverse l).
Proof.
  induction l; simpl; [constructor|]. by apply sort_insert_sorted.
Qed.

(** Stability: the elements with a given key come out in the order
    they went in. *)
Lemma sort_insert_same_key (k : Z) (x : A) (l : list A) :
  List.filter (λ y, key y =? k) (sort_insert key reverse x l)
  = List.filter (λ y, key y =? k) (x :: l).
Proof.
  induction l as [|y l IH]; [done|].
  cbn [sort_insert].
  destruct (key_le key reverse x y) eqn:Hxy; [done|].
  cbn [List.filter] in *. rewrite IH.
  destruct (key x =? k) eqn:Hx, (key y =? k) eqn:Hy; try done.
  rewrite key_le_same in Hxy; [done|lia].
Qed.

Lemma py_sort_stable (k : Z) (l : list A) :
  List.filter (λ y, key y =? k) (py_sort key reverse l)
  = List.filter (λ y, key y =? k) l.
Proof.
  induction l as [|x l IH]; [done|].
  cbn [py_sort foldr]. rewrite sort_insert_same_key.
  cbn [List.filter]. fold (py_sort key reverse l). by rewrite IH.
Qed.

Lemma py_sort_Forall (P : A → Prop) (l : list A) :
  Forall P l → Forall P (py_sort key reverse l).
Proof. intros. by rewrite py_sort_perm. Qed.
End py_sort_facts.

(** ** Drum merger *)

Lemma elem_of_track6_note_times_from (seen : gset (Z * Z))
  (l : list (Z * Msg)) (k : Z * Z) :
  k ∈ track6_note_times_from seen l
  ↔ k ∈ seen ∨ ∃ e, e ∈ l ∧ is_onset e.2 = true ∧ note_key e = k.
Proof.
  revert seen; induction l as [|e l IH]; intros seen; simpl.
  - split; [by left|]. intros [?|(e & He & _)]; [done|]. by inversion He.
  - rewrite IH. split.
    + intros [Hk|(e' & He' & Hon & Hk)].
      * destruct (is_onset e.2) eqn:Hon; [|by left].
        apply elem_of_union in Hk as [Hk|Hk]; [|by left].
        apply elem_of_singleton in Hk. right. exists e.
        split; [by left|done].
      * right. exists e'. split; [by right|done].
    + intros [Hk|(e' & He' & Hon & Hk)].
      * left. destruct (is_onset e.2); [|done].
        apply elem_of_union. by right.
      * apply elem_of_cons in He' as [->|He'].
        -- left. rewrite Hon. apply elem_of_union. left.
           by apply elem_of_singleton.
        -- right. by exists e'.
Qed.

Lemma survives_false (track6_abs : list (Z * Msg)) (e : Z * Msg) :
  survives (track6_note_times track6_abs) e = false
  ↔ is_onset e.2 = true
    ∧ ∃ e6, e6 ∈ track6_abs ∧ is_onset e6.2 = true
            ∧ e6.1 = e.1 ∧ msg_note e6.2 = msg_note e.2.
Proof.
  unfold survives, track6_note_times.
  destruct (is_onset e.2) eqn:Hon.
  - rewrite negb_false_iff, bool_decide_eq_true.
    rewrite elem_of_track6_note_times_from. split.
    + intros [Hk|(e6 & He6 & Hon6 & Hk)]; [by apply elem_of_empty in Hk|].
      split; [done|]. exists e6. unfold note_key in Hk.
      by inversion Hk.
    + intros (_ & e6 & He6 & Hon6 & Ht & Hn). right. exists e6.
      repeat split; try done. unfold note_key. by rewrite Ht, Hn.
  - split; [done|]. by intros [? _].
Qed.

Lemma combined_zero_timed (track5_msgs track6_msgs : list Msg) :
  Forall zero_timed (combined track5_msgs track6_msgs).
Proof.
  unfold combined. apply py_sort_Forall, Forall_app. split.
  - unfold filtered_track5. apply List.Forall_forall. intros e He.
    apply List.filter_In in He as [He _]. revert e He.
    apply List.Forall_forall, get_abs_times_from_zero_timed.
  - apply get_abs_times_from_zero_timed.
Qed.

Lemma merge_drum_tracks_abs (track5_msgs track6_msgs : list Msg) :
  get_abs_times (merge_drum_tracks track5_msgs track6_msgs)
  = combined track5_msgs track6_msgs.
Proof. apply get_abs_times_to_relative, combined_zero_timed. Qed.

Lemma py_sort_fst_ascending (l : list (Z * Msg)) :
  StronglySorted (λ x y, x.1 ≤ y.1) (py_sort fst false l).
Proof.
  generalize (py_sort_sorted fst false l).
  induction 1 as [|x l' _ IH Hx]; constructor; [done|].
  eapply Forall_impl; [exact Hx|]. unfold key_le. simpl. intros; lia.
Qed.

(** C1.  [merge_drum_tracks(primary, secondary)], read back in absolute
    time: there is a test [keep] on primary entries that fails exactly
    on a note-on with velocity > 0 for which secondary has a note-on
    with velocity > 0 of the same note at the same absolute tick; at
    every tick the merged track holds the kept primary entries of that
    tick, in their order, followed by all secondary entries of that
    tick, in their order; ticks ascend.  Hence every secondary message
    (every onset in particular) appears at its tick, and every kept
    primary message (note-offs, velocity-0 note-ons, non-note messages,
    unconflicted onsets) appears unchanged at its tick, ahead of the
    secondary messages of that tick. *)
Theorem merge_drum_tracks_priority (track5_msgs track6_msgs : list Msg) :
  let primary := get_abs_times track5_msgs in
  let secondary := get_abs_times track6_msgs in
  let merged := get_abs_times (merge_drum_tracks track5_msgs track6_msgs) in
  ∃ keep : Z * Msg → bool,
    (∀ e, keep e = false
          ↔ is_onset e.2 = true
            ∧ ∃ e6, e6 ∈ secondary ∧ is_onset e6.2 = true
                    ∧ e6.1 = e.1 ∧ msg_note e6.2 = msg_note e.2)
    ∧ (∀ tick, at_tick tick merged
               = at_tick tick (List.filter keep primary)
                 ++ at_tick tick secondary)
    ∧ StronglySorted (λ x y, x.1 ≤ y.1) merged
    ∧ (∀ e, e ∈ secondary → e ∈ merged)
    ∧ (∀ e, e ∈ primary → keep e = true → e ∈ merged).
Proof.
  intros primary secondary merged.
  exists (survives (track6_note_times secondary)).
  assert (Hm : merged
               = py_sort fst false
                   (List.filter (survives (track6_note_times secondary))
                                primary ++ secondary))
    by apply merge_drum_tracks_abs.
  split; [apply survives_false|].
  split.
  { intros tick. rewrite Hm. unfold at_tick.
    rewrite (py_sort_stable fst false tick). apply List.filter_app. }
  split; [rewrite Hm; apply py_sort_fst_ascending|].
  split.
  - intros e He. rewrite Hm, py_sort_perm. apply elem_of_app. by right.
  - intros e He Hk. rewrite Hm, py_sort_perm. apply elem_of_app. left.
    apply list_elem_of_In, List.filter_In. by rewrite <- list_elem_of_In.
Qed.

(** The priority scenario of the specification: secondary has
    (note 38, velocity 100) at tick 480; primary has (note 38,
    velocity 90) and (note 42, velocity 100) at tick 480. *)
Example merge_drum_tracks_scenario :
  merge_drum_tracks
    [mkMsg 480 (NoteOn 9 38 90); mkMsg 0 (NoteOn 9 42 100)]
    [mkMsg 480 (NoteOn 9 38 100)]
  = [mkMsg 480 (NoteOn 9 42 100); mkMsg 0 (NoteOn 9 38 100)].
Proof. vm_compute. reflexivity. Qed.

(** C2.  For a track whose delta times are all non-negative, converting
    to absolute time and back yields the track: absolute time [i] is
    the sum of the deltas up to message [i], and the delta computed
    back is the absolute time minus that of the predecessor (minus 0
    for the first message). *)
Theorem to_relative_get_abs_times (t : Track) :
  Forall (λ msg, 0 ≤ time msg) t →
  to_relative (get_abs_times t) = t
  ∧ (∀ i msg, t !! i = Some msg →
       get_abs_times t !! i
       = Some (foldr Z.add 0 (time <$> take (S i) t), set_time 0 msg))
  ∧ (∀ i a msg, get_abs_times t !! i = Some (a, msg) →
       to_relative (get_abs_times t) !! i
       = Some (set_time (a - time_before (get_abs_times t) i) msg)).
Proof.
  intros _. split; [apply to_relative_from_get_abs_times_from|]. split.
  - intros i msg Hi. unfold get_abs_times.
    by rewrite (get_abs_times_from_lookup 0 t i msg Hi).
  - intros i a msg Hi. unfold to_relative.
    rewrite (to_relative_from_lookup 0 _ i a msg Hi). by destruct i.
Qed.

Lemma to_relative_get_abs_times_witness :
  let t := [mkMsg 0 (Meta "track_name" None []); mkMsg 120 (NoteOn 0 60 64);
            mkMsg 240 (NoteOff 0 60 0)] in
  to_relative (get_abs_times t) = t.
Proof.
  intros t. apply (to_relative_get_abs_times t).
  repeat constructor; simpl; lia.
Defined.

(** The statement of C5 fails where the input decreases: the call
    returns a track, with a negative delta, and raises nothing. *)
Lemma to_relative_call_unsorted :
  let l := [(10, mkMsg 0 (NoteOn 9 38 100)); (5, mkMsg 0 (NoteOn 9 42 100))] in
  decreases_at l 0
  ∧ to_relative_call l
    = Returned [mkMsg 10 (NoteOn 9 38 100); mkMsg (-5) (NoteOn 9 42 100)]
  ∧ to_relative_call l ≠ Raised OrderingError.
Proof.
  intros l. split; [|split; [reflexivity|discriminate]].
  exists 10, (mkMsg 0 (NoteOn 9 38 100)), 5, (mkMsg 0 (NoteOn 9 42 100)).
  repeat split; simpl; lia.
Qed.

(** C5, amended.  [to_relative] checks nothing and never raises: on
    every input it returns a track of the same length, whose message
    [i] is the input's with the delta time
    [abs_time[i] - abs_time[i-1]] (minus 0 for the first); so wherever
    an absolute time is smaller than its predecessor's, the returned
    track has a negative delta time at that position. *)
Theorem to_relative_call_decreasing (l : list (Z * Msg)) :
  ∃ t : list Msg,
    to_relative_call l = Returned t
    ∧ to_relative_call l ≠ Raised OrderingError
    ∧ length t = length l
    ∧ (∀ i a msg, l !! i = Some (a, msg) →
         t !! i = Some (set_time (a - time_before l i) msg))
    ∧ (∀ i, decreases_at l i →
         ∃ msg, t !! S i = Some msg ∧ time msg < 0).
Proof.
  exists (to_relative l). split; [done|]. split; [done|].
  split; [apply to_relative_from_length|]. split.
  - intros i a msg Hi. unfold to_relative.
    rewrite (to_relative_from_lookup 0 l i a msg Hi). by destruct i.
  - intros i (a & m1 & b & m2 & Hi & HSi & Hlt).
    exists (set_time (b - a) m2). split; [|simpl; lia].
    unfold to_relative. rewrite (to_relative_from_lookup 0 l (S i) b m2 HSi).
    unfold time_before. by rewrite Hi.
Qed.

Lemma to_relative_call_decreasing_witness :
  let l := [(10, mkMsg 0 (NoteOn 9 38 100)); (5, mkMsg 0 (NoteOn 9 42 100))] in
  ∃ t : list Msg,
    to_relative_call l = Returned t
    ∧ length t = 2%nat
    ∧ ∃ msg, t !! 1%nat = Some msg ∧ time msg < 0.
Proof.
  intros l.
  destruct (to_relative_call_decreasing l) as (t & Hret & _ & Hlen & _ & Hneg).
  exists t. split; [done|]. split; [done|]. apply (Hneg 0%nat).
  exists 10, (mkMsg 0 (NoteOn 9 38 100)), 5, (mkMsg 0 (NoteOn 9 42 100)).
  repeat split; simpl; lia.
Defined.

(** A sorted input goes through the same way: nothing is raised on it
    either. *)
Example to_relative_call_sorted :
  to_relative_call [(5, mkMsg 0 (NoteOn 9 42 100));
                    (10, mkMsg 0 (NoteOn 9 38 100))]
  = Returned [mkMsg 5 (NoteOn 9 42 100); mkMsg 5 (NoteOn 9 38 100)].
Proof. reflexivity. Qed.

(** ** Track selector *)

Lemma track_info_from_ascending (k : nat) (tracks : list Track) :
  StronglySorted (λ x y, (index x < index y)%nat)
    (imap (λ i track,
             {| index := k + i; track := track;
                events := count_track_events track;
                channel := get_track_channel track;
                old_channel := None; moved_from := None;
                swapped_from := None; is_bass := false |}) tracks).
Proof.
  revert k; induction tracks as [|tr tracks IH]; intros k; simpl.
  - constructor.
  - constructor.
    + erewrite imap_ext; [apply (IH (S k))|].
      intros i x _. simpl. f_equal. lia.
    + apply Forall_forall. intros y Hy.
      apply elem_of_lookup_imap in Hy as (i & x & -> & _). simpl. lia.
Qed.

Lemma track_info_ascending (tracks : list Track) :
  StronglySorted (λ x y, (index x < index y)%nat) (track_info tracks).
Proof. apply (track_info_from_ascending 0). Qed.

Lemma StronglySorted_filter {A : Type} (R : A → A → Prop) (p : A → bool)
  (l : list A) :
  StronglySorted R l → StronglySorted R (List.filter p l).
Proof.
  induction 1 as [|x l Hl IH Hx]; simpl; [constructor|].
  destruct (p x); [|done]. constructor; [done|].
  apply List.Forall_forall. intros y Hy.
  apply List.filter_In in Hy as [Hy _].
  by eapply List.Forall_forall in Hx.
Qed.

Lemma sort_insert_ranked (x : TrackInfo) (s : list TrackInfo) :
  StronglySorted ranks_before s →
  Forall (λ y, (index x < index y)%nat) s →
  StronglySorted ranks_before (sort_insert events true x s).
Proof.
  induction 1 as [|y s Hs IH Hy]; intros Hx; simpl.
  - repeat constructor.
  - apply Forall_cons in Hx as [Hxy Hx].
    change (key_le events true x y) with (events y <=? events x).
    destruct (events y <=? events x) eqn:Hle.
    + constructor; [by constructor|].
      constructor; [unfold ranks_before; lia|].
      rewrite Forall_forall in Hy, Hx |- *. intros z Hz.
      specialize (Hy z Hz). specialize (Hx z Hz).
      unfold ranks_before in *. lia.
    + constructor; [by apply IH|].
      rewrite sort_insert_perm. constructor; [|done].
      unfold ranks_before. lia.
Qed.

Lemma py_sort_ranked (l : list TrackInfo) :
  StronglySorted (λ x y, (index x < index y)%nat) l →
  StronglySorted ranks_before (py_sort events true l).
Proof.
  induction 1 as [|x l Hl IH Hx]; simpl; [constructor|].
  apply sort_insert_ranked; [done|]. by rewrite py_sort_perm.
Qed.

(** C6.  The selection made from the tracks of a file: the tracks kept
    are the first [max_tracks] of the ranked list; the ranked list
    holds exactly the tracks with at least [min_events] events; it is
    ordered by event count descending with ties by ascending original
    index; and it is the only arrangement of those tracks in that
    order, so the result depends on nothing but the input and the
    thresholds.  The count reported is the number of tracks removed. *)
Theorem select_top_tracks_deterministic
  (min_events : Z) (max_tracks : nat) (tracks : list Track) :
  let infos := track_info tracks in
  let ranked := py_sort events true (substantial_tracks min_events infos) in
  (select_top_tracks min_events max_tracks infos).1 = take max_tracks ranked
  ∧ ranked ≡ₚ List.filter (λ t, min_events <=? events t) infos
  ∧ (∀ t, t ∈ ranked ↔ t ∈ infos ∧ min_events ≤ events t)
  ∧ StronglySorted ranks_before ranked
  ∧ (∀ l', l' ≡ₚ ranked → StronglySorted ranks_before l' → l' = ranked)
  ∧ (select_top_tracks min_events max_tracks infos).2
    = Z.of_nat (length (List.filter (λ t, events t <? min_events) infos)).
Proof.
  intros infos ranked.
  assert (Hperm : ranked ≡ₚ List.filter (λ t, min_events <=? events t) infos)
    by apply py_sort_perm.
  assert (Hsorted : StronglySorted ranks_before ranked).
  { apply py_sort_ranked, StronglySorted_filter, track_info_ascending. }
  split; [done|]. split; [done|]. split.
  { intros t. rewrite Hperm, !list_elem_of_In, List.filter_In. 
    rewrite Z.leb_le. done. }
  split; [done|]. split.
  - intros l' Hl' Hs'.
    apply (StronglySorted_unique_strong ranks_before); try done.
    unfold ranks_before. intros; exfalso; lia.
  - simpl. unfold substantial_tracks.
    generalize infos. clear. intros l.
    induction l as [|t l IH]; simpl; [done|].
    destruct (min_events <=? events t) eqn:H1,
             (events t <? min_events) eqn:H2; simpl length; lia.
Qed.

(** ** Channel standardizer *)

Lemma new_melodic_channel (idx : Z) :
  nth (Z.to_nat (idx mod Z.of_nat (length melodic_channels)))
      melodic_channels 0
  = idx mod 4.
Proof.
  change (Z.of_nat (length melodic_channels)) with 4.
  pose proof (Z.mod_pos_bound idx 4 eq_refl) as Hr.
  set (r := idx mod 4) in *.
  assert (r = 0 ∨ r = 1 ∨ r = 2 ∨ r = 3) as Hcases by lia.
  destruct Hcases as [Hc|[Hc|[Hc|Hc]]]; rewrite Hc; reflexivity.
Qed.

Lemma py_in_melodic (c : Z) :
  py_in c melodic_channels = true ↔ c ∈ melodic_channels.
Proof.
  unfold py_in. rewrite existsb_exists. split.
  - intros (x & Hx & Heq). apply Z.eqb_eq in Heq. subst.
    by apply list_elem_of_In.
  - intros Hc. exists c. split; [by apply list_elem_of_In|lia].
Qed.

Lemma elem_of_melodic_channels (c : Z) :
  c ∈ melodic_channels ↔ 0 ≤ c ≤ 3.
Proof.
  unfold melodic_channels. rewrite !elem_of_cons, elem_of_nil. lia.
Qed.

Lemma standardize_drums_id (tracks : list TrackInfo) :
  standardize_drums (List.filter (λ t, channel t =? 9) tracks)
  = List.filter (λ t, channel t =? 9) tracks.
Proof.
  unfold standardize_drums.
  induction tracks as [|t tracks IH]; simpl; [done|].
  destruct (channel t =? 9) eqn:H9; simpl; [|done].
  by rewrite H9, IH.
Qed.

Lemma standardize_melodic_cons (k : Z) (t : TrackInfo)
  (ms : list TrackInfo) :
  standardize_melodic k (t :: ms)
  = (if negb (py_in (channel t) melodic_channels) || (channel t =? 999)
     then remap (k mod 4) t else t) :: standardize_melodic (k + 1) ms.
Proof. cbn [standardize_melodic]. by rewrite new_melodic_channel. Qed.


Lemma standardize_melodic_length (k : Z) (ms : list TrackInfo) :
  length (standardize_melodic k ms) = length ms.
Proof.
  revert k; induction ms as [|t ms IH]; intros k; [done|].
  rewrite standardize_melodic_cons. simpl. by rewrite IH.
Qed.

Lemma standardize_melodic_channel (k : Z) (ms : list TrackInfo) :
  Forall2 (λ t t', index t' = index t ∧ events t' = events t
                   ∧ channel t' ∈ melodic_channels)
          ms (standardize_melodic k ms).
Proof.
  revert k; induction ms as [|t ms IH]; intros k; [constructor|].
  rewrite standardize_melodic_cons. constructor; [|done].
  pose proof (Z.mod_pos_bound k 4 eq_refl).
  destruct (py_in (channel t) melodic_channels) eqn:Hin; simpl.
  - destruct (channel t =? 999) eqn:H999; simpl.
    + repeat split. apply elem_of_melodic_channels. lia.
    + repeat split. by apply py_in_melodic.
  - repeat split. apply elem_of_melodic_channels. lia.
Qed.

(** C4.  [standardize_channels] returns the percussion tracks (those
    that came in on channel 9), untouched and on channel 9, followed by
    one track per melodic input track (any other channel, 999
    included), in order, each now on a channel of {0,1,2,3}. *)
Theorem standardize_channels_invariant (tracks : list TrackInfo) :
  ∃ drums melodic,
    standardize_channels tracks = drums ++ melodic
    ∧ drums = List.filter (λ t, channel t =? 9) tracks
    ∧ Forall (λ t, channel t = 9) drums
    ∧ Forall2 (λ t t', index t' = index t ∧ events t' = events t
                       ∧ channel t' ∈ melodic_channels)
              (List.filter (λ t, negb (channel t =? 9)) tracks) melodic.
Proof.
  exists (List.filter (λ t, channel t =? 9) tracks),
         (standardize_melodic 0
            (List.filter (λ t, negb (channel t =? 9)) tracks)).
  split; [|split; [done|split]].
  - unfold standardize_channels. by rewrite standardize_drums_id.
  - apply List.Forall_forall. intros t Ht.
    apply List.filter_In in Ht as [_ Ht]. lia.
  - apply standardize_melodic_channel.
Qed.

(** A meta-only track (no-channel value 999) between a track on
    channel 2 and a drum track: the drum track comes first, channel 2
    is kept, and the meta-only track is given the channel of its
    position, 1. *)
Example standardize_channels_no_channel :
  channel <$> standardize_channels
    (track_info [[mkMsg 0 (NoteOn 2 60 100)];
                 [mkMsg 0 (Meta "track_name" None [])];
                 [mkMsg 0 (NoteOn 9 36 100)]])
  = [9; 2; 1].
Proof. reflexivity. Qed.

(** ** Bass relocator *)

Lemma is_note_on_set_channel (c : Z) (msg : Msg) :
  is_note_on (set_channel c msg) = is_note_on msg.
Proof. by destruct msg as [? [| | | | | |? []]]. Qed.

Lemma msg_note_set_channel (c : Z) (msg : Msg) :
  msg_note (set_channel c msg) = msg_note msg.
Proof. by destruct msg as [? [| | | | | |? []]]. Qed.

Lemma count_if_map {A B : Type} (p : B → bool) (f : A → B) (l : list A) :
  count_if p (map f l) = count_if (λ x, p (f x)) l.
Proof. induction l as [|x l IH]; simpl; [done|]. by rewrite IH. Qed.

Lemma count_if_ext {A : Type} (p q : A → bool) (l : list A) :
  (∀ x, p x = q x) → count_if p l = count_if q l.
Proof. intros E. induction l as [|x l IH]; simpl; [done|]. by rewrite E, IH. Qed.

Lemma total_notes_set_channel (c : Z) (tr : Track) :
  total_notes (map (set_channel c) tr) = total_notes tr.
Proof.
  unfold total_notes. rewrite count_if_map.
  apply count_if_ext, is_note_on_set_channel.
Qed.

Lemma bass_count_set_channel (c : Z) (tr : Track) :
  bass_count (map (set_channel c) tr) = bass_count tr.
Proof.
  unfold bass_count. rewrite count_if_map. apply count_if_ext.
  intros msg. by rewrite is_note_on_set_channel, msg_note_set_channel.
Qed.

(** The candidate the loop ends with is the one it started with or a
    track of the list that is not skipped. *)
Lemma scan_bass_found (k : nat) (ts : list TrackInfo)
  (st : option (nat * TrackInfo) * Z) (i : nat) (t : TrackInfo) :
  (scan_bass k ts st).1 = Some (i, t) →
  st.1 = Some (i, t)
  ∨ ((k ≤ i)%nat ∧ ts !! (i - k)%nat = Some t ∧ skipped t = false).
Proof.
  revert k st; induction ts as [|t0 ts IH]; intros k st Hscan; [by left|].
  cbn [scan_bass] in Hscan. apply IH in Hscan as [Hst|(Hle & Hi & Hsk)].
  - destruct (skipped t0) eqn:Hs0; [by left|].
    destruct ((0 <? total_notes (track t0))
              && mostly_bass (bass_count (track t0)) (total_notes (track t0))
              && (st.2 <? bass_count (track t0))); [|by left].
    simpl in Hst. inversion Hst; subst. right.
    split; [lia|]. by rewrite Nat.sub_diag.
  - right. split; [lia|]. split; [|done].
    replace (i - k)%nat with (S (i - S k)) by lia. done.
Qed.

(** The index the loop ends with depends only on what it reads. *)
Lemma scan_bass_same_view (k : nat) (ts ts' : list TrackInfo)
  (st st' : option (nat * TrackInfo) * Z) :
  Forall2 same_view ts ts' →
  fst <$> st.1 = fst <$> st'.1 → st.2 = st'.2 →
  fst <$> (scan_bass k ts st).1 = fst <$> (scan_bass k ts' st').1.
Proof.
  intros Hts; revert k st st'.
  induction Hts as [|t t' ts ts' (Hs & Hb & Hn) _ IH]; intros k st st' H1 H2;
    [done|].
  cbn [scan_bass]. rewrite <- Hs, <- Hb, <- Hn, <- H2.
  apply IH.
  - destruct (skipped t); [done|].
    by destruct ((0 <? total_notes (track t))
                 && mostly_bass (bass_count (track t)) (total_notes (track t))
                 && (st.2 <? bass_count (track t))).
  - destruct (skipped t); [done|].
    by destruct ((0 <? total_notes (track t))
                 && mostly_bass (bass_count (track t)) (total_notes (track t))
                 && (st.2 <? bass_count (track t))).
Qed.

Lemma scan_bass_0_found (ts : list TrackInfo) (b : nat) (t : TrackInfo) :
  (scan_bass 0 ts (None, 0)).1 = Some (b, t) →
  ts !! b = Some t ∧ skipped t = false.
Proof.
  intros H. apply scan_bass_found in H as [H|(_ & H & Hs)]; [done|].
  by rewrite Nat.sub_0_r in H.
Qed.

(** The occupant found is the first track on channel 1 other than the
    bass track. *)
Lemma find_channel_1_Some (k b : nat) (ts : list TrackInfo)
  (j : nat) (c : TrackInfo) :
  find_channel_1 k b ts = Some (j, c) →
  (k ≤ j)%nat ∧ ts !! (j - k)%nat = Some c ∧ channel c = 1 ∧ j ≠ b
  ∧ ∀ i t, (i < j - k)%nat → (k + i)%nat ≠ b → ts !! i = Some t →
           channel t ≠ 1.
Proof.
  revert k; induction ts as [|t0 ts IH]; intros k Hf; [done|].
  cbn [find_channel_1] in Hf.
  destruct ((channel t0 =? 1) && negb (k =? b)%nat) eqn:Hhit.
  - inversion Hf; subst. apply andb_true_iff in Hhit as [Hc Hk].
    apply negb_true_iff, Nat.eqb_neq in Hk.
    rewrite Nat.sub_diag. repeat split; try done; try lia.
  - apply IH in Hf as (Hle & Hj & Hc & Hjb & Hfirst).
    split; [lia|]. split.
    { replace (j - k)%nat with (S (j - S k)) by lia. done. }
    split; [done|]. split; [done|].
    intros i t Hi Hne Hlk. destruct i as [|i].
    + inversion Hlk; subst. apply andb_false_iff in Hhit as [Hc'|Hk]; [lia|].
      apply negb_false_iff, Nat.eqb_eq in Hk. lia.
    + apply (Hfirst i t); [lia|lia|done].
Qed.

Lemma find_channel_1_None (k b : nat) (ts : list TrackInfo) :
  find_channel_1 k b ts = None →
  ∀ i t, ts !! i = Some t → (k + i)%nat ≠ b → channel t ≠ 1.
Proof.
  revert k; induction ts as [|t0 ts IH]; intros k Hf i t Hi Hne; [done|].
  cbn [find_channel_1] in Hf.
  destruct ((channel t0 =? 1) && negb (k =? b)%nat) eqn:Hhit; [done|].
  destruct i as [|i].
  - inversion Hi; subst. apply andb_false_iff in Hhit as [Hc'|Hk]; [lia|].
    apply negb_false_iff, Nat.eqb_eq in Hk. lia.
  - apply (IH (S k) Hf i t); [done|lia].
Qed.

Lemma detect_bass_track_moved (ts : list TrackInfo) (b : nat)
  (bass : TrackInfo) :
  (scan_bass 0 ts (None, 0)).1 = Some (b, bass) → channel bass ≠ 1 →
  detect_bass_track ts
  = match find_channel_1 0 b ts with
    | Some (j, c1) =>
        <[j := swap_out (channel bass) c1]> (<[b := move_bass bass]> ts)
    | None => <[b := move_bass bass]> ts
    end.
Proof.
  intros Hscan Hch. unfold detect_bass_track. rewrite Hscan.
  by destruct (channel bass =? 1) eqn:H1; [lia|].
Qed.

Lemma detect_bass_track_placed (ts : list TrackInfo) (b : nat)
  (bass : TrackInfo) :
  (scan_bass 0 ts (None, 0)).1 = Some (b, bass) → channel bass = 1 →
  detect_bass_track ts = ts.
Proof.
  intros Hscan Hch. unfold detect_bass_track. rewrite Hscan.
  by destruct (channel bass =? 1) eqn:H1; [|lia].
Qed.

Lemma detect_bass_track_none (ts : list TrackInfo) :
  (scan_bass 0 ts (None, 0)).1 = None → detect_bass_track ts = ts.
Proof. intros Hscan. unfold detect_bass_track. by rewrite Hscan. Qed.

Lemma same_view_refl (ts : list TrackInfo) : Forall2 same_view ts ts.
Proof. induction ts; constructor; [done|done]. Qed.

Lemma same_view_insert (ts ts' : list TrackInfo) (i : nat)
  (t y : TrackInfo) :
  Forall2 same_view ts ts' → ts !! i = Some t → same_view t y →
  Forall2 same_view ts (<[i := y]> ts').
Proof.
  intros Hts Hi Hty. rewrite <- (list_insert_id ts i t Hi).
  by apply Forall2_insert.
Qed.

Lemma same_view_move_bass (t : TrackInfo) :
  skipped t = false → same_view t (move_bass t).
Proof.
  intros Hs. unfold same_view. simpl.
  by rewrite bass_count_set_channel, total_notes_set_channel.
Qed.

Lemma same_view_swap_out (old_ch : Z) (c1 : TrackInfo) :
  channel c1 = 1 → (old_ch =? 9) || (old_ch =? 999) = false →
  same_view c1 (swap_out old_ch c1).
Proof.
  intros Hc Hold. unfold same_view, skipped. simpl.
  rewrite bass_count_set_channel, total_notes_set_channel, Hc, Hold.
  done.
Qed.

(** Relocation changes nothing the analysis loop reads. *)
Lemma detect_bass_track_same_view (ts : list TrackInfo) :
  Forall2 same_view ts (detect_bass_track ts).
Proof.
  destruct (scan_bass 0 ts (None, 0)).1 as [[b bass]|] eqn:Hscan.
  - destruct (scan_bass_0_found _ _ _ Hscan) as [Hb Hskip].
    destruct (decide (channel bass = 1)) as [H1|H1].
    { rewrite (detect_bass_track_placed _ _ _ Hscan H1).
      apply same_view_refl. }
    rewrite (detect_bass_track_moved _ _ _ Hscan H1).
    assert (Forall2 same_view ts (<[b := move_bass bass]> ts)) as Hmove.
    { eapply same_view_insert; [apply same_view_refl|done|].
      by apply same_view_move_bass. }
    destruct (find_channel_1 0 b ts) as [[j c1]|] eqn:Hfind; [|done].
    apply find_channel_1_Some in Hfind as (_ & Hj & Hc1 & _).
    rewrite Nat.sub_0_r in Hj.
    eapply same_view_insert; [done|done|].
    by apply same_view_swap_out.
  - rewrite (detect_bass_track_none _ Hscan). apply same_view_refl.
Qed.

(** After relocation the candidate is on channel 1. *)
Lemma detect_bass_track_lookup_bass (ts : list TrackInfo) (b : nat)
  (bass : TrackInfo) :
  (scan_bass 0 ts (None, 0)).1 = Some (b, bass) → channel bass ≠ 1 →
  detect_bass_track ts !! b = Some (move_bass bass).
Proof.
  intros Hscan H1. rewrite (detect_bass_track_moved _ _ _ Hscan H1).
  destruct (scan_bass_0_found _ _ _ Hscan) as [Hb _].
  apply lookup_lt_Some in Hb.
  destruct (find_channel_1 0 b ts) as [[j c1]|] eqn:Hfind.
  - apply find_channel_1_Some in Hfind as (_ & _ & _ & Hjb & _).
    rewrite list_lookup_insert_ne by done.
    by apply list_lookup_insert_eq.
  - by apply list_lookup_insert_eq.
Qed.

(** C8.  [detect_bass_track] is idempotent: applied to its own output
    it returns that output as it is, every message and every
    annotation included, the candidate being on channel 1 by then. *)
Theorem detect_bass_track_idempotent (ts : list TrackInfo) :
  detect_bass_track (detect_bass_track ts) = detect_bass_track ts.
Proof.
  destruct (scan_bass 0 ts (None, 0)).1 as [[b bass]|] eqn:Hscan.
  - destruct (decide (channel bass = 1)) as [H1|H1].
    { by rewrite !(detect_bass_track_placed _ _ _ Hscan H1). }
    pose proof (scan_bass_same_view 0 ts (detect_bass_track ts)
                  (None, 0) (None, 0) (detect_bass_track_same_view ts)
                  eq_refl eq_refl) as Hidx.
    rewrite Hscan in Hidx. simpl in Hidx.
    destruct (scan_bass 0 (detect_bass_track ts) (None, 0)).1
      as [[b' bass']|] eqn:Hscan'; [|done].
    simpl in Hidx. inversion Hidx; subst b'.
    destruct (scan_bass_0_found _ _ _ Hscan') as [Hb' _].
    rewrite (detect_bass_track_lookup_bass _ _ _ Hscan H1) in Hb'.
    inversion Hb'; subst bass'.
    by apply (detect_bass_track_placed _ _ _ Hscan').
  - by rewrite !(detect_bass_track_none _ Hscan).
Qed.

Lemma msg_channel_set_channel (c c' : Z) (msg : Msg) :
  msg_channel (set_channel c msg) = Some c' → c' = c.
Proof.
  destruct msg as [? [| | | | | |? []]]; simpl; intros H; by inversion H.
Qed.

Lemma uniform_set_channel (c : Z) (tr : Track) (msg : Msg) (c' : Z) :
  msg ∈ map (set_channel c) tr → msg_channel msg = Some c' → c' = c.
Proof.
  intros Hin Hc. apply list_elem_of_In, in_map_iff in Hin as (m & <- & _).
  by apply msg_channel_set_channel in Hc.
Qed.

(** C10.  When the bass candidate is not on channel 1 and some other
    track is, the candidate is moved to channel 1 (its messages that
    carry a channel included) and only the first such track in list
    order is swapped: it is put, messages included, on the candidate's
    former channel and so leaves channel 1.  Every other track is
    returned as it was, so a further track on channel 1 stays there
    and shares channel 1 with the bass track. *)
Theorem detect_bass_track_swaps_first (ts : list TrackInfo) (b : nat)
  (bass : TrackInfo) :
  (scan_bass 0 ts (None, 0)).1 = Some (b, bass) →
  channel bass ≠ 1 →
  (∃ k t, k ≠ b ∧ ts !! k = Some t ∧ channel t = 1) →
  ∃ j c1 t_b t_j,
    ts !! j = Some c1 ∧ channel c1 = 1 ∧ j ≠ b
    ∧ (∀ i t, (i < j)%nat → i ≠ b → ts !! i = Some t → channel t ≠ 1)
    ∧ length (detect_bass_track ts) = length ts
    ∧ detect_bass_track ts !! b = Some t_b
    ∧ t_b = {| index := index bass;
               track := map (set_channel 1) (track bass);
               events := events bass; channel := 1;
               old_channel := old_channel bass;
               moved_from := Some (channel bass);
               swapped_from := swapped_from bass; is_bass := true |}
    ∧ uniform t_b
    ∧ detect_bass_track ts !! j = Some t_j
    ∧ t_j = {| index := index c1;
               track := map (set_channel (channel bass)) (track c1);
               events := events c1; channel := channel bass;
               old_channel := old_channel c1;
               moved_from := moved_from c1;
               swapped_from := Some 1; is_bass := is_bass c1 |}
    ∧ uniform t_j
    ∧ channel t_j ≠ 1
    ∧ (∀ i, i ≠ b → i ≠ j → detect_bass_track ts !! i = ts !! i)
    ∧ (∀ i t, i ≠ b → i ≠ j → ts !! i = Some t → channel t = 1 →
         detect_bass_track ts !! i = Some t ∧ channel t_b = channel t).
Proof.
  intros Hscan H1 (k & t & Hkb & Hk & Hkc).
  pose proof (detect_bass_track_lookup_bass _ _ _ Hscan H1) as Hbass.
  pose proof (detect_bass_track_moved _ _ _ Hscan H1) as Hout.
  destruct (find_channel_1 0 b ts) as [[j c1]|] eqn:Hfind.
  - apply find_channel_1_Some in Hfind as (_ & Hj & Hc1 & Hjb & Hfirst).
    rewrite Nat.sub_0_r in Hj, Hfirst.
    assert (Hrest : ∀ i, i ≠ b → i ≠ j → detect_bass_track ts !! i = ts !! i).
    { intros i Hib Hij. rewrite Hout.
      by rewrite !list_lookup_insert_ne by done. }
    exists j, c1, (move_bass bass), (swap_out (channel bass) c1).
    split; [done|]. split; [done|]. split; [done|].
    split; [intros i t' Hi Hib; by apply Hfirst|].
    split; [by rewrite Hout, !length_insert|].
    split; [done|]. split; [done|].
    split; [intros msg c; apply uniform_set_channel|].
    split.
    { rewrite Hout. apply list_lookup_insert_eq.
      rewrite length_insert. by apply lookup_lt_Some in Hj. }
    split; [done|].
    split; [intros msg c; apply uniform_set_channel|].
    split; [done|]. split; [done|].
    intros i t' Hib Hij Hi Hc. split; [by rewrite Hrest|by rewrite Hc].
  - exfalso. by apply (find_channel_1_None _ _ _ Hfind k t Hk).
Qed.

Lemma detect_bass_track_swaps_first_witness :
  let t0 := mkTrackInfo 0 [mkMsg 0 (NoteOn 0 40 100)] 1 0 None None None false in
  let t1 := mkTrackInfo 1 [mkMsg 0 (NoteOn 1 60 100)] 1 1 None None None false in
  let t2 := mkTrackInfo 2 [mkMsg 0 (NoteOn 1 64 100)] 1 1 None None None false in
  let ts := [t0; t1; t2] in
  ∃ j c1 t_b t_j,
    ts !! j = Some c1 ∧ channel c1 = 1 ∧ j ≠ 0%nat
    ∧ (∀ i t, (i < j)%nat → i ≠ 0%nat → ts !! i = Some t → channel t ≠ 1)
    ∧ length (detect_bass_track ts) = length ts
    ∧ detect_bass_track ts !! 0%nat = Some t_b
    ∧ t_b = {| index := index t0;
               track := map (set_channel 1) (track t0);
               events := events t0; channel := 1;
               old_channel := old_channel t0;
               moved_from := Some (channel t0);
               swapped_from := swapped_from t0; is_bass := true |}
    ∧ uniform t_b
    ∧ detect_bass_track ts !! j = Some t_j
    ∧ t_j = {| index := index c1;
               track := map (set_channel (channel t0)) (track c1);
               events := events c1; channel := channel t0;
               old_channel := old_channel c1;
               moved_from := moved_from c1;
               swapped_from := Some 1; is_bass := is_bass c1 |}
    ∧ uniform t_j
    ∧ channel t_j ≠ 1
    ∧ (∀ i, i ≠ 0%nat → i ≠ j → detect_bass_track ts !! i = ts !! i)
    ∧ (∀ i t, i ≠ 0%nat → i ≠ j → ts !! i = Some t → channel t = 1 →
         detect_bass_track ts !! i = Some t ∧ channel t_b = channel t).
Proof.
  intros t0 t1 t2 ts.
  apply (detect_bass_track_swaps_first ts 0 t0).
  - reflexivity.
  - simpl; lia.
  - exists 2%nat, t2. repeat split; simpl; lia.
Defined.

(** The three-track selection above, evaluated: the bass track goes to
    channel 1, the first occupant takes channel 0, the second occupant
    stays on channel 1. *)
Example detect_bass_track_shared_channel :
  detect_bass_track
    [mkTrackInfo 0 [mkMsg 0 (NoteOn 0 40 100)] 1 0 None None None false;
     mkTrackInfo 1 [mkMsg 0 (NoteOn 1 60 100)] 1 1 None None None false;
     mkTrackInfo 2 [mkMsg 0 (NoteOn 1 64 100)] 1 1 None None None false]
  = [mkTrackInfo 0 [mkMsg 0 (NoteOn 1 40 100)] 1 1 None (Some 0) None true;
     mkTrackInfo 1 [mkMsg 0 (NoteOn 0 60 100)] 1 0 None None (Some 1) false;
     mkTrackInfo 2 [mkMsg 0 (NoteOn 1 64 100)] 1 1 None None None false].
Proof. reflexivity. Qed.

(** ** Reassignment: standardizer followed by bass relocator *)

Lemma uniform_remap (c : Z) (t : TrackInfo) : uniform (remap c t).
Proof. intros msg c'. apply uniform_set_channel. Qed.

Lemma uniform_move_bass (t : TrackInfo) : uniform (move_bass t).
Proof. intros msg c'. apply uniform_set_channel. Qed.

Lemma uniform_swap_out (old_ch : Z) (t : TrackInfo) :
  uniform (swap_out old_ch t).
Proof. intros msg c'. apply uniform_set_channel. Qed.

Lemma standardize_melodic_uniform (k : Z) (ms : list TrackInfo) :
  Forall uniform ms → Forall uniform (standardize_melodic k ms).
Proof.
  intros Hms; revert k; induction Hms as [|t ms Ht _ IH]; intros k;
    [constructor|].
  rewrite standardize_melodic_cons. constructor; [|done].
  destruct (negb (py_in (channel t) melodic_channels) || (channel t =? 999));
    [apply uniform_remap|done].
Qed.

Lemma Forall_List_filter {A : Type} (P : A → Prop) (p : A → bool)
  (l : list A) :
  Forall P l → Forall P (List.filter p l).
Proof.
  rewrite !Forall_forall. intros H x Hx. apply H.
  apply list_elem_of_In in Hx. apply List.filter_In in Hx as [Hx _].
  by apply list_elem_of_In.
Qed.

Lemma standardize_channels_uniform (tracks : list TrackInfo) :
  Forall uniform tracks → Forall uniform (standardize_channels tracks).
Proof.
  intros H. unfold standardize_channels. rewrite standardize_drums_id.
  apply Forall_app. split.
  - by apply Forall_List_filter.
  - by apply standardize_melodic_uniform, Forall_List_filter.
Qed.

Lemma detect_bass_track_uniform (ts : list TrackInfo) :
  Forall uniform ts → Forall uniform (detect_bass_track ts).
Proof.
  intros H.
  destruct (scan_bass 0 ts (None, 0)).1 as [[b bass]|] eqn:Hscan.
  - destruct (decide (channel bass = 1)) as [H1|H1].
    { by rewrite (detect_bass_track_placed _ _ _ Hscan H1). }
    rewrite (detect_bass_track_moved _ _ _ Hscan H1).
    destruct (find_channel_1 0 b ts) as [[j c1]|].
    + apply Forall_insert; [|apply uniform_swap_out].
      apply Forall_insert; [done|apply uniform_move_bass].
    + apply Forall_insert; [done|apply uniform_move_bass].
  - by rewrite (detect_bass_track_none _ Hscan).
Qed.






(** The cursor of the melodic loop also moves past tracks it leaves
    alone: with tracks on channels 0, 7, 1 and 8 the second track is
    put on channel 1, which the third track holds and keeps. *)
Example standardize_channels_cursor :
  channel <$> process_tracks 1 5
    [[mkMsg 0 (NoteOn 0 60 100)]; [mkMsg 0 (NoteOn 7 60 100)];
     [mkMsg 0 (NoteOn 1 60 100)]; [mkMsg 0 (NoteOn 8 60 100)]]
  = [0; 1; 1; 3].
Proof. reflexivity. Qed.










(** A track with messages on channels 0 and 5 is recorded on channel 0
    and is not rewritten; the track on channel 7 beside it is, and
    ends with one active channel. *)
Example reassign_channels_mixed :
  map (λ t, (channel t, track t))
      (process_tracks 1 5
         [[mkMsg 0 (NoteOn 0 60 100); mkMsg 0 (NoteOn 5 64 100)];
          [mkMsg 0 (NoteOn 7 67 100)]])
  = [(0, [mkMsg 0 (NoteOn 0 60 100); mkMsg 0 (NoteOn 5 64 100)]);
     (1, [mkMsg 0 (NoteOn 1 67 100)])].
Proof. reflexivity. Qed.

(** The selection of the witness, evaluated: percussion first, then the
    melodic tracks on 0, 1, 2, with the bass track (from channel 7)
    swapped onto channel 1. *)
Example reassign_channels_example :
  channel <$> process_tracks 1 5
    [[mkMsg 0 (NoteOn 9 36 100)]; [mkMsg 0 (NoteOn 7 40 100)];
     [mkMsg 0 (NoteOn 5 60 100)]; [mkMsg 0 (NoteOn 8 64 100)]]
  = [9; 1; 0; 2].
Proof. reflexivity. Qed.

(** ** Channel splitter *)

Lemma py_index_in_range (c : Z) (n : nat) :
  0 ≤ c < Z.of_nat n → py_index c n = Some (Z.to_nat c).
Proof.
  intros Hc. unfold py_index.
  destruct ((0 <=? c) && (c <? Z.of_nat n)) eqn:H; [done|]. lia.
Qed.

Lemma bucket_of_cons_in (i : nat) (e : Z * Msg) (abs : list (Z * Msg)) :
  in_bucket i e = true → bucket_of i (e :: abs) = e :: bucket_of i abs.
Proof. intros H. unfold bucket_of. cbn [List.filter]. by rewrite H. Qed.

Lemma bucket_of_cons_out (i : nat) (e : Z * Msg) (abs : list (Z * Msg)) :
  in_bucket i e = false → bucket_of i (e :: abs) = bucket_of i abs.
Proof. intros H. unfold bucket_of. cbn [List.filter]. by rewrite H. Qed.

Lemma in_bucket_channel (i : nat) (t : Z) (msg : Msg) (c : Z) :
  is_meta msg = false → msg_channel msg = Some c →
  in_bucket i (t, set_time 0 msg) = bool_decide (c = Z.of_nat i).
Proof.
  intros Hm Hc. unfold in_bucket. simpl.
  change (is_meta (set_time 0 msg)) with (is_meta msg).
  change (msg_channel (set_time 0 msg)) with (msg_channel msg).
  rewrite Hm, Hc. simpl.
  apply bool_decide_ext. split; [by intros [= ->]|by intros ->].
Qed.

Lemma in_bucket_meta (i : nat) (t : Z) (msg : Msg) :
  is_meta msg = true → in_bucket i (t, set_time 0 msg) = false.
Proof.
  intros Hm. unfold in_bucket. simpl.
  change (is_meta (set_time 0 msg)) with (is_meta msg). by rewrite Hm.
Qed.

Lemma in_bucket_no_channel (i : nat) (t : Z) (msg : Msg) :
  msg_channel msg = None → in_bucket i (t, set_time 0 msg) = false.
Proof.
  intros Hc. unfold in_bucket. simpl.
  change (msg_channel (set_time 0 msg)) with (msg_channel msg).
  rewrite Hc. rewrite bool_decide_eq_false_2 by done.
  apply andb_false_r.
Qed.

(** What the loop over the original track returns: every bucket
    extended by the entries of its channel, the meta list by the meta
    entries. *)
Lemma split_loop_returns (current_time : Z)
  (channel_messages : list (list (Z * Msg)))
  (meta_messages : list (Z * Msg)) (original_track : Track) :
  length channel_messages = 16%nat →
  channels_in_range original_track →
  split_loop current_time channel_messages meta_messages original_track
  = Returned
      (imap (λ i b, b ++ bucket_of i
                          (get_abs_times_from current_time original_track))
            channel_messages,
       meta_messages ++ meta_abs current_time original_track).
Proof.
  intros Hlen Hrange. revert current_time channel_messages meta_messages Hlen.
  induction Hrange as [|msg rest Hmsg _ IH];
    intros current_time channel_messages meta_messages Hlen.
  - simpl. f_equal. f_equal; [|by rewrite app_nil_r].
    apply list_eq. intros i. rewrite list_lookup_imap.
    destruct (channel_messages !! i); simpl; [|done].
    by rewrite app_nil_r.
  - cbn [split_loop get_abs_times_from meta_abs].
    destruct (is_meta msg) eqn:Hmeta.
    + rewrite IH by done. f_equal. f_equal; [|by rewrite <- app_assoc].
      apply imap_ext. intros i b _. simpl.
      by rewrite bucket_of_cons_out by by apply in_bucket_meta.
    + destruct (msg_channel msg) as [c|] eqn:Hc.
      * specialize (Hmsg eq_refl c eq_refl).
        rewrite py_index_in_range by (rewrite Hlen; simpl; lia).
        rewrite IH by by rewrite length_alter.
        f_equal. f_equal.
        apply list_eq. intros i. rewrite !list_lookup_imap.
        destruct (decide (Z.to_nat c = i)) as [<-|Hne].
        -- rewrite list_lookup_alter_eq.
           destruct (channel_messages !! Z.to_nat c); simpl; [|done].
           rewrite bucket_of_cons_in.
           ++ by rewrite <- app_assoc.
           ++ rewrite (in_bucket_channel _ _ _ c) by done.
              apply bool_decide_eq_true. lia.
        -- rewrite list_lookup_alter_ne by done.
           destruct (channel_messages !! i); simpl; [|done].
           rewrite bucket_of_cons_out; [done|].
           rewrite (in_bucket_channel _ _ _ c) by done.
           apply bool_decide_eq_false. lia.
      * rewrite IH by done. f_equal. f_equal.
        apply imap_ext. intros i b _. simpl.
        by rewrite bucket_of_cons_out by by apply in_bucket_no_channel.
Qed.

Lemma to_relative_from_retimed (a x : Z) (l : list (Z * Msg)) :
  to_relative_from a (map (λ e, (e.1, set_time x e.2)) l)
  = to_relative_from a l.
Proof.
  revert a; induction l as [|[t msg] l IH]; intros a; simpl; [done|].
  by rewrite IH.
Qed.

Lemma meta_abs_meta_of (current_time : Z) (original_track : Track) :
  map (λ e, (e.1, set_time 0 e.2)) (meta_abs current_time original_track)
  = meta_of (get_abs_times_from current_time original_track).
Proof.
  revert current_time; induction original_track as [|msg rest IH];
    intros current_time; [done|].
  unfold meta_of in *. cbn [meta_abs get_abs_times_from List.filter].
  change (is_meta (current_time + time msg, set_time 0 msg).2)
    with (is_meta msg).
  destruct (is_meta msg); simpl; by rewrite IH.
Qed.

Lemma meta_tracks_meta_abs (original_track : Track) :
  meta_tracks (meta_abs 0 original_track)
  = meta_track_of (get_abs_times original_track).
Proof.
  unfold meta_track_of, get_abs_times, to_relative.
  rewrite <- meta_abs_meta_of.
  destruct (meta_abs 0 original_track) as [|e l] eqn:E; [done|].
  cbn [meta_tracks map]. unfold to_relative.
  change ((e.1, set_time 0 e.2) :: map (λ e, (e.1, set_time 0 e.2)) l)
    with (map (λ e, (e.1, set_time 0 e.2)) (e :: l)).
  by rewrite to_relative_from_retimed.
Qed.

Lemma channel_tracks_flat_map (channel_messages : list (list (Z * Msg))) :
  channel_tracks channel_messages
  = flat_map (λ bucket, match bucket with
                        | [] => []
                        | _ => [channel_track bucket]
                        end) channel_messages.
Proof.
  induction channel_messages as [|[|e b] l IH]; simpl; [done|done|].
  by rewrite IH.
Qed.

Lemma flat_map_map {A B C : Type} (f : B → list C) (g : A → B)
  (l : list A) :
  flat_map f (map g l) = flat_map (λ x, f (g x)) l.
Proof. induction l as [|x l IH]; simpl; [done|]. by rewrite IH. Qed.

Lemma channel_tracks_buckets (abs : list (Z * Msg)) :
  channel_tracks (imap (λ i b, b ++ bucket_of i abs) (replicate 16 []))
  = flat_map (tracks_of_channel abs) (seq 0 16).
Proof.
  rewrite channel_tracks_flat_map.
  change (imap (λ i b, b ++ bucket_of i abs) (replicate 16 []))
    with (map (λ i, bucket_of i abs) (seq 0 16)).
  rewrite flat_map_map. apply flat_map_ext. intros i.
  unfold tracks_of_channel, channel_track.
  by destruct (bucket_of i abs).
Qed.

(** The output of the splitter in closed form. *)
Lemma convert_type0_to_type1_returns (mid : MidiFile)
  (original_track : Track) (others : list Track) :
  tracks mid = original_track :: others →
  channels_in_range original_track →
  convert_type0_to_type1 mid
  = Returned
      {| type := 1; ticks_per_beat := ticks_per_beat mid;
         tracks := meta_track_of (get_abs_times original_track)
                   ++ flat_map (tracks_of_channel
                                  (get_abs_times original_track))
                               (seq 0 16) |}.
Proof.
  intros Htracks Hrange. unfold convert_type0_to_type1. rewrite Htracks.
  rewrite split_loop_returns by done.
  rewrite app_nil_l, meta_tracks_meta_abs.
  by rewrite (channel_tracks_buckets (get_abs_times_from 0 original_track)).
Qed.

Lemma filter_nil_iff {A : Type} (p : A → bool) (l : list A) :
  List.filter p l = [] ↔ ∀ x, x ∈ l → p x = false.
Proof.
  induction l as [|y l IH]; simpl.
  - split; [|done]. intros _ x Hx. by apply elem_of_nil in Hx.
  - destruct (p y) eqn:Hy.
    + split; [done|]. intros H. rewrite H in Hy; [done|]. by left.
    + rewrite IH. split.
      * intros H x Hx. apply elem_of_cons in Hx as [->|Hx]; auto.
      * intros H x Hx. apply H. by right.
Qed.

Lemma get_abs_times_from_elem (a : Z) (tr : Track) (e : Z * Msg) :
  e ∈ get_abs_times_from a tr → ∃ msg, msg ∈ tr ∧ e.2 = set_time 0 msg.
Proof.
  revert a; induction tr as [|m tr IH]; intros a He; simpl in He.
  - by apply elem_of_nil in He.
  - apply elem_of_cons in He as [->|He].
    + exists m. split; [by left|done].
    + destruct (IH _ He) as (msg & Hmsg & Hm). exists msg.
      split; [by right|done].
Qed.

Lemma get_abs_times_from_elem_of (a : Z) (tr : Track) (msg : Msg) :
  msg ∈ tr → ∃ t, (t, set_time 0 msg) ∈ get_abs_times_from a tr.
Proof.
  revert a; induction tr as [|m tr IH]; intros a Hmsg.
  - by apply elem_of_nil in Hmsg.
  - apply elem_of_cons in Hmsg as [->|Hmsg]; simpl.
    + eexists. by left.
    + destruct (IH (a + time m) Hmsg) as [t Ht]. exists t. by right.
Qed.

Lemma elem_of_bucket_of (i : nat) (abs : list (Z * Msg)) (e : Z * Msg) :
  e ∈ bucket_of i abs
  ↔ e ∈ abs ∧ is_meta e.2 = false ∧ msg_channel e.2 = Some (Z.of_nat i).
Proof.
  unfold bucket_of. rewrite !list_elem_of_In, List.filter_In.
  unfold in_bucket. rewrite andb_true_iff, negb_true_iff, bool_decide_eq_true.
  done.
Qed.

(** C7.  For a file whose first (for format 0: only) track is
    [original_track], [convert_type0_to_type1] returns a format-1 file
    with the input's ticks per beat, whose tracks are the meta track
    (present exactly when the original has a meta message), then for
    each channel 0..15 in ascending order that has a message one
    track: the channel's messages followed by an end-of-track of delta
    0.  The function does not read the input's format. *)
Theorem convert_type0_to_type1_layout (mid : MidiFile)
  (original_track : Track) (others : list Track) :
  tracks mid = original_track :: others →
  channels_in_range original_track →
  let abs := get_abs_times original_track in
  ∃ new_mid,
    convert_type0_to_type1 mid = Returned new_mid
    ∧ type new_mid = 1
    ∧ ticks_per_beat new_mid = ticks_per_beat mid
    ∧ tracks new_mid
      = (match meta_of abs with
         | [] => []
         | metas => [to_relative metas]
         end)
        ++ flat_map
             (λ i, match bucket_of i abs with
                   | [] => []
                   | bucket =>
                       [to_relative (py_sort fst false bucket)
                        ++ [end_of_track]]
                   end) (seq 0 16)
    ∧ (meta_of abs = [] ↔ ∀ msg, msg ∈ original_track → is_meta msg = false)
    ∧ (∀ i, bucket_of i abs = []
            ↔ ∀ msg, msg ∈ original_track → is_meta msg = false →
                     msg_channel msg ≠ Some (Z.of_nat i))
    ∧ (∀ i e, e ∈ bucket_of i abs →
              is_meta e.2 = false ∧ msg_channel e.2 = Some (Z.of_nat i))
    ∧ time end_of_track = 0 ∧ is_meta end_of_track = true.
Proof.
  intros Htracks Hrange abs.
  eexists. split;
    [by apply (convert_type0_to_type1_returns mid original_track others)|].
  split; [done|]. split; [done|]. split; [done|]. split; [|split; [|split]].
  - unfold meta_of. rewrite filter_nil_iff. split.
    + intros H msg Hmsg.
      destruct (get_abs_times_from_elem_of 0 _ _ Hmsg) as [t Ht].
      apply (H _ Ht).
    + intros H e He.
      destruct (get_abs_times_from_elem 0 _ _ He) as (msg & Hmsg & Hmsg').
      destruct e as [t m]; simpl in Hmsg'; subst m.
      change (is_meta msg = false). by apply H.
  - intros i. unfold bucket_of. rewrite filter_nil_iff. split.
    + intros H msg Hmsg Hmeta Hc.
      destruct (get_abs_times_from_elem_of 0 _ _ Hmsg) as [t Ht].
      specialize (H _ Ht). rewrite (in_bucket_channel _ _ _ _ Hmeta Hc) in H.
      by apply bool_decide_eq_false in H.
    + intros H e He.
      destruct (get_abs_times_from_elem 0 _ _ He) as (msg & Hmsg & Hmsg').
      destruct e as [t m]; simpl in Hmsg'; subst m.
      destruct (is_meta msg) eqn:Hmeta; [by apply in_bucket_meta|].
      destruct (msg_channel msg) as [c|] eqn:Hc;
        [|by apply in_bucket_no_channel].
      rewrite (in_bucket_channel _ _ _ _ Hmeta Hc).
      apply bool_decide_eq_false. intros ->. by apply (H msg).
  - intros i e He. by apply elem_of_bucket_of in He as [_ He].
  - done.
Qed.

Lemma sample_track_in_range : channels_in_range sample_track.
Proof.
  unfold channels_in_range, sample_track.
  repeat (apply Forall_cons_2;
          [intros Hm c Hc; simpl in Hm, Hc; try discriminate;
           inversion Hc; lia|]).
  apply Forall_nil_2.
Defined.

Lemma convert_type0_to_type1_layout_witness :
  ∃ new_mid,
    convert_type0_to_type1 sample_file = Returned new_mid
    ∧ type new_mid = 1
    ∧ ticks_per_beat new_mid = 480
    ∧ length (tracks new_mid) = 3%nat.
Proof.
  destruct (convert_type0_to_type1_layout sample_file sample_track []
              eq_refl sample_track_in_range)
    as (new_mid & Hret & Htype & Hticks & Htracks & _).
  exists new_mid. repeat split; try done.
  rewrite Htracks. reflexivity.
Defined.

(** The sample file, split: the meta track, the track of channel 0
    and the track of channel 9.  The system-exclusive message is in
    none of them; the time it took is kept in the delta that follows. *)
Example convert_type0_to_type1_sample :
  convert_type0_to_type1 sample_file
  = Returned
      {| type := 1; ticks_per_beat := 480;
         tracks :=
           [[mkMsg 0 (Meta "set_tempo" None [500000]);
             mkMsg 120 (Meta "end_of_track" None [])];
            [mkMsg 10 (NoteOn 0 60 64);
             mkMsg 10 (ChannelVoice "pitchwheel" 0 [8192]);
             mkMsg 100 (NoteOff 0 60 0);
             mkMsg 0 (Meta "end_of_track" None [])];
            [mkMsg 0 (NoteOn 9 36 100);
             mkMsg 0 (Meta "end_of_track" None [])]] |}.
Proof. vm_compute. reflexivity. Qed.

Lemma get_abs_times_from_app_l (a : Z) (l1 l2 : Track) (e : Z * Msg) :
  e ∈ get_abs_times_from a l1 → e ∈ get_abs_times_from a (l1 ++ l2).
Proof.
  revert a; induction l1 as [|m l1 IH]; intros a He; simpl in *.
  - by apply elem_of_nil in He.
  - apply elem_of_cons in He as [->|He]; [by left|]. right. by apply IH.
Qed.

Lemma to_relative_from_elem (a : Z) (l : list (Z * Msg)) (msg : Msg) :
  msg ∈ to_relative_from a l → ∃ e, e ∈ l ∧ body msg = body e.2.
Proof.
  revert a; induction l as [|[t m] l IH]; intros a Hmsg; simpl in Hmsg.
  - by apply elem_of_nil in Hmsg.
  - apply elem_of_cons in Hmsg as [->|Hmsg].
    + exists (t, m). split; [by left|done].
    + destruct (IH _ Hmsg) as (e & He & Hb). exists e. split; [by right|done].
Qed.

Lemma is_meta_body (m m' : Msg) : body m = body m' → is_meta m = is_meta m'.
Proof. unfold is_meta. by intros ->. Qed.

Lemma msg_channel_body (m m' : Msg) :
  body m = body m' → msg_channel m = msg_channel m'.
Proof. unfold msg_channel. by intros ->. Qed.

Lemma bucket_of_zero_timed (i : nat) (tr : Track) :
  Forall zero_timed (py_sort fst false (bucket_of i (get_abs_times tr))).
Proof.
  apply py_sort_Forall, Forall_List_filter, get_abs_times_from_zero_timed.
Qed.

(** An entry with a channel is found, at its tick, in the track of its
    channel. *)
Lemma channel_entry_kept (tr : Track) (e : Z * Msg) (c : Z) :
  channels_in_range tr →
  e ∈ get_abs_times tr → is_meta e.2 = false → msg_channel e.2 = Some c →
  ∃ out, out ∈ flat_map (tracks_of_channel (get_abs_times tr)) (seq 0 16)
         ∧ e ∈ get_abs_times out.
Proof.
  intros Hrange He Hmeta Hc.
  assert (Hc16 : 0 ≤ c < 16).
  { destruct (get_abs_times_from_elem 0 _ _ He) as (msg & Hmsg & Hmsg').
    unfold channels_in_range in Hrange. rewrite Forall_forall in Hrange.
    apply (Hrange msg Hmsg).
    - by rewrite <- Hmeta, Hmsg'.
    - by rewrite <- Hc, Hmsg'. }
  assert (Hin : e ∈ bucket_of (Z.to_nat c) (get_abs_times tr)).
  { apply elem_of_bucket_of. repeat split; [done|done|].
    rewrite Hc. f_equal. lia. }
  exists (to_relative (py_sort fst false
                         (bucket_of (Z.to_nat c) (get_abs_times tr)))
          ++ [end_of_track]).
  split.
  - apply list_elem_of_In, in_flat_map. exists (Z.to_nat c). split.
    + apply in_seq. lia.
    + unfold tracks_of_channel.
      destruct (bucket_of (Z.to_nat c) (get_abs_times tr)) eqn:E.
      * by apply elem_of_nil in Hin.
      * by left.
  - apply get_abs_times_from_app_l.
    fold (get_abs_times
            (to_relative (py_sort fst false
                            (bucket_of (Z.to_nat c) (get_abs_times tr))))).
    rewrite get_abs_times_to_relative by apply bucket_of_zero_timed.
    by rewrite py_sort_perm.
Qed.

(** Every message of the output is a meta message or has a channel. *)
Lemma output_message_kinds (abs : list (Z * Msg)) (out : Track) (msg : Msg) :
  out ∈ meta_track_of abs ++ flat_map (tracks_of_channel abs) (seq 0 16) →
  msg ∈ out →
  is_meta msg = true ∨ msg_channel msg ≠ None.
Proof.
  intros Hout Hmsg. apply elem_of_app in Hout as [Hout|Hout].
  - left. unfold meta_track_of in Hout.
    destruct (meta_of abs) as [|e0 l] eqn:E; [by apply elem_of_nil in Hout|].
    apply list_elem_of_singleton in Hout. subst out.
    apply to_relative_from_elem in Hmsg as (e & He & Hb).
    rewrite (is_meta_body _ _ Hb). rewrite <- E in He. unfold meta_of in He.
    by apply list_elem_of_In, List.filter_In in He as [_ He].
  - apply list_elem_of_In, in_flat_map in Hout as (i & _ & Hout).
    unfold tracks_of_channel in Hout.
    destruct (bucket_of i abs) as [|e0 l] eqn:E; [done|].
    destruct Hout as [<-|[]].
    apply elem_of_app in Hmsg as [Hmsg|Hmsg].
    + right. apply to_relative_from_elem in Hmsg as (e & He & Hb).
      rewrite (msg_channel_body _ _ Hb).
      rewrite py_sort_perm, <- E in He.
      apply elem_of_bucket_of in He as (_ & _ & ->). done.
    + left. apply list_elem_of_singleton in Hmsg. by subst msg.
Qed.

(** The statement of C9 fails on the sample file: its system-exclusive
    message is a message of the input track, and no message of any
    output track has its content. *)
Lemma convert_type0_to_type1_drops_sysex :
  let sysex := mkMsg 5 (System "sysex" [126; 127; 9; 1]) in
  sysex ∈ sample_track
  ∧ ∃ new_mid,
      convert_type0_to_type1 sample_file = Returned new_mid
      ∧ ∀ out msg, out ∈ tracks new_mid → msg ∈ out →
                   body msg ≠ body sysex.
Proof.
  intros sysex. split.
  { unfold sample_track. do 3 right. left. }
  eexists. split; [vm_compute; reflexivity|].
  intros out msg Hout Hmsg. cbn [tracks] in Hout.
  repeat (apply elem_of_cons in Hout as [->|Hout]);
    try (by apply elem_of_nil in Hout);
    repeat (apply elem_of_cons in Hmsg as [->|Hmsg]);
    try (by apply elem_of_nil in Hmsg);
    discriminate.
Qed.

(** C9, amended.  Of the message kinds the engine does not name, those
    with a channel (pitch bend, aftertouch, ...) pass through the
    splitter: each is found with its content unchanged at its absolute
    tick in a track of the output.  Non-meta messages without a
    channel (system-exclusive and the like) are dropped: no message of
    any output track is of that kind. *)
Theorem convert_type0_to_type1_other_kinds (mid : MidiFile)
  (original_track : Track) (others : list Track) :
  tracks mid = original_track :: others →
  channels_in_range original_track →
  ∃ new_mid,
    convert_type0_to_type1 mid = Returned new_mid
    ∧ (∀ t msg kind c d,
         (t, msg) ∈ get_abs_times original_track →
         body msg = ChannelVoice kind c d →
         ∃ out, out ∈ tracks new_mid ∧ (t, msg) ∈ get_abs_times out)
    ∧ (∀ out msg kind d,
         out ∈ tracks new_mid → msg ∈ out → body msg ≠ System kind d).
Proof.
  intros Htracks Hrange. eexists. split;
    [by apply (convert_type0_to_type1_returns mid original_track others)|].
  cbn [tracks]. split.
  - intros t msg kind c d He Hbody.
    destruct (channel_entry_kept original_track (t, msg) c Hrange He)
      as (out & Hout & Hin).
    + unfold is_meta. simpl. by rewrite Hbody.
    + unfold msg_channel. simpl. by rewrite Hbody.
    + exists out. split; [|done]. apply elem_of_app. by right.
  - intros out msg kind d Hout Hmsg Hbody.
    destruct (output_message_kinds _ _ _ Hout Hmsg) as [Hm|Hc].
    + unfold is_meta in Hm. by rewrite Hbody in Hm.
    + unfold msg_channel in Hc. by rewrite Hbody in Hc.
Qed.

Lemma convert_type0_to_type1_other_kinds_witness :
  ∃ new_mid,
    convert_type0_to_type1 sample_file = Returned new_mid
    ∧ (∃ out, out ∈ tracks new_mid
              ∧ (20, mkMsg 0 (ChannelVoice "pitchwheel" 0 [8192]))
                ∈ get_abs_times out)
    ∧ (∀ out msg, out ∈ tracks new_mid → msg ∈ out →
                  body msg ≠ System "sysex" [126; 127; 9; 1]).
Proof.
  destruct (convert_type0_to_type1_other_kinds sample_file sample_track []
              eq_refl sample_track_in_range)
    as (new_mid & Hret & Hpass & Hdrop).
  exists new_mid. split; [done|]. split.
  - apply (Hpass 20 _ "pitchwheel" 0 [8192]); [|reflexivity].
    unfold sample_track, get_abs_times. simpl. do 4 right. left.
  - intros out msg Hout Hmsg. by apply (Hdrop out msg).
Defined.

(** * Further properties of the code *)

(** ** Bass analysis *)

Lemma eligible_test (t : TrackInfo) (m : Z) :
  (0 <? total_notes (track t))
  && mostly_bass (bass_count (track t)) (total_notes (track t))
  && (m <? bass_count (track t)) = true
  ↔ 0 < total_notes (track t)
    ∧ total_notes (track t) < 2 * bass_count (track t)
    ∧ m < bass_count (track t).
Proof. unfold mostly_bass. rewrite !andb_true_iff, !Z.ltb_lt. tauto. Qed.

Lemma drop_cons_inv {A : Type} (k : nat) (l : list A) (x : A)
  (rest : list A) :
  drop k l = x :: rest → l !! k = Some x ∧ drop (S k) l = rest.
Proof.
  intros H. split.
  - pose proof (lookup_drop l k 0) as E. rewrite H in E. simpl in E.
    by rewrite Nat.add_0_r in E.
  - change (S k) with (1 + k)%nat. rewrite Nat.add_comm, <- drop_drop.
    by rewrite H.
Qed.

Lemma scan_bass_inv (all : list TrackInfo) (k : nat) (ts : list TrackInfo)
  (st : option (nat * TrackInfo) * Z) :
  drop k all = ts → scan_inv all k st →
  scan_inv all (length all) (scan_bass k ts st).
Proof.
  revert k st; induction ts as [|t0 rest IH]; intros k st Hdrop Hinv.
  - assert (Hall : ∀ i u, all !! i = Some u → (i < k)%nat).
    { intros i u Hu. apply lookup_lt_Some in Hu.
      apply (f_equal length) in Hdrop. rewrite length_drop in Hdrop.
      simpl in Hdrop. clear -Hu Hdrop. lia. }
    simpl. unfold scan_inv in *. destruct st.1 as [[b t]|].
    + destruct Hinv as (Hb & Hbt & He & Hm & Hmax & Hfirst).
      split; [by apply lookup_lt_Some in Hbt|].
      split; [done|]. split; [done|]. split; [done|]. split; [|done].
      intros i u _ Hu. apply (Hmax i u); [by apply (Hall i u)|done].
    + destruct Hinv as [Hm Hnone]. split; [done|].
      intros i u _ Hu. apply (Hnone i u); [by apply (Hall i u)|done].
  - apply drop_cons_inv in Hdrop as [Hk Hdrop].
    cbn [scan_bass]. apply IH; [done|].
    assert (Hstep : ∀ i, (i < S k)%nat → (i < k)%nat ∨ i = k).
    { intros i Hi. clear -Hi. lia. }
    destruct (skipped t0) eqn:Hskip.
    { unfold scan_inv in *. destruct st.1 as [[b t]|].
      - destruct Hinv as (Hb & Hbt & He & Hm & Hmax & Hfirst).
        split; [by apply Nat.lt_lt_succ_r|].
        split; [done|]. split; [done|]. split; [done|]. split; [|done].
        intros i u Hi Hu Heu. destruct (Hstep i Hi) as [Hlt| ->].
        + by apply (Hmax i u).
        + rewrite Hk in Hu. inversion Hu; subst u.
          destruct Heu as [Heu _]. congruence.
      - destruct Hinv as [Hm Hnone]. split; [done|].
        intros i u Hi Hu Heu. destruct (Hstep i Hi) as [Hlt| ->].
        + by apply (Hnone i u).
        + rewrite Hk in Hu. inversion Hu; subst u.
          destruct Heu as [Heu _]. congruence. }
    destruct ((0 <? total_notes (track t0))
              && mostly_bass (bass_count (track t0)) (total_notes (track t0))
              && (st.2 <? bass_count (track t0))) eqn:Htest.
    + apply eligible_test in Htest as (Hn & Hhalf & Hgt).
      unfold scan_inv in *. cbn [fst snd].
      split; [apply Nat.lt_succ_diag_r|]. split; [done|].
      split; [done|]. split; [done|].
      destruct st.1 as [[b t]|].
      * destruct Hinv as (Hb & Hbt & He & Hm & Hmax & Hfirst). split.
        -- intros i u Hi Hu Heu. destruct (Hstep i Hi) as [Hlt| ->].
           ++ specialize (Hmax i u Hlt Hu Heu). rewrite Hm in Hgt.
              clear -Hmax Hgt. lia.
           ++ rewrite Hk in Hu. inversion Hu. done.
        -- intros i u Hi Hu Heu. specialize (Hmax i u Hi Hu Heu).
           rewrite Hm in Hgt. clear -Hmax Hgt. lia.
      * destruct Hinv as [Hm Hnone]. split.
        -- intros i u Hi Hu Heu. destruct (Hstep i Hi) as [Hlt| ->].
           ++ by destruct (Hnone i u Hlt Hu).
           ++ rewrite Hk in Hu. inversion Hu. done.
        -- intros i u Hi Hu Heu. by destruct (Hnone i u Hi Hu).
    + assert (Hno : eligible t0 → bass_count (track t0) ≤ st.2).
      { intros (_ & Hn & Hhalf).
        destruct (Z.le_gt_cases (bass_count (track t0)) st.2) as [|Hlt];
          [done|].
        assert (Ht : (0 <? total_notes (track t0))
                && mostly_bass (bass_count (track t0))
                               (total_notes (track t0))
                && (st.2 <? bass_count (track t0)) = true)
          by by apply eligible_test.
        congruence. }
      unfold scan_inv in *. destruct st.1 as [[b t]|].
      * destruct Hinv as (Hb & Hbt & He & Hm & Hmax & Hfirst).
        split; [by apply Nat.lt_lt_succ_r|].
        split; [done|]. split; [done|]. split; [done|]. split; [|done].
        intros i u Hi Hu Heu. destruct (Hstep i Hi) as [Hlt| ->].
        -- by apply (Hmax i u).
        -- rewrite Hk in Hu. inversion Hu; subst u. rewrite <- Hm.
           by apply Hno.
      * destruct Hinv as [Hm Hnone]. split; [done|].
        intros i u Hi Hu Heu. destruct (Hstep i Hi) as [Hlt| ->].
        -- by apply (Hnone i u).
        -- rewrite Hk in Hu. inversion Hu; subst u.
           pose proof (Hno Heu) as Hle. destruct Heu as (_ & Hn & Hhalf).
           rewrite Hm in Hle. clear -Hle Hn Hhalf. lia.
Qed.

(** X1.  The bass candidate of [detect_bass_track]: when the analysis
    ends without one, no track is eligible (not skipped, with a
    note-on, more than half of its note-ons below note 48); when it
    ends with the track at position [b], that track is eligible, no
    eligible track has more sub-48 note-ons, and every eligible track
    before it has strictly fewer. *)
Theorem scan_bass_candidate (ts : list TrackInfo) :
  match (scan_bass 0 ts (None, 0)).1 with
  | None => ∀ u, u ∈ ts → ¬ eligible u
  | Some (b, t) =>
      ts !! b = Some t ∧ eligible t
      ∧ (∀ i u, ts !! i = Some u → eligible u →
                bass_count (track u) ≤ bass_count (track t))
      ∧ (∀ i u, (i < b)%nat → ts !! i = Some u → eligible u →
                bass_count (track u) < bass_count (track t))
  end.
Proof.
  assert (Hinv : scan_inv ts (length ts) (scan_bass 0 ts (None, 0))).
  { apply scan_bass_inv; [done|]. split; [done|].
    intros i u Hi. by apply Nat.nlt_0_r in Hi. }
  unfold scan_inv in Hinv.
  destruct (scan_bass 0 ts (None, 0)).1 as [[b t]|].
  - destruct Hinv as (_ & Hbt & He & _ & Hmax & Hfirst).
    split; [done|]. split; [done|]. split; [|done].
    intros i u Hu. apply (Hmax i u); [|done]. by apply lookup_lt_Some in Hu.
  - destruct Hinv as [_ Hnone]. intros u Hu.
    apply list_elem_of_lookup in Hu as [i Hu].
    apply (Hnone i u); [|done]. by apply lookup_lt_Some in Hu.
Qed.

(** X2.  Whenever the analysis finds a bass candidate, the track at
    its position is on channel 1 after [detect_bass_track], with its
    original index. *)
Theorem detect_bass_track_on_channel_1 (ts : list TrackInfo) (b : nat)
  (bass : TrackInfo) :
  (scan_bass 0 ts (None, 0)).1 = Some (b, bass) →
  ∃ t, detect_bass_track ts !! b = Some t
       ∧ channel t = 1 ∧ index t = index bass.
Proof.
  intros Hscan. destruct (decide (channel bass = 1)) as [H1|H1].
  - rewrite (detect_bass_track_placed _ _ _ Hscan H1).
    exists bass. by destruct (scan_bass_0_found _ _ _ Hscan).
  - exists (move_bass bass).
    by rewrite (detect_bass_track_lookup_bass _ _ _ Hscan H1).
Qed.

Lemma detect_bass_track_on_channel_1_witness :
  let t0 := mkTrackInfo 0 [mkMsg 0 (NoteOn 0 60 100)] 1 0 None None None false in
  let t1 := mkTrackInfo 1 [mkMsg 0 (NoteOn 2 40 100)] 1 2 None None None false in
  ∃ t, detect_bass_track [t0; t1] !! 1%nat = Some t
       ∧ channel t = 1 ∧ index t = 1%nat.
Proof.
  intros t0 t1.
  apply (detect_bass_track_on_channel_1 [t0; t1] 1 t1). reflexivity.
Defined.

(** ** Reassignment touches channels only *)

Lemma set_channel_set_channel (c c' : Z) (msg : Msg) :
  set_channel c (set_channel c' msg) = set_channel c msg.
Proof. by destruct msg as [? [| | | | | |? []]]. Qed.

Lemma is_meta_set_channel (c : Z) (msg : Msg) :
  is_meta (set_channel c msg) = is_meta msg.
Proof. by destruct msg as [? [| | | | | |? []]]. Qed.

Lemma blank_set_channel (c : Z) (tr : Track) :
  map (set_channel 0) (map (set_channel c) tr) = map (set_channel 0) tr.
Proof.
  rewrite List.map_map. apply List.map_ext. intros msg.
  apply set_channel_set_channel.
Qed.

Lemma same_content_refl (t : TrackInfo) : same_content t t.
Proof. done. Qed.

Lemma same_content_trans (t1 t2 t3 : TrackInfo) :
  same_content t1 t2 → same_content t2 t3 → same_content t1 t3.
Proof.
  intros (H1 & H2 & H3) (H4 & H5 & H6). repeat split; congruence.
Qed.

Lemma same_content_remap (c : Z) (t : TrackInfo) : same_content t (remap c t).
Proof. repeat split. apply blank_set_channel. Qed.

Lemma same_content_move_bass (t : TrackInfo) : same_content t (move_bass t).
Proof. repeat split. apply blank_set_channel. Qed.

Lemma same_content_swap_out (c : Z) (t : TrackInfo) :
  same_content t (swap_out c t).
Proof. repeat split. apply blank_set_channel. Qed.

Lemma same_content_events (t t' : TrackInfo) :
  same_content t t' →
  count_track_events (track t') = count_track_events (track t).
Proof.
  intros (_ & _ & H). unfold count_track_events.
  transitivity (count_if (λ msg, negb (is_meta msg))
                         (map (set_channel 0) (track t'))).
  { rewrite count_if_map. apply count_if_ext.
    intros msg. by rewrite is_meta_set_channel. }
  rewrite H, count_if_map. apply count_if_ext.
  intros msg. by rewrite is_meta_set_channel.
Qed.

Lemma Forall2_refl_insert {A : Type} (R : A → A → Prop) (l l' : list A)
  (i : nat) (x y : A) :
  Forall2 R l l' → l !! i = Some x → R x y → Forall2 R l (<[i := y]> l').
Proof.
  intros Hl Hi Hxy. rewrite <- (list_insert_id l i x Hi).
  by apply Forall2_insert.
Qed.

Lemma same_content_all_refl (ts : list TrackInfo) :
  Forall2 same_content ts ts.
Proof. induction ts; constructor; [done|done]. Qed.

Lemma standardize_melodic_same_content (k : Z) (ms : list TrackInfo) :
  Forall2 same_content ms (standardize_melodic k ms).
Proof.
  revert k; induction ms as [|t ms IH]; intros k; [constructor|].
  rewrite standardize_melodic_cons. constructor; [|done].
  destruct (negb (py_in (channel t) melodic_channels) || (channel t =? 999));
    [apply same_content_remap|done].
Qed.

Lemma detect_bass_track_same_content (ts : list TrackInfo) :
  Forall2 same_content ts (detect_bass_track ts).
Proof.
  destruct (scan_bass 0 ts (None, 0)).1 as [[b bass]|] eqn:Hscan.
  - destruct (scan_bass_0_found _ _ _ Hscan) as [Hb _].
    destruct (decide (channel bass = 1)) as [H1|H1].
    { rewrite (detect_bass_track_placed _ _ _ Hscan H1).
      apply same_content_all_refl. }
    rewrite (detect_bass_track_moved _ _ _ Hscan H1).
    assert (Forall2 same_content ts (<[b := move_bass bass]> ts)) as Hmove.
    { eapply Forall2_refl_insert; [apply same_content_all_refl|done|].
      apply same_content_move_bass. }
    destruct (find_channel_1 0 b ts) as [[j c1]|] eqn:Hfind; [|done].
    apply find_channel_1_Some in Hfind as (_ & Hj & _).
    rewrite Nat.sub_0_r in Hj.
    eapply Forall2_refl_insert; [done|done|]. apply same_content_swap_out.
  - rewrite (detect_bass_track_none _ Hscan). apply same_content_all_refl.
Qed.

Lemma reassign_channels_same_content (ts : list TrackInfo) :
  Forall2 same_content
          (List.filter (λ t, channel t =? 9) ts ++ melodic_of ts)
          (reassign_channels ts).
Proof.
  unfold reassign_channels.
  eapply Forall2_trans;
    [apply same_content_trans| |apply detect_bass_track_same_content].
  unfold standardize_channels. rewrite standardize_drums_id.
  apply Forall2_app; [apply same_content_all_refl|].
  apply standardize_melodic_same_content.
Qed.

(** X3.  [standardize_channels] followed by [detect_bass_track]
    returns the percussion tracks and then the melodic tracks of its
    input, one for one and in order, each with its original index, its
    event count, the same number of non-meta messages, and the same
    messages up to their channels: no track and no message is added,
    dropped, reordered or retimed. *)
Theorem reassign_channels_content (ts : list TrackInfo) :
  Forall2 (λ t t', same_content t t'
                   ∧ count_track_events (track t')
                     = count_track_events (track t))
          (List.filter (λ t, channel t =? 9) ts ++ melodic_of ts)
          (reassign_channels ts).
Proof.
  apply Forall2_impl with same_content;
    [apply reassign_channels_same_content|].
  intros t t' H. split; [done|by apply same_content_events].
Qed.

(** ** Channels after the whole reassignment *)

Lemma standardize_melodic_in_range (k : Z) (ms : list TrackInfo) :
  Forall (λ t, channel t ∈ melodic_channels) (standardize_melodic k ms).
Proof.
  pose proof (standardize_melodic_channel k ms) as H.
  induction H as [|t t' ms ms' (_ & _ & Hc) _ IH]; constructor; done.
Qed.

(** Relocation inside the melodic part of a list that starts with
    percussion tracks. *)
Lemma detect_bass_track_after_drums (ds ms : list TrackInfo) :
  Forall (λ t, channel t = 9) ds →
  Forall (λ t, channel t ∈ melodic_channels) ms →
  ∃ ms', detect_bass_track (ds ++ ms) = ds ++ ms'
         ∧ length ms' = length ms
         ∧ Forall (λ t, channel t ∈ melodic_channels) ms'.
Proof.
  intros Hds Hms.
  assert (Hpos : ∀ i t, (ds ++ ms) !! i = Some t → channel t ≠ 9 →
                 (length ds ≤ i)%nat ∧ ms !! (i - length ds)%nat = Some t).
  { intros i t Hi H9. apply lookup_app_Some in Hi as [Hi|[Hle Hi]]; [|done].
    rewrite Forall_lookup in Hds. by specialize (Hds i t Hi). }
  destruct (scan_bass 0 (ds ++ ms) (None, 0)).1 as [[b bass]|] eqn:Hscan;
    [|exists ms; by rewrite (detect_bass_track_none _ Hscan)].
  destruct (decide (channel bass = 1)) as [H1|H1].
  { exists ms. by rewrite (detect_bass_track_placed _ _ _ Hscan H1). }
  rewrite (detect_bass_track_moved _ _ _ Hscan H1).
  destruct (scan_bass_0_found _ _ _ Hscan) as [Hb Hskip].
  assert (Hold : channel bass ≠ 9) by (unfold skipped in Hskip; lia).
  destruct (Hpos b bass Hb Hold) as [Hble Hbm].
  assert (Hbass : channel bass ∈ melodic_channels).
  { rewrite Forall_lookup in Hms. by apply (Hms _ _ Hbm). }
  assert (H1in : 1 ∈ melodic_channels).
  { apply elem_of_melodic_channels. lia. }
  destruct (find_channel_1 0 b (ds ++ ms)) as [[j c1]|] eqn:Hfind.
  - apply find_channel_1_Some in Hfind as (_ & Hj & Hc1 & _).
    rewrite Nat.sub_0_r in Hj.
    destruct (Hpos j c1 Hj) as [Hjle Hjm]; [lia|].
    eexists. split.
    + rewrite (insert_app_r_alt ds ms b) by done.
      by rewrite (insert_app_r_alt ds _ j) by done.
    + split; [by rewrite !length_insert|].
      apply Forall_insert; [by apply Forall_insert|done].
  - eexists. split; [by rewrite (insert_app_r_alt ds ms b) by done|].
    split; [by rewrite length_insert|]. by apply Forall_insert.
Qed.

(** X4.  After [standardize_channels] followed by
    [detect_bass_track], the tracks that came in on channel 9 are
    returned first and exactly as they were (messages and annotations;
    percussion is never remapped, never the bass candidate, never the
    swap partner), followed by one track per melodic input track, each
    on a channel of {0,1,2,3}. *)
Theorem reassign_channels_partition (ts : list TrackInfo) :
  ∃ melodic,
    reassign_channels ts = List.filter (λ t, channel t =? 9) ts ++ melodic
    ∧ length melodic = length (melodic_of ts)
    ∧ Forall (λ t, channel t ∈ melodic_channels) melodic.
Proof.
  unfold reassign_channels, standardize_channels.
  rewrite standardize_drums_id.
  destruct (detect_bass_track_after_drums
              (List.filter (λ t, channel t =? 9) ts)
              (standardize_melodic 0 (melodic_of ts)))
    as (ms' & Heq & Hlen & Hin).
  - apply List.Forall_forall. intros t Ht.
    apply List.filter_In in Ht as [_ Ht]. lia.
  - apply standardize_melodic_in_range.
  - exists ms'. split; [done|]. split; [|done].
    by rewrite Hlen, standardize_melodic_length.
Qed.

(** ** The tracks kept are the top tracks *)

Lemma ranked_sorted (min_events : Z) (tracks : list Track) :
  StronglySorted ranks_before
    (py_sort events true (substantial_tracks min_events (track_info tracks))).
Proof. apply py_sort_ranked, StronglySorted_filter, track_info_ascending. Qed.

Lemma elem_of_ranked (min_events : Z) (tracks : list Track) (t : TrackInfo) :
  t ∈ py_sort events true (substantial_tracks min_events (track_info tracks))
  ↔ t ∈ track_info tracks ∧ min_events ≤ events t.
Proof.
  rewrite py_sort_perm. unfold substantial_tracks.
  rewrite !list_elem_of_In, List.filter_In, Z.leb_le. done.
Qed.

(** X5.  The selection keeps [min max_tracks n] tracks, [n] being the
    number of tracks with at least [min_events] events; every kept
    track has at least [min_events] events; and every such track that
    is not kept ranks after every kept one (fewer events, or as many
    and a higher original index). *)
Theorem select_top_tracks_dominates
  (min_events : Z) (max_tracks : nat) (tracks : list Track) :
  let infos := track_info tracks in
  let kept := (select_top_tracks min_events max_tracks infos).1 in
  length kept
  = Nat.min max_tracks (length (substantial_tracks min_events infos))
  ∧ (∀ t, t ∈ kept → t ∈ infos ∧ min_events ≤ events t)
  ∧ (∀ t u, t ∈ kept → u ∈ infos → min_events ≤ events u → u ∉ kept →
            ranks_before t u).
Proof.
  intros infos kept. subst kept. cbn [select_top_tracks fst].
  set (ranked := py_sort events true (substantial_tracks min_events infos)).
  split; [|split].
  - rewrite length_take. f_equal. unfold ranked.
    apply Permutation_length, py_sort_perm.
  - intros t Ht. apply (elem_of_ranked min_events tracks).
    apply elem_of_take in Ht as (i & Hi & _).
    by apply list_elem_of_lookup_2 in Hi.
  - intros t u Ht Hu Hmin Hnot.
    assert (Hur : u ∈ ranked) by by apply elem_of_ranked.
    rewrite <- (take_drop max_tracks ranked) in Hur.
    apply elem_of_app in Hur as [Hur|Hur]; [done|].
    pose proof (ranked_sorted min_events tracks) as Hs. fold infos ranked in Hs.
    rewrite <- (take_drop max_tracks ranked) in Hs.
    by apply (StronglySorted_app_1_elem_of _ _ _ _ _ Hs).
Qed.

(** ** One file through the filter *)

Lemma track_info_events (tracks : list Track) (t : TrackInfo) :
  t ∈ track_info tracks → events t = count_track_events (track t).
Proof.
  unfold track_info. intros Ht.
  by apply elem_of_lookup_imap in Ht as (i & tr & -> & _).
Qed.

Lemma filter_split_length {A : Type} (p : A → bool) (l : list A) :
  length (List.filter p l ++ List.filter (λ x, negb (p x)) l) = length l.
Proof.
  rewrite length_app. induction l as [|x l IH]; simpl; [done|].
  destruct (p x); simpl; lia.
Qed.

Lemma elem_of_filter_split {A : Type} (p : A → bool) (l : list A) (x : A) :
  x ∈ List.filter p l ++ List.filter (λ x, negb (p x)) l → x ∈ l.
Proof.
  rewrite elem_of_app, !list_elem_of_In, !List.filter_In. tauto.
Qed.

Lemma filter_tracks_kept (min_events : Z) (max_tracks : nat)
  (mid : MidiFile) :
  type (filter_tracks min_events max_tracks mid) = 1
  ∧ ticks_per_beat (filter_tracks min_events max_tracks mid)
    = ticks_per_beat mid
  ∧ (length (tracks (filter_tracks min_events max_tracks mid))
     ≤ max_tracks)%nat
  ∧ Forall (λ tr, min_events ≤ count_track_events tr)
           (tracks (filter_tracks min_events max_tracks mid)).
Proof.
  split; [done|]. split; [done|].
  unfold filter_tracks. cbn [tracks]. unfold process_tracks.
  set (sel := (select_top_tracks min_events max_tracks
                 (track_info (tracks mid))).1).
  pose proof (reassign_channels_same_content sel) as Hsame.
  split.
  - rewrite length_map, (Permutation_length (py_sort_perm _ _ _)).
    rewrite <- (Forall2_length _ _ _ Hsame).
    unfold melodic_of. rewrite filter_split_length.
    unfold sel. cbn [select_top_tracks fst]. rewrite length_take.
    apply Nat.le_min_l.
  - apply Forall_forall. intros tr Htr.
    apply list_elem_of_fmap in Htr as (t & -> & Ht).
    rewrite py_sort_perm in Ht.
    apply list_elem_of_lookup in Ht as [i Hi].
    destruct (Forall2_lookup_r _ _ _ _ _ Hsame Hi) as (t0 & Ht0 & Hc).
    rewrite (same_content_events _ _ Hc).
    apply list_elem_of_lookup_2, elem_of_filter_split in Ht0.
    unfold sel in Ht0. cbn [select_top_tracks fst] in Ht0.
    apply elem_of_take in Ht0 as (j & Ht0 & _).
    apply list_elem_of_lookup_2, elem_of_ranked in Ht0 as [Hin Hmin].
    by rewrite <- (track_info_events _ _ Hin).
Qed.

Lemma convert_type0_to_type1_header (mid new_mid : MidiFile) :
  convert_type0_to_type1 mid = Returned new_mid →
  type new_mid = 1 ∧ ticks_per_beat new_mid = ticks_per_beat mid.
Proof.
  unfold convert_type0_to_type1. destruct (tracks mid); [done|].
  destruct (split_loop 0 (replicate 16 []) [] _) as [[??]|]; [|done].
  intros H. by inversion H.
Qed.

(** What [save] writes and what it has checked. *)
Lemma save_Some (mid saved : MidiFile) :
  save mid = Some saved →
  type saved = type mid
  ∧ ticks_per_beat saved = ticks_per_beat mid
  ∧ tracks saved = map (fix_end_of_track 0) (tracks mid)
  ∧ (type mid = 0 → length (tracks mid) = 1%nat)
  ∧ Forall (Forall (λ msg, writable msg = true)) (tracks saved).
Proof.
  unfold save.
  destruct ((type mid =? 0) && negb (Nat.eqb (length (tracks mid)) 1))
    eqn:Hone; [done|].
  destruct (short (type mid) && short (Z.of_nat (length (tracks mid)))
            && short (ticks_per_beat mid)
            && forallb (λ track, forallb writable (fix_end_of_track 0 track))
                       (tracks mid)) eqn:Hok; [|done].
  intros H; inversion H; subst saved; clear H. cbn [type ticks_per_beat tracks].
  split; [done|]. split; [done|]. split; [done|]. split.
  - intros H0. rewrite H0 in Hone. cbn in Hone.
    apply negb_false_iff, Nat.eqb_eq in Hone. done.
  - apply andb_true_iff in Hok as [_ Hok].
    rewrite forallb_forall in Hok. apply Forall_forall. intros tr Htr.
    apply list_elem_of_fmap in Htr as (tr0 & -> & Htr0).
    apply Forall_forall. intros msg Hmsg.
    apply list_elem_of_In in Htr0. specialize (Hok _ Htr0).
    rewrite forallb_forall in Hok. by apply Hok, list_elem_of_In.
Qed.

Lemma meta_is_set_time (kind : string) (t : Z) (msg : Msg) :
  meta_is kind (set_time t msg) = meta_is kind msg.
Proof. done. Qed.

Lemma is_meta_end_of_track (msg : Msg) :
  meta_is "end_of_track" msg = true → is_meta msg = true.
Proof. unfold meta_is, is_meta. by destruct (body msg). Qed.

(** [fix_end_of_track] takes out and adds meta messages only. *)
Lemma fix_end_of_track_events (accum : Z) (tr : Track) :
  count_track_events (fix_end_of_track accum tr) = count_track_events tr.
Proof.
  unfold count_track_events.
  revert accum; induction tr as [|msg rest IH]; intros accum; [done|].
  cbn [fix_end_of_track count_if].
  destruct (meta_is "end_of_track" msg) eqn:He.
  - rewrite IH, (is_meta_end_of_track _ He). done.
  - destruct (negb (accum =? 0)); cbn [count_if]; by rewrite IH.
Qed.

(** A track as [save] writes it is written as it is. *)
Lemma fix_end_of_track_twice (accum : Z) (tr : Track) :
  fix_end_of_track 0 (fix_end_of_track accum tr) = fix_end_of_track accum tr.
Proof.
  revert accum; induction tr as [|msg rest IH]; intros accum.
  - cbn. by rewrite Z.add_0_l.
  - cbn [fix_end_of_track].
    destruct (meta_is "end_of_track" msg) eqn:He; [apply IH|].
    destruct (negb (accum =? 0)); cbn [fix_end_of_track].
    + rewrite meta_is_set_time, He. cbn. by rewrite IH.
    + rewrite He. cbn. by rewrite IH.
Qed.

Lemma forallb_map_eq {A B : Type} (p : B → bool) (q : A → bool)
  (f : A → B) (l : list A) :
  (∀ x, p (f x) = q x) → forallb p (map f l) = forallb q l.
Proof. intros E. induction l as [|x l IH]; simpl; [done|]. by rewrite E, IH. Qed.

Lemma save_twice (mid saved : MidiFile) :
  save mid = Some saved → save saved = Some saved.
Proof.
  unfold save.
  destruct ((type mid =? 0) && negb (Nat.eqb (length (tracks mid)) 1))
    eqn:Hone; [done|].
  destruct (short (type mid) && short (Z.of_nat (length (tracks mid)))
            && short (ticks_per_beat mid)
            && forallb (λ track, forallb writable (fix_end_of_track 0 track))
                       (tracks mid)) eqn:Hok; [|done].
  intros H; inversion H; subst saved; clear H. cbn [type ticks_per_beat tracks].
  unfold Track in *. rewrite length_map, Hone.
  assert (Hmap : map (fix_end_of_track 0) (map (fix_end_of_track 0) (tracks mid))
                 = map (fix_end_of_track 0) (tracks mid)).
  { rewrite List.map_map. apply List.map_ext. intros tr.
    apply fix_end_of_track_twice. }
  rewrite (forallb_map_eq _ (λ track, forallb writable
                                        (fix_end_of_track 0 track))),
          Hok, Hmap; [done|].
  intros tr. by rewrite fix_end_of_track_twice.
Qed.

(** X6.  A file that [process_files] saves is a format-1 file with the
    ticks per beat of the input, holding at most [max_tracks] tracks,
    each with at least [min_events] non-meta messages. *)
Theorem process_file_saved (min_events : Z) (max_tracks : nat)
  (mid new_mid : MidiFile) :
  process_file min_events max_tracks mid = Saved new_mid →
  type new_mid = 1
  ∧ ticks_per_beat new_mid = ticks_per_beat mid
  ∧ (length (tracks new_mid) ≤ max_tracks)%nat
  ∧ Forall (λ tr, min_events ≤ count_track_events tr) (tracks new_mid).
Proof.
  assert (Hsaved : ∀ mid0,
    save_filtered (filter_tracks min_events max_tracks mid0) = Saved new_mid →
    type new_mid = 1
    ∧ ticks_per_beat new_mid = ticks_per_beat mid0
    ∧ (length (tracks new_mid) ≤ max_tracks)%nat
    ∧ Forall (λ tr, min_events ≤ count_track_events tr) (tracks new_mid)).
  { intros mid0. unfold save_filtered.
    destruct (save _) as [saved|] eqn:Hsave; [|done].
    intros H; inversion H; subst saved; clear H.
    apply save_Some in Hsave as (Ht & Htpb & Htr & _).
    destruct (filter_tracks_kept min_events max_tracks mid0)
      as (Ht0 & Htpb0 & Hlen & Hall).
    rewrite Ht, Htpb, Htr. split; [done|]. split; [done|].
    split; [by rewrite length_map|].
    apply Forall_fmap. eapply Forall_impl; [exact Hall|].
    intros tr Hmin. cbn. by rewrite fix_end_of_track_events. }
  unfold process_file. destruct (type mid =? 0).
  - destruct (convert_type0_to_type1 mid) as [mid'|] eqn:Hconv; [|done].
    intros H. destruct (convert_type0_to_type1_header _ _ Hconv) as [_ <-].
    by apply Hsaved.
  - destruct (type mid =? 1); [|done]. apply Hsaved.
Qed.

Lemma process_file_saved_witness :
  ∃ new_mid,
    process_file 2 5 sample_file = Saved new_mid
    ∧ type new_mid = 1
    ∧ ticks_per_beat new_mid = 480
    ∧ (length (tracks new_mid) ≤ 5)%nat
    ∧ Forall (λ tr, 2 ≤ count_track_events tr) (tracks new_mid).
Proof.
  eexists. split; [vm_compute; reflexivity|].
  eapply (process_file_saved 2 5 sample_file). vm_compute. reflexivity.
Defined.

(** ** Timing through the splitter *)

Lemma duration_cons (msg : Msg) (tr : Track) :
  duration (msg :: tr) = time msg + duration tr.
Proof. done. Qed.

Lemma get_abs_times_from_app (a : Z) (l1 l2 : Track) :
  get_abs_times_from a (l1 ++ l2)
  = get_abs_times_from a l1 ++ get_abs_times_from (a + duration l1) l2.
Proof.
  revert a; induction l1 as [|m l1 IH]; intros a.
  - simpl. unfold duration. simpl. by rewrite Z.add_0_r.
  - cbn [app get_abs_times_from]. rewrite IH, duration_cons.
    by rewrite Z.add_assoc.
Qed.

Lemma duration_to_relative_from (a : Z) (l : list (Z * Msg)) :
  a + duration (to_relative_from a l) = last_tick a l.
Proof.
  revert a; induction l as [|[t m] l IH]; intros a.
  - unfold duration. simpl. apply Z.add_0_r.
  - cbn [to_relative_from last_tick fst]. rewrite duration_cons.
    rewrite <- IH. simpl. rewrite Z.add_assoc. f_equal.
    rewrite Z.add_comm. apply Z.sub_add.
Qed.

(** An absolute-time list that ascends from [a] on converts back to
    non-negative deltas. *)
Lemma to_relative_from_nonneg (a : Z) (l : list (Z * Msg)) :
  StronglySorted (λ x y, x.1 ≤ y.1) l →
  Forall (λ e, a ≤ e.1) l →
  nonneg_deltas (to_relative_from a l).
Proof.
  intros Hs; revert a; induction Hs as [|[t m] l Hl IH Hx]; intros a Ha.
  - constructor.
  - apply Forall_cons in Ha as [Hat _]. cbn [to_relative_from].
    constructor.
    + simpl in *. clear -Hat. lia.
    + apply IH. eapply Forall_impl; [exact Hx|]. done.
Qed.

(** The absolute times of a track of non-negative deltas ascend. *)
Lemma get_abs_times_from_ascending (a : Z) (tr : Track) :
  nonneg_deltas tr →
  StronglySorted (λ x y, x.1 ≤ y.1) (get_abs_times_from a tr)
  ∧ Forall (λ e, a ≤ e.1) (get_abs_times_from a tr).
Proof.
  intros Hn; revert a; induction Hn as [|m tr Hm _ IH]; intros a.
  - split; constructor.
  - cbn [get_abs_times_from]. destruct (IH (a + time m)) as [Hs Hge].
    split.
    + constructor; [done|]. eapply Forall_impl; [exact Hge|]. done.
    + constructor; [simpl; clear -Hm; lia|].
      eapply Forall_impl; [exact Hge|]. simpl. intros e He.
      clear -Hm He. lia.
Qed.

(** Sorting an ascending list leaves it as it is. *)
Lemma py_sort_ascending_id (l : list (Z * Msg)) :
  StronglySorted (λ x y, x.1 ≤ y.1) l → py_sort fst false l = l.
Proof.
  induction 1 as [|x l Hl IH Hx]; [done|].
  cbn [py_sort foldr]. fold (py_sort fst false l). rewrite IH.
  destruct l as [|y l']; [done|]. cbn [sort_insert].
  apply Forall_cons in Hx as [Hxy _].
  unfold key_le. by destruct (Z.leb_spec x.1 y.1); [|lia].
Qed.

Lemma Forall_at_least_filter (a : Z) (p : Z * Msg → bool)
  (l : list (Z * Msg)) :
  Forall (λ e, a ≤ e.1) l → Forall (λ e, a ≤ e.1) (List.filter p l).
Proof. apply Forall_List_filter. Qed.

(** One channel track in absolute time. *)
Lemma channel_track_abs (bucket : list (Z * Msg)) :
  Forall zero_timed bucket →
  StronglySorted (λ x y, x.1 ≤ y.1) bucket →
  get_abs_times (to_relative (py_sort fst false bucket) ++ [end_of_track])
  = bucket ++ [(last_tick 0 bucket, end_of_track)].
Proof.
  intros Hz Hs. rewrite (py_sort_ascending_id _ Hs).
  unfold get_abs_times at 1. rewrite get_abs_times_from_app.
  fold (get_abs_times (to_relative bucket)).
  rewrite (get_abs_times_to_relative _ Hz). f_equal.
  unfold to_relative. rewrite duration_to_relative_from.
  cbn [get_abs_times_from]. by rewrite Z.add_0_r.
Qed.

(** The tracks of the splitter's output, one by one. *)
Lemma elem_of_split_tracks (abs : list (Z * Msg)) (out : Track) :
  out ∈ meta_track_of abs ++ flat_map (tracks_of_channel abs) (seq 0 16) →
  (meta_of abs ≠ [] ∧ out = to_relative (meta_of abs))
  ∨ ∃ i, (i < 16)%nat ∧ bucket_of i abs ≠ []
         ∧ out = to_relative (py_sort fst false (bucket_of i abs))
                 ++ [end_of_track].
Proof.
  intros Hout. apply elem_of_app in Hout as [Hout|Hout].
  - left. unfold meta_track_of in Hout.
    destruct (meta_of abs) as [|e l] eqn:E; [by apply elem_of_nil in Hout|].
    apply list_elem_of_singleton in Hout. by split.
  - right. apply list_elem_of_In, in_flat_map in Hout as (i & Hi & Hout).
    apply in_seq in Hi. exists i. split; [lia|].
    unfold tracks_of_channel in Hout.
    destruct (bucket_of i abs) as [|e l] eqn:E; [done|].
    destruct Hout as [<-|[]]. by split.
Qed.

(** X7.  For a first track of non-negative delta times (and channels
    0..15), every track of the splitter's output has non-negative
    delta times and, read in absolute time, is either the meta entries
    of the original or the entries of one channel, in their original
    order and at their original ticks, followed by an end-of-track at
    the tick of the last of them. *)
Theorem convert_type0_to_type1_timing (mid : MidiFile)
  (original_track : Track) (others : list Track) :
  tracks mid = original_track :: others →
  channels_in_range original_track →
  nonneg_deltas original_track →
  let abs := get_abs_times original_track in
  ∃ new_mid,
    convert_type0_to_type1 mid = Returned new_mid
    ∧ Forall nonneg_deltas (tracks new_mid)
    ∧ ∀ out, out ∈ tracks new_mid →
        get_abs_times out = List.filter (λ e, is_meta e.2) abs
        ∨ ∃ i, (i < 16)%nat
               ∧ get_abs_times out
                 = List.filter (in_bucket i) abs
                   ++ [(last_tick 0 (List.filter (in_bucket i) abs),
                        end_of_track)].
Proof.
  intros Htracks Hrange Hnn abs.
  destruct (get_abs_times_from_ascending 0 _ Hnn) as [Hs Hge].
  fold (get_abs_times original_track) in Hs, Hge. fold abs in Hs, Hge.
  assert (Hz : Forall zero_timed abs) by apply get_abs_times_from_zero_timed.
  eexists. split;
    [by apply (convert_type0_to_type1_returns mid original_track others)|].
  cbn [tracks]. fold abs. split.
  - apply Forall_forall. intros out Hout.
    apply elem_of_split_tracks in Hout as [[_ ->]|(i & _ & _ & ->)].
    + apply to_relative_from_nonneg.
      * by apply StronglySorted_filter.
      * by apply Forall_List_filter.
    + apply Forall_app. split; [|by repeat constructor].
      apply to_relative_from_nonneg.
      * apply py_sort_fst_ascending.
      * apply py_sort_Forall. by apply Forall_List_filter.
  - intros out Hout.
    apply elem_of_split_tracks in Hout as [[_ ->]|(i & Hi & _ & ->)].
    + left. apply get_abs_times_to_relative. by apply Forall_List_filter.
    + right. exists i. split; [done|].
      apply (channel_track_abs (bucket_of i abs)).
      * by apply Forall_List_filter.
      * by apply StronglySorted_filter.
Qed.

Lemma sample_track_nonneg : nonneg_deltas sample_track.
Proof.
  unfold nonneg_deltas, sample_track.
  repeat (apply Forall_cons_2; [simpl; lia|]). apply Forall_nil_2.
Defined.

Lemma convert_type0_to_type1_timing_witness :
  ∃ new_mid,
    convert_type0_to_type1 sample_file = Returned new_mid
    ∧ Forall nonneg_deltas (tracks new_mid).
Proof.
  destruct (convert_type0_to_type1_timing sample_file sample_track []
              eq_refl sample_track_in_range sample_track_nonneg)
    as (new_mid & Hret & Hnn & _).
  by exists new_mid.
Defined.

(** ** What each output track of the splitter holds *)

Lemma count_if_app {A : Type} (p : A → bool) (l1 l2 : list A) :
  count_if p (l1 ++ l2) = count_if p l1 + count_if p l2.
Proof.
  induction l1 as [|x l1 IH]; simpl; [done|]. rewrite IH. apply Z.add_assoc.
Qed.

Lemma count_if_to_relative_from (p : Msg → bool) (a : Z)
  (l : list (Z * Msg)) :
  (∀ t msg, p (set_time t msg) = p msg) →
  count_if p (to_relative_from a l) = count_if (λ e, p e.2) l.
Proof.
  intros Hp. revert a; induction l as [|[t m] l IH]; intros a; simpl; [done|].
  by rewrite Hp, IH.
Qed.

Lemma count_if_get_abs_times_from (p : Msg → bool) (a : Z) (tr : Track) :
  (∀ t msg, p (set_time t msg) = p msg) →
  count_if (λ e, p e.2) (get_abs_times_from a tr) = count_if p tr.
Proof.
  intros Hp. revert a; induction tr as [|m tr IH]; intros a; simpl; [done|].
  by rewrite Hp, IH.
Qed.

Lemma count_if_filter {A : Type} (p f : A → bool) (l : list A) :
  count_if p (List.filter f l) = count_if (λ x, f x && p x) l.
Proof.
  induction l as [|x l IH]; simpl; [done|].
  destruct (f x); simpl; by rewrite IH.
Qed.

Lemma count_if_sort_insert {A : Type} (key : A → Z) (reverse : bool)
  (p : A → bool) (x : A) (l : list A) :
  count_if p (sort_insert key reverse x l) = count_if p (x :: l).
Proof.
  induction l as [|y l IH]; [done|]. cbn [sort_insert].
  destruct (key_le key reverse x y); [done|].
  cbn [count_if] in *. rewrite IH. clear. lia.
Qed.

Lemma count_if_py_sort {A : Type} (key : A → Z) (reverse : bool)
  (p : A → bool) (l : list A) :
  count_if p (py_sort key reverse l) = count_if p l.
Proof.
  induction l as [|x l IH]; [done|].
  cbn [py_sort foldr]. rewrite count_if_sort_insert.
  cbn [count_if]. fold (py_sort key reverse l). by rewrite IH.
Qed.

Lemma count_if_all {A : Type} (p : A → bool) (l : list A) :
  Forall (λ x, p x = true) l → count_if p l = Z.of_nat (length l).
Proof.
  induction 1 as [|x l Hx _ IH]; [done|].
  cbn [count_if length]. rewrite Hx, IH. clear. lia.
Qed.

Lemma count_if_none {A : Type} (p : A → bool) (l : list A) :
  Forall (λ x, p x = false) l → count_if p l = 0.
Proof.
  induction 1 as [|x l Hx _ IH]; [done|]. cbn [count_if]. by rewrite Hx, IH.
Qed.

Lemma is_meta_set_time (t : Z) (msg : Msg) :
  is_meta (set_time t msg) = is_meta msg.
Proof. done. Qed.

Lemma get_track_channel_first (msg : Msg) (c : Z) (rest : Track) :
  msg_channel msg = Some c → get_track_channel (msg :: rest) = c.
Proof. intros H. simpl. by rewrite H. Qed.

(** X8.  Every track of the splitter's output is either made of meta
    messages only (no events), or is the track of one channel [i] in
    0..15: its primary channel is [i], it has at least one event, and
    every non-meta message in it is on channel [i]. *)
Theorem convert_type0_to_type1_one_channel (mid : MidiFile)
  (original_track : Track) (others : list Track) :
  tracks mid = original_track :: others →
  channels_in_range original_track →
  ∃ new_mid,
    convert_type0_to_type1 mid = Returned new_mid
    ∧ ∀ out, out ∈ tracks new_mid →
        (Forall (λ msg, is_meta msg = true) out
         ∧ count_track_events out = 0)
        ∨ ∃ i, (i < 16)%nat
               ∧ get_track_channel out = Z.of_nat i
               ∧ 0 < count_track_events out
               ∧ ∀ msg, msg ∈ out → is_meta msg = false →
                        msg_channel msg = Some (Z.of_nat i).
Proof.
  intros Htracks Hrange.
  eexists. split;
    [by apply (convert_type0_to_type1_returns mid original_track others)|].
  cbn [tracks]. intros out Hout.
  set (abs := get_abs_times original_track) in *.
  apply elem_of_split_tracks in Hout as [[_ ->]|(i & Hi & Hne & ->)].
  - left.
    assert (Hall : Forall (λ msg, is_meta msg = true)
                          (to_relative (meta_of abs))).
    { apply Forall_forall. intros msg Hmsg.
      apply to_relative_from_elem in Hmsg as (e & He & Hb).
      rewrite (is_meta_body _ _ Hb). unfold meta_of in He.
      by apply list_elem_of_In, List.filter_In in He as [_ He]. }
    split; [done|]. unfold count_track_events. apply count_if_none.
    eapply Forall_impl; [exact Hall|]. intros msg ->. done.
  - right. exists i. split; [done|].
    assert (Hb : ∀ e, e ∈ py_sort fst false (bucket_of i abs) →
                 is_meta e.2 = false ∧ msg_channel e.2 = Some (Z.of_nat i)).
    { intros e He. rewrite py_sort_perm in He.
      by apply elem_of_bucket_of in He as [_ He]. }
    split; [|split].
    + destruct (py_sort fst false (bucket_of i abs)) as [|[t m] l] eqn:E.
      * exfalso. apply Hne. apply Permutation_nil.
        by rewrite <- (py_sort_perm fst false (bucket_of i abs)), E.
      * destruct (Hb (t, m)) as [_ Hc]; [by left|].
        unfold to_relative. cbn [to_relative_from app].
        by apply get_track_channel_first.
    + unfold count_track_events. rewrite count_if_app.
      unfold to_relative.
      rewrite (count_if_to_relative_from (λ msg, negb (is_meta msg))) by done.
      rewrite count_if_all.
      * cbn. assert (length (py_sort fst false (bucket_of i abs)) ≠ 0%nat).
        { rewrite (Permutation_length (py_sort_perm _ _ _)).
          destruct (bucket_of i abs); [done|]. simpl. done. }
        lia.
      * apply Forall_forall. intros e He.
        destruct (Hb e He) as [-> _]. done.
    + intros msg Hmsg Hmeta. apply elem_of_app in Hmsg as [Hmsg|Hmsg].
      * apply to_relative_from_elem in Hmsg as (e & He & Hbody).
        rewrite (msg_channel_body _ _ Hbody). by apply Hb.
      * apply list_elem_of_singleton in Hmsg. by subst msg.
Qed.

Lemma convert_type0_to_type1_one_channel_witness :
  ∃ new_mid,
    convert_type0_to_type1 sample_file = Returned new_mid
    ∧ ∀ out, out ∈ tracks new_mid →
        count_track_events out = 0
        ∨ ∃ i, (i < 16)%nat ∧ get_track_channel out = Z.of_nat i.
Proof.
  destruct (convert_type0_to_type1_one_channel sample_file sample_track []
              eq_refl sample_track_in_range)
    as (new_mid & Hret & Hall).
  exists new_mid. split; [done|]. intros out Hout.
  destruct (Hall out Hout) as [[_ H]|(i & Hi & Hc & _)]; [by left|].
  right. by exists i.
Defined.

(** ** Counts through the splitter *)

Lemma count_in_tracks_app (p : Msg → bool) (l1 l2 : list Track) :
  count_in_tracks p (l1 ++ l2) = count_in_tracks p l1 + count_in_tracks p l2.
Proof.
  unfold count_in_tracks. induction l1 as [|tr l1 IH]; simpl; [done|].
  rewrite IH. apply Z.add_assoc.
Qed.

Lemma on_channel_set_time (i : nat) (t : Z) (msg : Msg) :
  on_channel i (set_time t msg) = on_channel i msg.
Proof. done. Qed.

Lemma on_channel_not_meta (i : nat) (msg : Msg) :
  is_meta msg = true → on_channel i msg = false.
Proof. unfold on_channel. by intros ->. Qed.

Lemma on_channel_other (i j : nat) (msg : Msg) :
  i ≠ j → on_channel j msg = true → on_channel i msg = false.
Proof.
  unfold on_channel. intros Hij Hj.
  apply andb_true_iff in Hj as [Hm Hj]. apply bool_decide_eq_true in Hj.
  rewrite Hm, Hj. simpl. apply bool_decide_eq_false.
  intros H. inversion H. lia.
Qed.

(** What the track of channel [j] adds to the count on channel [i]. *)
Lemma count_tracks_of_channel (q : Msg → bool) (i j : nat)
  (abs : list (Z * Msg)) :
  (∀ t msg, q (set_time t msg) = q msg) →
  count_in_tracks (λ msg, q msg && on_channel i msg) (tracks_of_channel abs j)
  = if decide (j = i) then count_if (λ e, q e.2 && on_channel i e.2) abs
    else 0.
Proof.
  intros Hq.
  assert (Hcount :
    count_in_tracks (λ msg, q msg && on_channel i msg) (tracks_of_channel abs j)
    = count_if (λ e, in_bucket j e && (q e.2 && on_channel i e.2)) abs).
  { rewrite <- count_if_filter. fold (bucket_of j abs).
    unfold tracks_of_channel.
    destruct (bucket_of j abs) as [|e l] eqn:E; [done|].
    rewrite <- E. unfold count_in_tracks. cbn [foldr].
    rewrite Z.add_0_r, count_if_app. cbn [count_if].
    rewrite (on_channel_not_meta i end_of_track eq_refl), andb_false_r.
    unfold to_relative.
    rewrite (count_if_to_relative_from (λ msg, q msg && on_channel i msg))
      by (intros; by rewrite Hq).
    rewrite count_if_py_sort. by rewrite !Z.add_0_r. }
  rewrite Hcount. destruct (decide (j = i)) as [->|Hne].
  - apply count_if_ext. intros e.
    change (in_bucket i e) with (on_channel i e.2).
    destruct (on_channel i e.2); [done|]. by rewrite andb_false_r.
  - apply count_if_none, Forall_forall. intros e _.
    change (in_bucket j e) with (on_channel j e.2).
    destruct (on_channel j e.2) eqn:Hj; [|done].
    rewrite (on_channel_other i j) by done. by rewrite andb_false_r.
Qed.

Lemma count_in_channel_tracks (q : Msg → bool) (i : nat)
  (abs : list (Z * Msg)) (a n : nat) :
  (∀ t msg, q (set_time t msg) = q msg) →
  count_in_tracks (λ msg, q msg && on_channel i msg)
                  (flat_map (tracks_of_channel abs) (seq a n))
  = if decide (a ≤ i < a + n)%nat
    then count_if (λ e, q e.2 && on_channel i e.2) abs else 0.
Proof.
  intros Hq. revert a; induction n as [|n IH]; intros a.
  - simpl. destruct (decide (a ≤ i < a + 0)%nat); [lia|done].
  - cbn [seq flat_map]. rewrite count_in_tracks_app, IH.
    rewrite (count_tracks_of_channel q i a abs Hq).
    destruct (decide (a = i)) as [->|Hne].
    + destruct (decide (S i ≤ i < S i + n)%nat); [lia|].
      destruct (decide (i ≤ i < i + S n)%nat); [|lia]. apply Z.add_0_r.
    + destruct (decide (S a ≤ i < S a + n)%nat),
               (decide (a ≤ i < a + S n)%nat); try lia; done.
Qed.

(** X9.  The splitter keeps the count of every kind of message on
    every channel: for a test [q] of message content (one that does
    not look at the delta time) and a channel [i] in 0..15, the output
    tracks together hold as many non-meta messages on channel [i] that
    pass [q] as the original track does. *)
Theorem convert_type0_to_type1_counts (mid : MidiFile)
  (original_track : Track) (others : list Track)
  (q : Msg → bool) (i : nat) :
  tracks mid = original_track :: others →
  channels_in_range original_track →
  (∀ t msg, q (set_time t msg) = q msg) →
  (i < 16)%nat →
  ∃ new_mid,
    convert_type0_to_type1 mid = Returned new_mid
    ∧ count_in_tracks (λ msg, q msg && on_channel i msg) (tracks new_mid)
      = count_if (λ msg, q msg && on_channel i msg) original_track.
Proof.
  intros Htracks Hrange Hq Hi.
  eexists. split;
    [by apply (convert_type0_to_type1_returns mid original_track others)|].
  cbn [tracks]. set (abs := get_abs_times original_track).
  rewrite count_in_tracks_app, (count_in_channel_tracks q i abs 0 16 Hq).
  destruct (decide (0 ≤ i < 0 + 16)%nat); [|lia].
  assert (Hmeta : count_in_tracks (λ msg, q msg && on_channel i msg)
                                  (meta_track_of abs) = 0).
  { unfold meta_track_of. destruct (meta_of abs) as [|e l] eqn:E; [done|].
    rewrite <- E. unfold count_in_tracks. cbn [foldr]. rewrite Z.add_0_r.
    unfold to_relative.
    rewrite (count_if_to_relative_from (λ msg, q msg && on_channel i msg))
      by (intros; by rewrite Hq).
    apply count_if_none, Forall_forall. intros e' He'. unfold meta_of in He'.
    apply list_elem_of_In, List.filter_In in He' as [_ He'].
    rewrite (on_channel_not_meta i _ He'). apply andb_false_r. }
  rewrite Hmeta, Z.add_0_l. unfold abs, get_abs_times.
  apply (count_if_get_abs_times_from (λ msg, q msg && on_channel i msg)).
  intros. by rewrite Hq.
Qed.

Lemma convert_type0_to_type1_counts_witness :
  ∃ new_mid,
    convert_type0_to_type1 sample_file = Returned new_mid
    ∧ count_in_tracks (λ msg, is_note_on msg && on_channel 0 msg)
                      (tracks new_mid)
      = 1.
Proof.
  destruct (convert_type0_to_type1_counts sample_file sample_track []
              is_note_on 0 eq_refl sample_track_in_range)
    as (new_mid & Hret & Hcount); [done|lia|].
  exists new_mid. split; [done|]. rewrite Hcount. reflexivity.
Defined.

(** ** Drum merger: delta times and empty tracks *)

Lemma filtered_track5_ascending (p_abs s_abs : list (Z * Msg)) :
  Forall (λ e, 0 ≤ e.1) p_abs → Forall (λ e, 0 ≤ e.1) (filtered_track5 p_abs s_abs).
Proof. apply Forall_List_filter. Qed.

(** X10.  Merging two drum tracks of non-negative delta times gives a
    track of non-negative delta times. *)
Theorem merge_drum_tracks_nonneg (track5_msgs track6_msgs : list Msg) :
  nonneg_deltas track5_msgs → nonneg_deltas track6_msgs →
  nonneg_deltas (merge_drum_tracks track5_msgs track6_msgs).
Proof.
  intros H5 H6. unfold merge_drum_tracks, to_relative.
  destruct (get_abs_times_from_ascending 0 _ H5) as [_ Hge5].
  destruct (get_abs_times_from_ascending 0 _ H6) as [_ Hge6].
  apply to_relative_from_nonneg.
  - apply py_sort_fst_ascending.
  - apply py_sort_Forall, Forall_app. split; [|done].
    by apply filtered_track5_ascending.
Qed.

Lemma merge_drum_tracks_nonneg_witness :
  nonneg_deltas
    (merge_drum_tracks
       [mkMsg 480 (NoteOn 9 38 90); mkMsg 0 (NoteOn 9 42 100)]
       [mkMsg 240 (NoteOn 9 36 100); mkMsg 240 (NoteOn 9 38 100)]).
Proof.
  apply merge_drum_tracks_nonneg;
    repeat (apply Forall_cons_2; [simpl; lia|]); apply Forall_nil_2.
Defined.

Lemma filter_all {A : Type} (p : A → bool) (l : list A) :
  Forall (λ x, p x = true) l → List.filter p l = l.
Proof.
  induction 1 as [|x l Hx _ IH]; [done|]. simpl. by rewrite Hx, IH.
Qed.

(** X11.  With nothing to merge in, a drum track of non-negative delta
    times comes back as it is, from either side. *)
Theorem merge_drum_tracks_empty (msgs : list Msg) :
  nonneg_deltas msgs →
  merge_drum_tracks msgs [] = msgs ∧ merge_drum_tracks [] msgs = msgs.
Proof.
  intros Hnn. destruct (get_abs_times_from_ascending 0 _ Hnn) as [Hs _].
  unfold merge_drum_tracks, combined, to_relative, get_abs_times. split.
  - cbn [get_abs_times_from]. rewrite app_nil_r.
    unfold filtered_track5. rewrite filter_all.
    + rewrite (py_sort_ascending_id _ Hs).
      apply to_relative_from_get_abs_times_from.
    + apply Forall_forall. intros e _. unfold survives.
      destruct (is_onset e.2); [|done].
      apply negb_true_iff, bool_decide_eq_false.
      unfold track6_note_times. simpl. apply not_elem_of_empty.
  - cbn [get_abs_times_from filtered_track5 List.filter app].
    rewrite (py_sort_ascending_id _ Hs).
    apply to_relative_from_get_abs_times_from.
Qed.

Lemma merge_drum_tracks_empty_witness :
  let msgs := [mkMsg 480 (NoteOn 9 38 90); mkMsg 0 (NoteOn 9 42 100)] in
  merge_drum_tracks msgs [] = msgs ∧ merge_drum_tracks [] msgs = msgs.
Proof.
  intros msgs. apply (merge_drum_tracks_empty msgs).
  repeat (apply Forall_cons_2; [simpl; lia|]). apply Forall_nil_2.
Defined.

(** ** Combiner *)

Lemma copy_channel_Some (c : Z) (msg new_msg : Msg) :
  is_meta msg = false → copy_channel c msg = Some new_msg →
  new_msg = set_channel c msg
  ∧ is_meta new_msg = false ∧ msg_channel new_msg = Some c.
Proof.
  unfold copy_channel. intros Hm H.
  destruct msg as [t b]. destruct b; simpl in *; try done;
    inversion H; done.
Qed.

Lemma copy_melodic_part (c : Z) (msgs out : list Msg) :
  copy_melodic c msgs = Some out → melodic_part c out.
Proof.
  revert out; induction msgs as [|msg rest IH]; intros out H.
  - inversion H. constructor.
  - cbn [copy_melodic] in H. destruct (is_meta msg) eqn:Hm.
    + destruct (kept_meta_melodic msg) eqn:Hk; [|by apply IH].
      destruct (copy_melodic c rest) as [l|]; [|done].
      inversion H. constructor; [|by apply IH]. by rewrite Hm.
    + destruct (copy_channel c msg) as [new_msg|] eqn:Hc; [|done].
      destruct (copy_melodic c rest) as [l|]; [|done].
      inversion H. constructor; [|by apply IH].
      destruct (copy_channel_Some _ _ _ Hm Hc) as (_ & -> & ->). done.
Qed.

Lemma copy_drums_part (msgs out : list Msg) :
  copy_drums msgs = Some out → drum_part out.
Proof.
  revert out; induction msgs as [|msg rest IH]; intros out H.
  - inversion H. constructor.
  - cbn [copy_drums] in H. destruct (is_meta msg) eqn:Hm; cbn [negb orb] in H.
    + destruct (negb (meta_is "end_of_track" msg)
                && negb (meta_is "set_tempo" msg)) eqn:Hk; [|by apply IH].
      destruct (copy_drums rest) as [l|]; [|done].
      inversion H. constructor; [|by apply IH]. rewrite Hm.
      apply andb_true_iff in Hk as [Ha Hb].
      by apply negb_true_iff in Ha, Hb.
    + destruct (copy_channel 9 msg) as [new_msg|] eqn:Hc; [|done].
      destruct (copy_drums rest) as [l|]; [|done].
      inversion H. constructor; [|by apply IH].
      destruct (copy_channel_Some _ _ _ Hm Hc) as (_ & -> & ->). done.
Qed.

Lemma meta_is_body (kind : string) (m m' : Msg) :
  body m = body m' → meta_is kind m = meta_is kind m'.
Proof. unfold meta_is. by intros ->. Qed.

(** Every message of a merged track has the content of a message of
    one of the two tracks merged. *)
Lemma merge_drum_tracks_bodies (track5_msgs track6_msgs : list Msg)
  (msg : Msg) :
  msg ∈ merge_drum_tracks track5_msgs track6_msgs →
  ∃ m, (m ∈ track5_msgs ∨ m ∈ track6_msgs) ∧ body msg = body m.
Proof.
  intros Hmsg. apply to_relative_from_elem in Hmsg as (e & He & Hb).
  unfold combined in He. rewrite py_sort_perm in He.
  apply elem_of_app in He as [He|He].
  - unfold filtered_track5 in He.
    apply list_elem_of_In, List.filter_In in He as [He _].
    apply list_elem_of_In, get_abs_times_from_elem in He as (m & Hm & Hbm).
    exists m. split; [by left|]. by rewrite Hb, Hbm.
  - apply get_abs_times_from_elem in He as (m & Hm & Hbm).
    exists m. split; [by right|]. by rewrite Hb, Hbm.
Qed.

Lemma merge_drum_tracks_drum_part (track5_msgs track6_msgs : list Msg) :
  drum_part track5_msgs → drum_part track6_msgs →
  drum_part (merge_drum_tracks track5_msgs track6_msgs).
Proof.
  unfold drum_part. rewrite !Forall_forall. intros H5 H6 msg Hmsg.
  apply merge_drum_tracks_bodies in Hmsg as (m & Hm & Hb).
  rewrite (is_meta_body _ _ Hb), (meta_is_body _ _ _ Hb),
          (meta_is_body _ _ _ Hb), (msg_channel_body _ _ Hb).
  destruct Hm as [Hm|Hm]; [by apply H5|by apply H6].
Qed.

Lemma load_melodic_Done (folder : Z → option MidiFile) (numbers : list Z)
  (new_tracks : list Track) :
  load_melodic folder numbers = Done new_tracks →
  Forall2 (λ i tr, ∃ copied, tr = track_name (ch_name i)
                                  :: copied ++ [end_of_track]
                             ∧ melodic_part (i - 1) copied)
          numbers new_tracks.
Proof.
  revert new_tracks; induction numbers as [|i rest IH]; intros new_tracks H.
  - inversion H. constructor.
  - cbn [load_melodic] in H. destruct (folder i) as [f|]; [|done].
    unfold melodic_track in H.
    destruct (copy_melodic (i - 1) (concat (tracks f))) as [copied|] eqn:Hc;
      [|done].
    cbn in H. destruct (load_melodic folder rest) as [trs|]; [|done].
    inversion H. constructor; [|by apply IH].
    exists copied. split; [done|]. by apply copy_melodic_part in Hc.
Qed.

(** X12.  A file that [combine_midi_files] returns is a format-1 file
    with the ticks per beat of ["1.mid"] and six tracks: the tempo
    track (the given tempo, end-of-track); for [i] = 1..4 a track that
    opens with the name [CHi], closes with an end-of-track, and
    between them holds non-meta messages on channel [i - 1] only and
    no end-of-track, tempo or track-name event of the source; and the
    drum track, named [CH10] and closed likewise, whose non-meta
    messages are all on channel 9 and which holds no end-of-track or
    tempo event of the sources. *)
Theorem combine_midi_files_layout (folder : Z → option MidiFile)
  (tempo : Z) (output_midi : MidiFile) :
  combine_midi_files folder tempo = Done output_midi →
  type output_midi = 1
  ∧ (∃ first_file, folder 1 = Some first_file
                   ∧ ticks_per_beat output_midi = ticks_per_beat first_file)
  ∧ ∃ in1 in2 in3 in4 drums,
      tracks output_midi
      = [[set_tempo tempo; end_of_track];
         track_name (ch_name 1) :: in1 ++ [end_of_track];
         track_name (ch_name 2) :: in2 ++ [end_of_track];
         track_name (ch_name 3) :: in3 ++ [end_of_track];
         track_name (ch_name 4) :: in4 ++ [end_of_track];
         track_name ch10_name :: drums ++ [end_of_track]]
      ∧ melodic_part 0 in1 ∧ melodic_part 1 in2
      ∧ melodic_part 2 in3 ∧ melodic_part 3 in4
      ∧ drum_part drums.
Proof.
  unfold combine_midi_files. intros H.
  destruct (folder 1) as [first_file|] eqn:E1; [|done].
  destruct (tempo_ok tempo); [|done]. cbn [negb] in H.
  destruct (load_melodic folder [1; 2; 3; 4]) as [melodic|] eqn:Hmel; [|done].
  destruct (load_drums folder 5) as [track5_msgs|] eqn:H5; [|done].
  destruct (load_drums folder 6) as [track6_msgs|] eqn:H6; [|done].
  inversion H; subst output_midi; clear H. split; [done|].
  split; [by exists first_file|].
  apply load_melodic_Done in Hmel.
  inversion Hmel as [|? t1 ? ? (in1 & -> & P1) Hmel1]; subst.
  inversion Hmel1 as [|? t2 ? ? (in2 & -> & P2) Hmel2]; subst.
  inversion Hmel2 as [|? t3 ? ? (in3 & -> & P3) Hmel3]; subst.
  inversion Hmel3 as [|? t4 ? ? (in4 & -> & P4) Hmel4]; subst.
  inversion Hmel4; subst.
  exists in1, in2, in3, in4, (merge_drum_tracks track5_msgs track6_msgs).
  split; [done|]. repeat (split; [done|]).
  apply merge_drum_tracks_drum_part.
  - unfold load_drums in H5. destruct (folder 5) as [f|]; [|done].
    destruct (copy_drums (concat (tracks f))) as [l|] eqn:Hc; [|done].
    inversion H5; subst. by apply copy_drums_part in Hc.
  - unfold load_drums in H6. destruct (folder 6) as [f|]; [|done].
    destruct (copy_drums (concat (tracks f))) as [l|] eqn:Hc; [|done].
    inversion H6; subst. by apply copy_drums_part in Hc.
Qed.

Lemma combine_midi_files_layout_witness :
  ∃ output_midi,
    combine_midi_files sample_folder 500000 = Done output_midi
    ∧ type output_midi = 1
    ∧ length (tracks output_midi) = 6%nat.
Proof.
  destruct (combine_midi_files sample_folder 500000) as [output_midi|e] eqn:E;
    [|vm_compute in E; discriminate].
  exists output_midi. split; [done|].
  destruct (combine_midi_files_layout sample_folder 500000 output_midi E)
    as (Htype & _ & in1 & in2 & in3 & in4 & drums & Htracks & _).
  split; [done|]. by rewrite Htracks.
Defined.

(** The sample folder, combined: the drum track holds the first hit of
    either file and, of the two snare hits at tick 480, that of file 6
    only. *)
Example combine_midi_files_sample :
  (λ r, match r with
        | Done output_midi => Some (last (tracks output_midi))
        | Failed _ => None
        end) (combine_midi_files sample_folder 500000)
  = Some (Some [mkMsg 0 (Meta "track_name" None [67; 72; 49; 48]);
                mkMsg 0 (NoteOn 9 42 100);
                mkMsg 0 (NoteOn 9 36 100);
                mkMsg 480 (NoteOn 9 38 100);
                mkMsg 0 (Meta "end_of_track" None [])]).
Proof. vm_compute. reflexivity. Qed.

Lemma copy_melodic_copyable (c : Z) (msgs : list Msg) :
  copyable msgs → ∃ out, copy_melodic c msgs = Some out.
Proof.
  induction 1 as [|msg rest Hmsg _ [out IH]]; [by exists []|].
  cbn [copy_melodic]. rewrite IH. destruct (is_meta msg) eqn:Hm.
  - destruct (kept_meta_melodic msg); by eexists.
  - specialize (Hmsg eq_refl). unfold copy_channel.
    destruct (msg_channel msg); [by eexists|done].
Qed.

Lemma copy_drums_copyable (msgs : list Msg) :
  copyable msgs → ∃ out, copy_drums msgs = Some out.
Proof.
  induction 1 as [|msg rest Hmsg _ [out IH]]; [by exists []|].
  cbn [copy_drums]. rewrite IH. destruct (is_meta msg) eqn:Hm; cbn [negb orb].
  - destruct (negb (meta_is "end_of_track" msg)
              && negb (meta_is "set_tempo" msg)); by eexists.
  - specialize (Hmsg eq_refl). unfold copy_channel.
    destruct (msg_channel msg); [by eexists|done].
Qed.

Lemma melodic_track_copyable (i : Z) (midi_file : MidiFile) :
  copyable (concat (tracks midi_file)) →
  ∃ new_track, melodic_track i midi_file = Some new_track.
Proof.
  intros H. unfold melodic_track.
  destruct (copy_melodic_copyable (i - 1) _ H) as [out ->]. by eexists.
Qed.

Lemma file_number_cases (i : Z) :
  1 ≤ i ≤ 6 → i = 1 ∨ i = 2 ∨ i = 3 ∨ i = 4 ∨ i = 5 ∨ i = 6.
Proof. lia. Qed.

Ltac first_missing :=
  split; [lia|]; split; [done|]; split; [|by (left + right)];
  let j := fresh "j" in let Hj := fresh "Hj" in
  intros j Hj;
  assert (Hcases : 1 ≤ j ≤ 6) by lia;
  apply file_number_cases in Hcases;
  repeat (destruct Hcases as [Hcases|Hcases]; [subst j; try congruence; lia|]);
  subst j; try congruence; lia.

Lemma tempo_ok_range (tempo : Z) :
  tempo_ok tempo = true ↔ 0 ≤ tempo ≤ 16777215.
Proof. unfold tempo_ok. rewrite andb_true_iff, !Z.leb_le. done. Qed.

(** X13.  When none of the files present holds a non-meta message
    without a channel, the outcome of [combine_midi_files] is settled
    by the folder and the tempo.  It returns a file exactly when
    ["1.mid"] to ["6.mid"] are all there and the tempo fits the three
    bytes of a tempo event (0..16777215); it raises [ValueError] when
    ["1.mid"] is there and the tempo does not fit; and otherwise it
    raises [FileNotFoundError] for the lowest-numbered file that is
    missing. *)
Theorem combine_midi_files_outcome (folder : Z → option MidiFile)
  (tempo : Z) :
  (∀ i f, folder i = Some f → copyable (concat (tracks f))) →
  match combine_midi_files folder tempo with
  | Done _ =>
      0 ≤ tempo ≤ 16777215 ∧ ∀ i, 1 ≤ i ≤ 6 → folder i ≠ None
  | Failed (FileNotFoundError i) =>
      1 ≤ i ≤ 6 ∧ folder i = None
      ∧ (∀ j, 1 ≤ j < i → folder j ≠ None)
      ∧ (i = 1 ∨ 0 ≤ tempo ≤ 16777215)
  | Failed ValueError =>
      folder 1 ≠ None ∧ ¬ (0 ≤ tempo ≤ 16777215)
  end.
Proof.
  intros Hc. unfold combine_midi_files. cbn [load_melodic].
  destruct (folder 1) as [f1|] eqn:E1; [|first_missing].
  destruct (tempo_ok tempo) eqn:Htempo; cbn [negb].
  2:{ split; [done|]. rewrite <- tempo_ok_range. congruence. }
  apply tempo_ok_range in Htempo.
  destruct (melodic_track_copyable 1 f1 (Hc _ _ E1)) as [t1 ->].
  destruct (folder 2) as [f2|] eqn:E2; [|first_missing].
  destruct (melodic_track_copyable 2 f2 (Hc _ _ E2)) as [t2 ->].
  destruct (folder 3) as [f3|] eqn:E3; [|first_missing].
  destruct (melodic_track_copyable 3 f3 (Hc _ _ E3)) as [t3 ->].
  destruct (folder 4) as [f4|] eqn:E4; [|first_missing].
  destruct (melodic_track_copyable 4 f4 (Hc _ _ E4)) as [t4 ->].
  unfold load_drums.
  destruct (folder 5) as [f5|] eqn:E5; [|first_missing].
  destruct (copy_drums_copyable _ (Hc _ _ E5)) as [l5 ->].
  destruct (folder 6) as [f6|] eqn:E6; [|first_missing].
  destruct (copy_drums_copyable _ (Hc _ _ E6)) as [l6 ->].
  split; [done|].
  intros i Hi. apply file_number_cases in Hi.
  repeat (destruct Hi as [Hi|Hi]; [subst i; congruence|]).
  subst i; congruence.
Qed.

Lemma sample_folder_copyable (i : Z) (f : MidiFile) :
  sample_folder i = Some f → copyable (concat (tracks f)).
Proof.
  unfold sample_folder.
  destruct ((1 <=? i) && (i <=? 4));
    [|destruct (i =? 5); [|destruct (i =? 6); [|done]]];
    intros H; inversion H; subst f; unfold copyable; simpl;
    repeat (apply Forall_cons_2; [simpl; done|]); apply Forall_nil_2.
Defined.

Lemma combine_midi_files_outcome_witness :
  (∃ output_midi,
     combine_midi_files sample_folder 500000 = Done output_midi
     ∧ sample_folder 6 ≠ None)
  ∧ combine_midi_files sample_folder 60000000 = Failed ValueError.
Proof.
  split.
  - pose proof (combine_midi_files_outcome sample_folder 500000
                  sample_folder_copyable) as Hout.
    destruct (combine_midi_files sample_folder 500000) as [out|e] eqn:E;
      [|vm_compute in E; discriminate].
    exists out. split; [done|]. apply Hout. lia.
  - pose proof (combine_midi_files_outcome sample_folder 60000000
                  sample_folder_copyable) as Hout.
    destruct (combine_midi_files sample_folder 60000000) as [out|[i|]] eqn:E.
    + exfalso. clear -Hout. lia.
    + exfalso. destruct Hout as (_ & _ & _ & [Hi|Hi]); [|clear -Hi; lia].
      vm_compute in E. congruence.
    + done.
Defined.

Lemma copy_melodic_refused (c : Z) (msgs : list Msg) (msg : Msg) :
  msg ∈ msgs → is_meta msg = false → msg_channel msg = None →
  copy_melodic c msgs = None.
Proof.
  intros Hin Hm Hc. induction msgs as [|m rest IH]; [by inversion Hin|].
  cbn [copy_melodic]. apply elem_of_cons in Hin as [<-|Hin].
  - rewrite Hm. unfold copy_channel. by rewrite Hc.
  - rewrite (IH Hin). destruct (is_meta m).
    + by destruct (kept_meta_melodic m).
    + by destruct (copy_channel c m).
Qed.

Lemma copy_drums_refused (msgs : list Msg) (msg : Msg) :
  msg ∈ msgs → is_meta msg = false → msg_channel msg = None →
  copy_drums msgs = None.
Proof.
  intros Hin Hm Hc. induction msgs as [|m rest IH]; [by inversion Hin|].
  cbn [copy_drums]. apply elem_of_cons in Hin as [<-|Hin].
  - rewrite Hm. cbn [negb orb]. unfold copy_channel. by rewrite Hc.
  - rewrite (IH Hin).
    destruct (negb (is_meta m)
              || negb (meta_is "end_of_track" m)
                 && negb (meta_is "set_tempo" m)); [|done].
    destruct (is_meta m); [done|]. by destruct (copy_channel 9 m).
Qed.

Ltac melodic_ok Hprev j :=
  let g := fresh "g" in let Eg := fresh "Eg" in let Hg := fresh "Hg" in
  let t := fresh "t" in let Et := fresh "Et" in
  destruct (Hprev j) as (g & Eg & Hg); [lia|];
  rewrite ?Eg;
  destruct (melodic_track_copyable j g Hg) as [t Et]; rewrite ?Et.

Ltac drums_ok Hprev j :=
  let g := fresh "g" in let Eg := fresh "Eg" in let Hg := fresh "Hg" in
  let l := fresh "l" in let El := fresh "El" in
  destruct (Hprev j) as (g & Eg & Hg); [lia|];
  rewrite ?Eg;
  destruct (copy_drums_copyable _ Hg) as [l El]; rewrite ?El.

(** X14.  A non-meta message without a channel (a system-exclusive
    message, say) in one of the six files makes [combine_midi_files]
    fail with [ValueError], provided the files numbered below it are
    there and hold no such message. *)
Theorem combine_midi_files_refused (folder : Z → option MidiFile)
  (tempo i : Z) (f : MidiFile) (msg : Msg) :
  1 ≤ i ≤ 6 → folder i = Some f →
  msg ∈ concat (tracks f) → is_meta msg = false → msg_channel msg = None →
  (∀ j, 1 ≤ j < i → ∃ g, folder j = Some g ∧ copyable (concat (tracks g))) →
  combine_midi_files folder tempo = Failed ValueError.
Proof.
  intros Hi Hf Hin Hm Hc Hprev.
  pose proof (copy_melodic_refused (i - 1) _ _ Hin Hm Hc) as Hmel.
  pose proof (copy_drums_refused _ _ Hin Hm Hc) as Hdr.
  unfold combine_midi_files. cbn [load_melodic]. unfold load_drums.
  apply file_number_cases in Hi.
  destruct Hi as [-> | [-> | [-> | [-> | [-> | ->]]]]].
  - rewrite Hf. destruct (tempo_ok tempo); [|done]. cbn [negb].
    unfold melodic_track. by rewrite Hmel.
  - melodic_ok Hprev 1. destruct (tempo_ok tempo); [|done]. cbn [negb].
    rewrite Hf. unfold melodic_track. by rewrite Hmel.
  - melodic_ok Hprev 1. destruct (tempo_ok tempo); [|done]. cbn [negb].
    melodic_ok Hprev 2.
    rewrite Hf. unfold melodic_track. by rewrite Hmel.
  - melodic_ok Hprev 1. destruct (tempo_ok tempo); [|done]. cbn [negb].
    melodic_ok Hprev 2. melodic_ok Hprev 3.
    rewrite Hf. unfold melodic_track. by rewrite Hmel.
  - melodic_ok Hprev 1. destruct (tempo_ok tempo); [|done]. cbn [negb].
    melodic_ok Hprev 2. melodic_ok Hprev 3.
    melodic_ok Hprev 4. rewrite Hf. by rewrite Hdr.
  - melodic_ok Hprev 1. destruct (tempo_ok tempo); [|done]. cbn [negb].
    melodic_ok Hprev 2. melodic_ok Hprev 3.
    melodic_ok Hprev 4. drums_ok Hprev 5. rewrite Hf. by rewrite Hdr.
Qed.

Lemma combine_midi_files_refused_witness :
  combine_midi_files sample_folder_sysex 500000 = Failed ValueError.
Proof.
  apply (combine_midi_files_refused sample_folder_sysex 500000 3 sample_file
           (mkMsg 5 (System "sysex" [126; 127; 9; 1]))).
  - lia.
  - reflexivity.
  - simpl. do 3 right. left.
  - reflexivity.
  - reflexivity.
  - intros j Hj. assert (j = 1 ∨ j = 2) as [-> | ->] by lia.
    + exists (sample_part 0 60). split; [reflexivity|].
      by apply (sample_folder_copyable 1).
    + exists (sample_part 0 61). split; [reflexivity|].
      by apply (sample_folder_copyable 2).
Defined.

(** ** Ticks through the combiner *)

Lemma duration_last_tick (a : Z) (tr : Track) :
  a + duration tr = last_tick a (get_abs_times_from a tr).
Proof.
  revert a; induction tr as [|m tr IH]; intros a.
  - unfold duration. simpl. apply Z.add_0_r.
  - rewrite duration_cons. cbn [get_abs_times_from last_tick fst].
    rewrite <- IH. apply Z.add_assoc.
Qed.

Lemma copy_melodic_abs (c : Z) (msgs out : list Msg) (a : Z) :
  copy_melodic c msgs = Some out →
  Forall (λ msg, kept_melodic msg = false → time msg = 0) msgs →
  get_abs_times_from a out
  = map (λ e, (e.1, to_channel c e.2))
        (List.filter (λ e, kept_melodic e.2) (get_abs_times_from a msgs)).
Proof.
  intros Hcopy Hdrop. revert out a Hcopy.
  induction Hdrop as [|msg rest Hmsg _ IH]; intros out a Hcopy.
  - by inversion Hcopy.
  - cbn [copy_melodic] in Hcopy. cbn [get_abs_times_from List.filter].
    change (kept_melodic (a + time msg, set_time 0 msg).2)
      with (kept_melodic msg).
    unfold kept_melodic in *. destruct (is_meta msg) eqn:Hm; cbn [negb orb] in *.
    + destruct (kept_meta_melodic msg) eqn:Hk.
      * destruct (copy_melodic c rest) as [l|] eqn:Hl; [|done].
        inversion Hcopy; subst out. cbn [get_abs_times_from map].
        rewrite (IH l _ eq_refl). f_equal. unfold to_channel. simpl.
        change (is_meta (set_time 0 msg)) with (is_meta msg).
        by rewrite Hm.
      * rewrite (Hmsg eq_refl), Z.add_0_r. by apply IH.
    + destruct (copy_channel c msg) as [new_msg|] eqn:Hc; [|done].
      destruct (copy_melodic c rest) as [l|] eqn:Hl; [|done].
      inversion Hcopy; subst out.
      destruct (copy_channel_Some _ _ _ Hm Hc) as (-> & _ & _).
      cbn [get_abs_times_from map]. rewrite (IH l _ eq_refl).
      f_equal. unfold to_channel. simpl.
      change (is_meta (set_time 0 msg)) with (is_meta msg).
      by rewrite Hm.
Qed.

(** X15.  When the end-of-track, tempo and track-name events of a
    source file all have delta time 0, the track built from it keeps
    every copied message at its absolute tick: read in absolute time
    it is the track name at tick 0, then the copied entries of the
    source (non-meta ones set to channel [i - 1]) at their ticks, then
    an end-of-track at the tick of the last of them. *)
Theorem melodic_track_ticks (i : Z) (midi_file : MidiFile)
  (new_track : Track) :
  melodic_track i midi_file = Some new_track →
  Forall (λ msg, kept_melodic msg = false → time msg = 0)
         (concat (tracks midi_file)) →
  let copied :=
    map (λ e, (e.1, to_channel (i - 1) e.2))
        (List.filter (λ e, kept_melodic e.2)
                     (get_abs_times (concat (tracks midi_file)))) in
  get_abs_times new_track
  = (0, track_name (ch_name i)) :: copied
    ++ [(last_tick 0 copied, end_of_track)].
Proof.
  intros Htrack Hdrop copied. unfold melodic_track in Htrack.
  destruct (copy_melodic (i - 1) (concat (tracks midi_file))) as [out|] eqn:Hc;
    [|done].
  cbn in Htrack. inversion Htrack; subst new_track.
  pose proof (copy_melodic_abs _ _ _ 0 Hc Hdrop) as Habs.
  fold (get_abs_times (concat (tracks midi_file))) in Habs. fold copied in Habs.
  unfold get_abs_times at 1. cbn [get_abs_times_from]. f_equal.
  change (0 + time (track_name (ch_name i))) with 0.
  rewrite get_abs_times_from_app, Habs. f_equal.
  cbn [get_abs_times_from]. rewrite duration_last_tick, Habs.
  by rewrite Z.add_0_r.
Qed.

Lemma melodic_track_ticks_witness :
  ∃ new_track,
    melodic_track 2 (sample_part 0 61) = Some new_track
    ∧ get_abs_times new_track
      = [(0, track_name (ch_name 2));
         (0, mkMsg 0 (NoteOn 1 61 100));
         (480, mkMsg 0 (NoteOff 1 61 0));
         (480, end_of_track)].
Proof.
  eexists. split; [reflexivity|].
  rewrite (melodic_track_ticks 2 (sample_part 0 61) _ eq_refl); [reflexivity|].
  simpl. repeat (apply Forall_cons_2; [simpl; done|]). apply Forall_nil_2.
Defined.

(** ** Note quantizer *)

Lemma py_min_from_spec (key : Z → Z) (best : Z) (l : list Z) :
  key (py_min_from key best l) ≤ key best
  ∧ (∀ a, a ∈ l → key (py_min_from key best l) ≤ key a)
  ∧ (py_min_from key best l = best
     ∨ ∃ i, l !! i = Some (py_min_from key best l)
            ∧ key (py_min_from key best l) < key best
            ∧ ∀ j a, (j < i)%nat → l !! j = Some a →
                     key (py_min_from key best l) < key a).
Proof.
  revert best; induction l as [|x rest IH]; intros best.
  - simpl. split; [lia|]. split; [|by left].
    intros a Ha. by apply elem_of_nil in Ha.
  - cbn [py_min_from].
    set (best' := if key x <? key best then x else best).
    destruct (IH best') as (Hle & Hall & Hwhich).
    set (m := py_min_from key best' rest) in *.
    assert (Hb : key best' ≤ key best ∧ key best' ≤ key x).
    { unfold best'. destruct (Z.ltb_spec (key x) (key best)); lia. }
    split; [lia|]. split.
    + intros a Ha. apply elem_of_cons in Ha as [->|Ha]; [lia|by apply Hall].
    + destruct Hwhich as [Hm|(i & Hi & Hlt & Hfirst)].
      * unfold best' in Hm. destruct (Z.ltb_spec (key x) (key best)).
        -- right. exists 0%nat. split; [by rewrite Hm|].
           split; [rewrite Hm; lia|]. intros j a Hj. lia.
        -- by left.
      * right. exists (S i). split; [done|]. split; [lia|].
        intros j a Hj Ha. destruct j as [|j].
        -- inversion Ha; subst a. lia.
        -- apply (Hfirst j a); [lia|done].
Qed.

Lemma py_min_spec (key : Z → Z) (l : list Z) (m : Z) :
  py_min key l = Some m →
  ∃ i, l !! i = Some m
       ∧ (∀ a, a ∈ l → key m ≤ key a)
       ∧ ∀ j a, (j < i)%nat → l !! j = Some a → key m < key a.
Proof.
  destruct l as [|x rest]; [done|]. intros H. inversion H as [Hm].
  destruct (py_min_from_spec key x rest) as (Hle & Hall & Hwhich).
  rewrite Hm in *.
  destruct Hwhich as [->|(i & Hi & Hlt & Hfirst)].
  - exists 0%nat. split; [done|]. split.
    + intros a Ha. apply elem_of_cons in Ha as [->|Ha]; [lia|by apply Hall].
    + intros j a Hj. lia.
  - exists (S i). split; [done|]. split.
    + intros a Ha. apply elem_of_cons in Ha as [->|Ha]; [lia|by apply Hall].
    + intros j a Hj Ha. destruct j as [|j].
      * inversion Ha; subst a. lia.
      * apply (Hfirst j a); [lia|done].
Qed.

(** X16.  [get_closest_note] raises (the [ValueError] of [min]) exactly
    when no note is allowed.  Otherwise it returns the note of the
    same octave number ([midi_note // 12]) whose offset is the allowed
    value nearest to [midi_note % 12], the first such value in list
    order when several are equally near. *)
Theorem get_closest_note_nearest (midi_note : Z) (allowed_notes : list Z) :
  match get_closest_note midi_note allowed_notes with
  | None => allowed_notes = []
  | Some quantized =>
      ∃ i closest,
        allowed_notes !! i = Some closest
        ∧ quantized = midi_note / 12 * 12 + closest
        ∧ (∀ a, a ∈ allowed_notes →
                Z.abs (closest - midi_note mod 12)
                ≤ Z.abs (a - midi_note mod 12))
        ∧ (∀ j a, (j < i)%nat → allowed_notes !! j = Some a →
                  Z.abs (closest - midi_note mod 12)
                  < Z.abs (a - midi_note mod 12))
  end.
Proof.
  unfold get_closest_note.
  destruct (py_min (λ x, Z.abs (x - midi_note mod 12)) allowed_notes)
    as [closest|] eqn:Hmin.
  - cbn. apply py_min_spec in Hmin as (i & Hi & Hall & Hfirst).
    by exists i, closest.
  - cbn. destruct allowed_notes; [done|]. discriminate.
Qed.

Lemma get_closest_note_Some (midi_note : Z) (allowed_notes : list Z)
  (quantized : Z) :
  get_closest_note midi_note allowed_notes = Some quantized →
  ∃ closest,
    closest ∈ allowed_notes
    ∧ quantized = midi_note / 12 * 12 + closest
    ∧ ∀ a, a ∈ allowed_notes →
           Z.abs (closest - midi_note mod 12) ≤ Z.abs (a - midi_note mod 12).
Proof.
  unfold get_closest_note. intros H.
  destruct (py_min (λ x, Z.abs (x - midi_note mod 12)) allowed_notes)
    as [closest|] eqn:Hmin; [|done].
  cbn in H. inversion H.
  apply py_min_spec in Hmin as (i & Hi & Hall & _).
  exists closest. split; [by apply list_elem_of_lookup_2 in Hi|done].
Qed.

Lemma octave_offset (octave closest : Z) :
  0 ≤ closest < 12 →
  (octave * 12 + closest) / 12 = octave
  ∧ (octave * 12 + closest) mod 12 = closest.
Proof.
  intros Hc. rewrite Z.add_comm. split.
  - rewrite Z.div_add by done. rewrite Z.div_small by done. done.
  - rewrite Z.mod_add by done. by apply Z.mod_small.
Qed.

(** A note whose offset in the octave is allowed is its own closest
    note. *)
Lemma get_closest_note_fixed (midi_note : Z) (allowed_notes : list Z) :
  midi_note mod 12 ∈ allowed_notes →
  get_closest_note midi_note allowed_notes = Some midi_note.
Proof.
  intros Hin.
  destruct (get_closest_note midi_note allowed_notes) as [q|] eqn:Hq.
  - apply get_closest_note_Some in Hq as (c & Hc & -> & Hmin).
    specialize (Hmin _ Hin). rewrite Z.sub_diag in Hmin.
    assert (c = midi_note mod 12) as -> by lia.
    f_equal. pose proof (Z.div_mod midi_note 12). lia.
  - unfold get_closest_note in Hq. destruct allowed_notes; [|done].
    by apply elem_of_nil in Hin.
Qed.

Lemma get_closest_note_scale (midi_note : Z) (allowed_notes : list Z)
  (quantized : Z) :
  Forall (λ a, 0 ≤ a < 12) allowed_notes →
  get_closest_note midi_note allowed_notes = Some quantized →
  quantized / 12 = midi_note / 12
  ∧ quantized mod 12 ∈ allowed_notes
  ∧ Z.abs (quantized - midi_note) ≤ 11
  ∧ get_closest_note quantized allowed_notes = Some quantized.
Proof.
  intros Hrange Hq.
  apply get_closest_note_Some in Hq as (c & Hc & -> & _).
  rewrite Forall_forall in Hrange. pose proof (Hrange c Hc) as Hc12.
  destruct (octave_offset (midi_note / 12) c Hc12) as [Hdiv Hmod].
  split; [done|]. split; [by rewrite Hmod|]. split.
  - pose proof (Z.div_mod midi_note 12).
    pose proof (Z.mod_pos_bound midi_note 12). clear -H H0 Hc12. lia.
  - apply get_closest_note_fixed. by rewrite Hmod.
Qed.

(** X17.  With allowed offsets in 0..11, the note returned by
    [get_closest_note] has the octave number of the given note, an
    allowed offset, lies at most 11 semitones away, and is its own
    closest note (quantizing twice changes nothing more). *)
Theorem get_closest_note_in_scale (midi_note : Z) (allowed_notes : list Z)
  (quantized : Z) :
  Forall (λ a, 0 ≤ a < 12) allowed_notes →
  get_closest_note midi_note allowed_notes = Some quantized →
  quantized / 12 = midi_note / 12
  ∧ quantized mod 12 ∈ allowed_notes
  ∧ Z.abs (quantized - midi_note) ≤ 11
  ∧ get_closest_note quantized allowed_notes = Some quantized.
Proof. apply get_closest_note_scale. Qed.

Lemma get_closest_note_in_scale_witness :
  get_closest_note 61 [0; 4; 7] = Some 60
  ∧ 60 / 12 = 61 / 12
  ∧ 60 mod 12 ∈ [0; 4; 7]
  ∧ Z.abs (60 - 61) ≤ 11
  ∧ get_closest_note 60 [0; 4; 7] = Some 60.
Proof.
  split; [reflexivity|].
  apply (get_closest_note_in_scale 61 [0; 4; 7] 60); [|reflexivity].
  repeat (apply Forall_cons_2; [lia|]). apply Forall_nil_2.
Defined.

Lemma quantize_msg_quantized (allowed_notes : list Z) (msg msg' : Msg)
  (k : Z) :
  Forall (λ a, 0 ≤ a < 12) allowed_notes →
  quantize_msg allowed_notes msg = Some (msg', k) →
  quantized_from allowed_notes msg msg'
  ∧ k = (if bool_decide (msg = msg') then 0 else 1)
  ∧ quantize_msg allowed_notes msg' = Some (msg', 0).
Proof.
  intros Hrange. unfold quantize_msg, quantized_from, quantizable.
  assert (Hsame : ∀ m : Msg, (if bool_decide (m = m) then 0 else 1) = 0).
  { intros m. by rewrite bool_decide_eq_true_2. }
  destruct msg as [t b].
  destruct b as [c n v|c n v| | | | |]; cbn [body];
    try (intros H; inversion H; subst; by rewrite Hsame).
  - destruct (c =? 9) eqn:H9.
    { intros H; inversion H; subst. cbn [body]. rewrite H9, Hsame. done. }
    destruct (get_closest_note n allowed_notes) as [q|] eqn:Hq; [|done].
    destruct (get_closest_note_scale _ _ _ Hrange Hq)
      as (_ & Hscale & _ & Hidem).
    cbn. destruct (Z.eqb_spec n q) as [->|Hne]; cbn.
    { intros H; inversion H; subst. cbn [body]. rewrite H9, Hq, Hsame.
      cbn. rewrite Z.eqb_refl. done. }
    unfold set_note. destruct ((0 <=? q) && (q <=? 127)); [|done].
    cbn. intros H; inversion H; subst. cbn [body]. rewrite H9, Hidem.
    cbn. rewrite Z.eqb_refl. cbn.
    split; [done|]. split; [|done].
    rewrite bool_decide_eq_false_2; [done|]. intros E. by inversion E.
  - destruct (c =? 9) eqn:H9.
    { intros H; inversion H; subst. cbn [body]. rewrite H9, Hsame. done. }
    destruct (get_closest_note n allowed_notes) as [q|] eqn:Hq; [|done].
    destruct (get_closest_note_scale _ _ _ Hrange Hq)
      as (_ & Hscale & _ & Hidem).
    cbn. destruct (Z.eqb_spec n q) as [->|Hne]; cbn.
    { intros H; inversion H; subst. cbn [body]. rewrite H9, Hq, Hsame.
      cbn. rewrite Z.eqb_refl. done. }
    unfold set_note. destruct ((0 <=? q) && (q <=? 127)); [|done].
    cbn. intros H; inversion H; subst. cbn [body]. rewrite H9, Hidem.
    cbn. rewrite Z.eqb_refl. cbn.
    split; [done|]. split; [|done].
    rewrite bool_decide_eq_false_2; [done|]. intros E. by inversion E.
Qed.

Lemma quantize_track_quantized (allowed_notes : list Z) (tr tr' : Track)
  (k : Z) :
  Forall (λ a, 0 ≤ a < 12) allowed_notes →
  quantize_track allowed_notes tr = Some (tr', k) →
  Forall2 (quantized_from allowed_notes) tr tr'
  ∧ k = differences tr tr'
  ∧ quantize_track allowed_notes tr' = Some (tr', 0).
Proof.
  intros Hrange. revert tr' k; induction tr as [|msg rest IH]; intros tr' k H.
  - inversion H. split; [constructor|done].
  - cbn [quantize_track] in H.
    destruct (quantize_msg allowed_notes msg) as [[m' k1]|] eqn:Hm; [|done].
    destruct (quantize_track allowed_notes rest) as [[r' k2]|] eqn:Hr; [|done].
    cbn in H. inversion H; subst tr' k.
    destruct (quantize_msg_quantized _ _ _ _ Hrange Hm) as (Hq & -> & Hagain).
    destruct (IH _ _ eq_refl) as (Hall & -> & Hrest).
    split; [by constructor|]. split; [done|].
    cbn [quantize_track]. rewrite Hagain, Hrest. done.
Qed.

Lemma quantize_tracks_quantized (allowed_notes : list Z)
  (trs trs' : list Track) (per : list Z) :
  Forall (λ a, 0 ≤ a < 12) allowed_notes →
  quantize_tracks allowed_notes trs = Some (trs', per) →
  Forall2 (Forall2 (quantized_from allowed_notes)) trs trs'
  ∧ per = zip_with differences trs trs'
  ∧ quantize_tracks allowed_notes trs' = Some (trs', (λ _, 0) <$> per).
Proof.
  intros Hrange. revert trs' per; induction trs as [|tr rest IH];
    intros trs' per H.
  - inversion H. split; [constructor|done].
  - cbn [quantize_tracks] in H.
    destruct (quantize_track allowed_notes tr) as [[tr' k]|] eqn:Ht; [|done].
    destruct (quantize_tracks allowed_notes rest) as [[r' ks]|] eqn:Hr;
      [|done].
    cbn in H. inversion H; subst trs' per.
    destruct (quantize_track_quantized _ _ _ _ Hrange Ht) as (Hq & -> & Hagain).
    destruct (IH _ _ eq_refl) as (Hall & -> & Hrest).
    split; [by constructor|]. split; [done|].
    cbn [quantize_tracks]. rewrite Hagain, Hrest. done.
Qed.

(** What a message keeps when nothing but its note number changes. *)
Lemma blank_note_same (m m' : Msg) :
  blank_note m' = blank_note m →
  time m' = time m
  ∧ is_realtime m' = is_realtime m
  ∧ meta_is "end_of_track" m' = meta_is "end_of_track" m
  ∧ quantizable m' = quantizable m.
Proof.
  destruct m as [t b], m' as [t' b']. unfold blank_note. cbn [time body].
  intros H. injection H as Ht Hb. split; [done|].
  unfold is_realtime, meta_is, quantizable; cbn [body].
  destruct b, b'; try done; by inversion Hb.
Qed.

Lemma quantizable_end_of_track (msg : Msg) :
  meta_is "end_of_track" msg = true → quantizable msg = false.
Proof. unfold meta_is, quantizable. by destruct (body msg). Qed.

Lemma quantized_from_refl (allowed_notes : list Z) (msg : Msg) :
  quantizable msg = false → quantized_from allowed_notes msg msg.
Proof. intros H. split; [done|]. split; [done|]. by rewrite H. Qed.

Lemma quantized_from_set_time (allowed_notes : list Z) (t : Z)
  (m m' : Msg) :
  quantized_from allowed_notes m m' →
  quantized_from allowed_notes (set_time t m) (set_time t m').
Proof.
  intros (Hb & Hq & Hs). split; [|split].
  - apply (f_equal body) in Hb. unfold blank_note, set_time in *.
    cbn [time body] in *. by f_equal.
  - intros H. by rewrite (Hq H).
  - exact Hs.
Qed.

Lemma set_time_eq (t : Z) (m m' : Msg) :
  time m' = time m → set_time t m = set_time t m' ↔ m = m'.
Proof.
  destruct m as [t0 b], m' as [t0' b']. unfold set_time. cbn [time body].
  intros ->. split; intros H; inversion H; done.
Qed.

(** Quantizing and the rewriting of end-of-track events by [save] do
    not meet: the tracks written differ from the input's tracks, as
    [save] would write them, in the messages the quantizer changed. *)
Lemma fix_end_of_track_quantized (allowed_notes : list Z) (a : Z)
  (tr tr' : Track) :
  Forall2 (quantized_from allowed_notes) tr tr' →
  Forall2 (quantized_from allowed_notes)
          (fix_end_of_track a tr) (fix_end_of_track a tr')
  ∧ differences (fix_end_of_track a tr) (fix_end_of_track a tr')
    = differences tr tr'.
Proof.
  intros H; revert a; induction H as [|m m' tr tr' Hm _ IH]; intros a.
  - cbn [fix_end_of_track differences].
    rewrite bool_decide_eq_true_2 by done. split; [|done].
    constructor; [|constructor]. by apply quantized_from_refl.
  - cbn [fix_end_of_track differences].
    destruct (blank_note_same _ _ (proj1 Hm)) as (Ht & _ & He & _).
    rewrite He, Ht. destruct (meta_is "end_of_track" m) eqn:Hem.
    + destruct Hm as (_ & Hq & _).
      rewrite (Hq (quantizable_end_of_track _ Hem)).
      rewrite bool_decide_eq_true_2 by done. apply IH.
    + destruct (IH 0) as [IH1 IH2].
      destruct (negb (a =? 0)); cbn [differences]; rewrite IH2.
      * split; [constructor; [by apply quantized_from_set_time|done]|].
        f_equal. by rewrite (bool_decide_ext _ _ (set_time_eq _ _ _ Ht)).
      * split; [by constructor|done].
Qed.

Lemma fix_end_of_track_all_quantized (allowed_notes : list Z)
  (trs trs' : list Track) :
  Forall2 (Forall2 (quantized_from allowed_notes)) trs trs' →
  Forall2 (Forall2 (quantized_from allowed_notes))
          (map (fix_end_of_track 0) trs) (map (fix_end_of_track 0) trs')
  ∧ zip_with differences (map (fix_end_of_track 0) trs)
                         (map (fix_end_of_track 0) trs')
    = zip_with differences trs trs'.
Proof.
  induction 1 as [|tr tr' trs trs' Htr _ [IH1 IH2]]; [by split; constructor|].
  destruct (fix_end_of_track_quantized _ 0 _ _ Htr) as [H1 H2].
  cbn [map zip_with]. rewrite H2, IH2. split; [by constructor|done].
Qed.

(** X18.  With allowed offsets in 0..11, a file that
    [process_midi_file] saves has the format and ticks per beat of the
    input and, message for message, the tracks of the input as [save]
    writes them (every end-of-track inside a track taken out, one put
    at its end): nothing else but the note number of a note-on or
    note-off outside channel 9 is changed, and every such note now has
    an allowed offset in its octave.  The per-track counters are the
    numbers of messages so changed and the total is their sum.  Where
    every track of the input ends with its only end-of-track, the
    tracks compared are the input's own. *)
Theorem process_midi_file_quantized (allowed_notes : list Z)
  (mid new_mid : MidiFile) (total_changes : Z) (changes_per_track : list Z) :
  Forall (λ a, 0 ≤ a < 12) allowed_notes →
  process_midi_file allowed_notes mid
  = Quantized new_mid total_changes changes_per_track →
  type new_mid = type mid
  ∧ ticks_per_beat new_mid = ticks_per_beat mid
  ∧ Forall2 (Forall2 (quantized_from allowed_notes))
            (map (fix_end_of_track 0) (tracks mid)) (tracks new_mid)
  ∧ changes_per_track
    = zip_with differences (map (fix_end_of_track 0) (tracks mid))
                           (tracks new_mid)
  ∧ total_changes = foldr Z.add 0 changes_per_track
  ∧ (Forall (λ tr, fix_end_of_track 0 tr = tr) (tracks mid) →
     Forall2 (Forall2 (quantized_from allowed_notes))
             (tracks mid) (tracks new_mid)
     ∧ changes_per_track
       = zip_with differences (tracks mid) (tracks new_mid)).
Proof.
  intros Hrange. unfold process_midi_file.
  destruct (quantize_tracks allowed_notes (tracks mid)) as [[trs per]|] eqn:Hq;
    [|done].
  destruct (save _) as [saved|] eqn:Hsave; [|done].
  intros H; inversion H; subst; clear H.
  apply save_Some in Hsave as (Ht & Htpb & Htr & _).
  cbn [type ticks_per_beat tracks] in Ht, Htpb, Htr.
  destruct (quantize_tracks_quantized _ _ _ _ Hrange Hq) as (Hall & Hper & _).
  destruct (fix_end_of_track_all_quantized _ _ _ Hall) as [Hfix Hdiff].
  rewrite Htr.
  assert (Hcount : changes_per_track
                   = zip_with differences
                       (map (fix_end_of_track 0) (tracks mid))
                       (map (fix_end_of_track 0) trs)) by congruence.
  split; [done|]. split; [done|]. split; [done|]. split; [done|].
  split; [done|].
  intros Hclosed.
  assert (Hid : map (fix_end_of_track 0) (tracks mid) = tracks mid).
  { clear -Hclosed. induction Hclosed as [|tr trs Htr _ IH]; [done|].
    cbn [map]. by rewrite Htr, IH. }
  by rewrite Hid in Hfix, Hcount.
Qed.

Lemma quantize_msg_set_time (allowed_notes : list Z) (t : Z) (msg : Msg) :
  settled allowed_notes msg → settled allowed_notes (set_time t msg).
Proof.
  unfold settled, quantize_msg. destruct msg as [t0 b]. cbn [body set_time].
  destruct b as [c n v|c n v| | | | |]; try done.
  - destruct (c =? 9); [done|].
    destruct (get_closest_note n allowed_notes) as [q|]; [|done]. cbn.
    destruct (negb (n =? q)); [|done].
    unfold set_note. destruct ((0 <=? q) && (q <=? 127)); [|done].
    cbn. intros H; inversion H.
  - destruct (c =? 9); [done|].
    destruct (get_closest_note n allowed_notes) as [q|]; [|done]. cbn.
    destruct (negb (n =? q)); [|done].
    unfold set_note. destruct ((0 <=? q) && (q <=? 127)); [|done].
    cbn. intros H; inversion H.
Qed.

Lemma fix_end_of_track_settled (allowed_notes : list Z) (a : Z)
  (tr : Track) :
  Forall (settled allowed_notes) tr →
  Forall (settled allowed_notes) (fix_end_of_track a tr).
Proof.
  intros H; revert a; induction H as [|m tr Hm _ IH]; intros a.
  - by repeat constructor.
  - cbn [fix_end_of_track]. destruct (meta_is "end_of_track" m); [apply IH|].
    destruct (negb (a =? 0)); constructor; try done.
    by apply quantize_msg_set_time.
Qed.

Lemma quantize_track_settled (allowed_notes : list Z) (tr tr' : Track)
  (k : Z) :
  Forall (λ a, 0 ≤ a < 12) allowed_notes →
  quantize_track allowed_notes tr = Some (tr', k) →
  Forall (settled allowed_notes) tr'.
Proof.
  intros Hrange. revert tr' k; induction tr as [|msg rest IH]; intros tr' k H.
  - inversion H. constructor.
  - cbn [quantize_track] in H.
    destruct (quantize_msg allowed_notes msg) as [[m' k1]|] eqn:Hm; [|done].
    destruct (quantize_track allowed_notes rest) as [[r' k2]|] eqn:Hr; [|done].
    cbn in H. inversion H; subst tr' k.
    destruct (quantize_msg_quantized _ _ _ _ Hrange Hm) as (_ & _ & Hagain).
    constructor; [done|]. by apply (IH _ _ eq_refl).
Qed.

Lemma quantize_track_of_settled (allowed_notes : list Z) (tr : Track) :
  Forall (settled allowed_notes) tr →
  quantize_track allowed_notes tr = Some (tr, 0).
Proof.
  induction 1 as [|m tr Hm _ IH]; [done|].
  cbn [quantize_track]. unfold settled in Hm. by rewrite Hm, IH.
Qed.

Lemma quantize_tracks_written (allowed_notes : list Z)
  (trs trs' : list Track) (per : list Z) :
  Forall (λ a, 0 ≤ a < 12) allowed_notes →
  quantize_tracks allowed_notes trs = Some (trs', per) →
  quantize_tracks allowed_notes (map (fix_end_of_track 0) trs')
  = Some (map (fix_end_of_track 0) trs', (λ _, 0) <$> per).
Proof.
  intros Hrange. revert trs' per; induction trs as [|tr rest IH];
    intros trs' per H.
  - by inversion H.
  - cbn [quantize_tracks] in H.
    destruct (quantize_track allowed_notes tr) as [[tr' k]|] eqn:Ht; [|done].
    destruct (quantize_tracks allowed_notes rest) as [[r' ks]|] eqn:Hr;
      [|done].
    cbn in H. inversion H; subst trs' per.
    cbn [map quantize_tracks].
    rewrite (quantize_track_of_settled _ (fix_end_of_track 0 tr')).
    + by rewrite (IH _ _ eq_refl).
    + eapply fix_end_of_track_settled, quantize_track_settled; done.
Qed.

(** X19.  With allowed offsets in 0..11, a file that
    [process_midi_file] has saved goes through it a second time
    unchanged, with every counter at 0. *)
Theorem process_midi_file_again (allowed_notes : list Z)
  (mid new_mid : MidiFile) (total_changes : Z) (changes_per_track : list Z) :
  Forall (λ a, 0 ≤ a < 12) allowed_notes →
  process_midi_file allowed_notes mid
  = Quantized new_mid total_changes changes_per_track →
  process_midi_file allowed_notes new_mid
  = Quantized new_mid 0 ((λ _, 0) <$> changes_per_track).
Proof.
  intros Hrange. unfold process_midi_file at 1.
  destruct (quantize_tracks allowed_notes (tracks mid)) as [[trs per]|] eqn:Hq;
    [|done].
  destruct (save _) as [saved|] eqn:Hsave; [|done].
  intros H; inversion H; subst; clear H.
  pose proof (save_twice _ _ Hsave) as Htwice.
  apply save_Some in Hsave as (_ & _ & Htr & _). cbn [tracks] in Htr.
  unfold process_midi_file. rewrite Htr.
  rewrite (quantize_tracks_written _ _ _ _ Hrange Hq), <- Htr.
  destruct new_mid as [ty tpb trs']. cbn [type ticks_per_beat tracks].
  rewrite Htwice. f_equal.
  clear. induction changes_per_track as [|k per IH]; [done|].
  cbn. by rewrite IH.
Qed.

Lemma scale_in_range : Forall (λ a, 0 ≤ a < 12) [2; 5; 9].
Proof. repeat (apply Forall_cons_2; [lia|]). apply Forall_nil_2. Defined.

Lemma process_midi_file_quantized_witness :
  ∃ new_mid total_changes changes_per_track,
    process_midi_file [2; 5; 9] sample_file
    = Quantized new_mid total_changes changes_per_track
    ∧ total_changes = 2
    ∧ Forall2 (Forall2 (quantized_from [2; 5; 9]))
              (tracks sample_file) (tracks new_mid).
Proof.
  destruct (process_midi_file [2; 5; 9] sample_file)
    as [new_mid total per|] eqn:E; [|vm_compute in E; discriminate].
  exists new_mid, total, per. split; [done|].
  destruct (process_midi_file_quantized _ _ _ _ _ scale_in_range E)
    as (_ & _ & _ & _ & _ & Hall).
  split; [vm_compute in E; by inversion E|].
  apply Hall. by repeat constructor.
Defined.

Lemma process_midi_file_again_witness :
  ∃ new_mid total_changes changes_per_track,
    process_midi_file [2; 5; 9] sample_file
    = Quantized new_mid total_changes changes_per_track
    ∧ process_midi_file [2; 5; 9] new_mid
      = Quantized new_mid 0 ((λ _, 0) <$> changes_per_track).
Proof.
  destruct (process_midi_file [2; 5; 9] sample_file)
    as [new_mid total per|] eqn:E; [|vm_compute in E; discriminate].
  exists new_mid, total, per. split; [done|].
  by apply (process_midi_file_again _ _ _ _ _ scale_in_range E).
Defined.

(** A track whose end-of-track events are not all at its end: the file
    written has one, at the end, and the delta time of the one taken
    out is carried by the next message. *)
Example process_midi_file_end_of_track :
  process_midi_file [0]
    {| type := 1; ticks_per_beat := 480;
       tracks := [[mkMsg 0 (NoteOn 0 61 100);
                   mkMsg 10 (Meta "end_of_track" None []);
                   mkMsg 5 (NoteOff 0 61 0)]] |}
  = Quantized
      {| type := 1; ticks_per_beat := 480;
         tracks := [[mkMsg 0 (NoteOn 0 60 100); mkMsg 15 (NoteOff 0 60 0);
                     mkMsg 0 (Meta "end_of_track" None [])]] |}
      2 [2].
Proof. reflexivity. Qed.

(** ** When the quantizer saves nothing *)

Lemma get_closest_note_is_Some (midi_note : Z) (allowed_notes : list Z) :
  allowed_notes ≠ [] → ∃ q, get_closest_note midi_note allowed_notes = Some q.
Proof.
  intros Hne. unfold get_closest_note.
  destruct allowed_notes as [|x rest]; [done|]. cbn. by eexists.
Qed.

Lemma quantize_msg_is_Some (allowed_notes : list Z) (msg : Msg) :
  allowed_notes ≠ [] → Forall (λ a, 0 ≤ a < 12) allowed_notes →
  (quantizable msg = true → 0 ≤ msg_note msg ≤ 119) →
  ∃ r, quantize_msg allowed_notes msg = Some r.
Proof.
  intros Hne Hrange Hnote. unfold quantize_msg, quantizable, msg_note in *.
  destruct msg as [t b].
  destruct b as [c n v|c n v| | | | |]; cbn [body] in *; try by eexists.
  - destruct (c =? 9); [by eexists|]. specialize (Hnote eq_refl).
    destruct (get_closest_note_is_Some n _ Hne) as [q Hq]. rewrite Hq. cbn.
    destruct (negb (n =? q)); [|by eexists].
    destruct (get_closest_note_scale _ _ _ Hrange Hq) as (Hdiv & _ & _ & _).
    unfold set_note.
    assert (0 ≤ q ≤ 127) as Hq127.
    { pose proof (Z.div_mod q 12). pose proof (Z.mod_pos_bound q 12).
      pose proof (Z.div_mod n 12). pose proof (Z.mod_pos_bound n 12).
      clear -Hdiv Hnote H H0 H1 H2. lia. }
    destruct (Z.leb_spec 0 q), (Z.leb_spec q 127); try lia. by eexists.
  - destruct (c =? 9); [by eexists|]. specialize (Hnote eq_refl).
    destruct (get_closest_note_is_Some n _ Hne) as [q Hq]. rewrite Hq. cbn.
    destruct (negb (n =? q)); [|by eexists].
    destruct (get_closest_note_scale _ _ _ Hrange Hq) as (Hdiv & _ & _ & _).
    unfold set_note.
    assert (0 ≤ q ≤ 127) as Hq127.
    { pose proof (Z.div_mod q 12). pose proof (Z.mod_pos_bound q 12).
      pose proof (Z.div_mod n 12). pose proof (Z.mod_pos_bound n 12).
      clear -Hdiv Hnote H H0 H1 H2. lia. }
    destruct (Z.leb_spec 0 q), (Z.leb_spec q 127); try lia. by eexists.
Qed.

Lemma quantize_track_is_Some (allowed_notes : list Z) (tr : Track) :
  allowed_notes ≠ [] → Forall (λ a, 0 ≤ a < 12) allowed_notes →
  Forall (λ msg, quantizable msg = true → 0 ≤ msg_note msg ≤ 119) tr →
  ∃ r, quantize_track allowed_notes tr = Some r.
Proof.
  intros Hne Hrange. induction 1 as [|msg rest Hmsg _ [r IH]]; [by eexists|].
  cbn [quantize_track].
  destruct (quantize_msg_is_Some _ _ Hne Hrange Hmsg) as [r1 ->].
  rewrite IH. by eexists.
Qed.

(** Whatever the scale, a message leaves the quantizer with nothing
    but its note number changed. *)
Lemma quantize_msg_blank (allowed_notes : list Z) (msg msg' : Msg) (k : Z) :
  quantize_msg allowed_notes msg = Some (msg', k) →
  blank_note msg' = blank_note msg.
Proof.
  unfold quantize_msg. destruct msg as [t b].
  destruct b as [c n v|c n v| | | | |]; cbn [body];
    try (intros H; by inversion H).
  - destruct (c =? 9); [intros H; by inversion H|].
    destruct (get_closest_note n allowed_notes) as [q|]; [|done]. cbn.
    destruct (negb (n =? q)); [|intros H; by inversion H].
    unfold set_note. destruct ((0 <=? q) && (q <=? 127)); [|done].
    cbn. intros H; by inversion H.
  - destruct (c =? 9); [intros H; by inversion H|].
    destruct (get_closest_note n allowed_notes) as [q|]; [|done]. cbn.
    destruct (negb (n =? q)); [|intros H; by inversion H].
    unfold set_note. destruct ((0 <=? q) && (q <=? 127)); [|done].
    cbn. intros H; by inversion H.
Qed.

Lemma quantize_track_blank (allowed_notes : list Z) (tr tr' : Track) (k : Z) :
  quantize_track allowed_notes tr = Some (tr', k) →
  Forall2 (λ m m', blank_note m' = blank_note m) tr tr'.
Proof.
  revert tr' k; induction tr as [|msg rest IH]; intros tr' k H.
  - inversion H. constructor.
  - cbn [quantize_track] in H.
    destruct (quantize_msg allowed_notes msg) as [[m' k1]|] eqn:Hm; [|done].
    destruct (quantize_track allowed_notes rest) as [[r' k2]|] eqn:Hr; [|done].
    cbn in H. inversion H; subst tr' k.
    constructor; [by apply quantize_msg_blank in Hm|by apply (IH _ _ eq_refl)].
Qed.

Lemma quantize_tracks_blank (allowed_notes : list Z) (trs trs' : list Track)
  (per : list Z) :
  quantize_tracks allowed_notes trs = Some (trs', per) →
  Forall2 (Forall2 (λ m m', blank_note m' = blank_note m)) trs trs'.
Proof.
  revert trs' per; induction trs as [|tr rest IH]; intros trs' per H.
  - inversion H. constructor.
  - cbn [quantize_tracks] in H.
    destruct (quantize_track allowed_notes tr) as [[tr' k]|] eqn:Ht; [|done].
    destruct (quantize_tracks allowed_notes rest) as [[r' ks]|] eqn:Hr;
      [|done].
    cbn in H. inversion H; subst trs' per.
    constructor; [by apply quantize_track_blank in Ht|by apply (IH _ _ eq_refl)].
Qed.

Lemma plain_timed_blank (tr tr' : Track) :
  Forall2 (λ m m', blank_note m' = blank_note m) tr tr' →
  Forall plain_timed tr → Forall plain_timed tr'.
Proof.
  induction 1 as [|m m' tr tr' Hm _ IH]; [done|].
  intros H. apply Forall_cons in H as [[Ht Hr] Hrest].
  destruct (blank_note_same _ _ Hm) as (Et & Er & _).
  constructor; [|by apply IH]. split; congruence.
Qed.

Lemma writable_set_time (t : Z) (msg : Msg) :
  0 ≤ t → is_realtime msg = false → writable (set_time t msg) = true.
Proof.
  intros Ht Hr. unfold writable. apply andb_true_iff. split.
  - by apply Z.leb_le.
  - change (is_realtime (set_time t msg)) with (is_realtime msg).
    by rewrite Hr.
Qed.

(** [save] passes the tracks whose messages all pass its tests. *)
Lemma fix_end_of_track_writable (a : Z) (tr : Track) :
  0 ≤ a → Forall plain_timed tr →
  forallb writable (fix_end_of_track a tr) = true.
Proof.
  intros Ha H; revert a Ha; induction H as [|m tr [Ht Hr] _ IH]; intros a Ha.
  - cbn [fix_end_of_track forallb]. by rewrite writable_set_time.
  - cbn [fix_end_of_track]. destruct (meta_is "end_of_track" m).
    { apply IH. lia. }
    destruct (negb (a =? 0)); cbn [forallb]; rewrite (IH 0) by done;
      rewrite andb_true_r.
    + apply writable_set_time; [lia|done].
    + rewrite <- (set_time_time m). by apply writable_set_time.
Qed.

Lemma short_range (x : Z) : short x = true ↔ -32768 ≤ x ≤ 32767.
Proof. unfold short. rewrite andb_true_iff, !Z.leb_le. done. Qed.

Lemma save_accepts (mid : MidiFile) :
  (type mid = 0 → length (tracks mid) = 1%nat) →
  header_fits mid →
  Forall (Forall plain_timed) (tracks mid) →
  save mid = Some {| type := type mid; ticks_per_beat := ticks_per_beat mid;
                     tracks := map (fix_end_of_track 0) (tracks mid) |}.
Proof.
  intros Hone (Hty & Hlen & Htpb) Hall. unfold save.
  assert ((type mid =? 0) && negb (Nat.eqb (length (tracks mid)) 1) = false)
    as ->.
  { destruct (Z.eqb_spec (type mid) 0) as [H0|]; [|done].
    rewrite (Hone H0). done. }
  rewrite (proj2 (short_range _) Hty), (proj2 (short_range _) Htpb).
  rewrite (proj2 (short_range (Z.of_nat (length (tracks mid))))) by lia.
  cbn [andb].
  assert (forallb (λ track, forallb writable (fix_end_of_track 0 track))
                  (tracks mid) = true) as ->; [|done].
  apply forallb_forall. intros tr Htr. apply fix_end_of_track_writable; [done|].
  rewrite Forall_forall in Hall. by apply Hall, list_elem_of_In.
Qed.

(** [save] refuses a file that holds a real-time message. *)
Lemma fix_end_of_track_realtime (a : Z) (tr : Track) (msg : Msg) :
  msg ∈ tr → is_realtime msg = true →
  forallb writable (fix_end_of_track a tr) = false.
Proof.
  intros Hin Hr. revert a; induction tr as [|m tr IH]; intros a;
    [by apply elem_of_nil in Hin|].
  cbn [fix_end_of_track]. apply elem_of_cons in Hin as [<-|Hin].
  - assert (meta_is "end_of_track" msg = false) as ->.
    { unfold meta_is, is_realtime in *. by destruct (body msg). }
    destruct (negb (a =? 0)); cbn [forallb]; unfold writable at 1.
    + change (is_realtime (set_time (a + time msg) msg))
        with (is_realtime msg).
      by rewrite Hr, andb_false_r.
    + by rewrite Hr, andb_false_r.
  - destruct (meta_is "end_of_track" m); [by apply IH|].
    destruct (negb (a =? 0)); cbn [forallb]; rewrite (IH Hin);
      apply andb_false_r.
Qed.

Lemma save_refuses_realtime (mid : MidiFile) (tr : Track) (msg : Msg) :
  tr ∈ tracks mid → msg ∈ tr → is_realtime msg = true → save mid = None.
Proof.
  intros Htr Hmsg Hr. unfold save.
  destruct ((type mid =? 0) && negb (Nat.eqb (length (tracks mid)) 1)); [done|].
  assert (forallb (λ track, forallb writable (fix_end_of_track 0 track))
                  (tracks mid) = false) as ->; [|by rewrite andb_false_r].
  apply not_true_iff_false. intros H. rewrite forallb_forall in H.
  apply list_elem_of_In in Htr. specialize (H _ Htr). cbn in H.
  by rewrite (fix_end_of_track_realtime 0 tr msg Hmsg Hr) in H.
Qed.

(** X20.  With a non-empty scale of offsets in 0..11,
    [process_midi_file] saves every file whose notes outside channel 9
    lie in 0..119 and that [save] has no reason to refuse: a format-0
    file has exactly one track, the header fields fit their 16 bits,
    no delta time is negative and no message is a real-time message. *)
Theorem process_midi_file_saves (allowed_notes : list Z) (mid : MidiFile) :
  allowed_notes ≠ [] → Forall (λ a, 0 ≤ a < 12) allowed_notes →
  Forall (Forall (λ msg, quantizable msg = true → 0 ≤ msg_note msg ≤ 119))
         (tracks mid) →
  (type mid = 0 → length (tracks mid) = 1%nat) →
  header_fits mid →
  Forall (Forall plain_timed) (tracks mid) →
  ∃ new_mid total_changes changes_per_track,
    process_midi_file allowed_notes mid
    = Quantized new_mid total_changes changes_per_track.
Proof.
  intros Hne Hrange Hnotes Hone Hhead Hplain. unfold process_midi_file.
  assert (∃ r, quantize_tracks allowed_notes (tracks mid) = Some r)
    as [[trs per] Hq].
  { clear -Hne Hrange Hnotes.
    induction Hnotes as [|tr rest Htr _ [r IH]]; [by eexists|].
    cbn [quantize_tracks].
    destruct (quantize_track_is_Some _ _ Hne Hrange Htr) as [r1 ->].
    rewrite IH. by eexists. }
  rewrite Hq. pose proof (quantize_tracks_blank _ _ _ _ Hq) as Hblank.
  pose proof (Forall2_length _ _ _ Hblank) as Hlen.
  rewrite save_accepts; [by eexists _, _, _| | |]; cbn [type tracks];
    unfold Track in *.
  - by rewrite <- Hlen.
  - destruct Hhead as (? & ? & ?). split; [done|]. split; [|done].
    simpl. unfold Track in *. by rewrite <- Hlen.
  - clear -Hblank Hplain.
    induction Hblank as [|tr tr' trs trs' Htr _ IH]; [done|].
    apply Forall_cons in Hplain as [H1 H2].
    constructor; [by apply (plain_timed_blank _ _ Htr)|by apply IH].
Qed.

Lemma sample_track_plain : Forall plain_timed sample_track.
Proof.
  unfold sample_track.
  repeat (apply Forall_cons_2; [split; [simpl; lia|reflexivity]|]).
  apply Forall_nil_2.
Defined.

Lemma process_midi_file_saves_witness :
  ∃ new_mid total_changes changes_per_track,
    process_midi_file [2; 5; 9] sample_file
    = Quantized new_mid total_changes changes_per_track.
Proof.
  apply process_midi_file_saves.
  - done.
  - apply scale_in_range.
  - unfold sample_file, sample_track. cbn [tracks].
    apply Forall_cons_2; [|apply Forall_nil_2].
    repeat (apply Forall_cons_2; [simpl; intros; try done; lia|]).
    apply Forall_nil_2.
  - reflexivity.
  - unfold header_fits, sample_file. cbn [type tracks ticks_per_beat length].
    lia.
  - apply Forall_cons_2; [apply sample_track_plain|apply Forall_nil_2].
Defined.

Lemma quantize_track_refused (allowed_notes : list Z) (tr : Track)
  (msg : Msg) :
  msg ∈ tr → quantize_msg allowed_notes msg = None →
  quantize_track allowed_notes tr = None.
Proof.
  intros Hin Hmsg. induction tr as [|m rest IH]; [by inversion Hin|].
  cbn [quantize_track]. apply elem_of_cons in Hin as [<-|Hin].
  - by rewrite Hmsg.
  - rewrite (IH Hin). by destruct (quantize_msg allowed_notes m).
Qed.

Lemma quantize_tracks_refused (allowed_notes : list Z) (trs : list Track)
  (tr : Track) :
  tr ∈ trs → quantize_track allowed_notes tr = None →
  quantize_tracks allowed_notes trs = None.
Proof.
  intros Hin Htr. induction trs as [|t rest IH]; [by inversion Hin|].
  cbn [quantize_tracks]. apply elem_of_cons in Hin as [<-|Hin].
  - by rewrite Htr.
  - rewrite (IH Hin). by destruct (quantize_track allowed_notes t).
Qed.

(** X21.  When every allowed offset is above 7 (or none is allowed), a
    note of the top octave (120..127) outside channel 9 is sent to a
    number above 127, the assignment is refused, and
    [process_midi_file] saves nothing for the file. *)
Theorem process_midi_file_top_octave (allowed_notes : list Z)
  (mid : MidiFile) (tr : Track) (msg : Msg) :
  Forall (λ a, 8 ≤ a < 12) allowed_notes →
  tr ∈ tracks mid → msg ∈ tr →
  quantizable msg = true → 120 ≤ msg_note msg ≤ 127 →
  process_midi_file allowed_notes mid = NotSaved.
Proof.
  intros Hrange Htr Hmsg Hq Hnote. unfold process_midi_file.
  rewrite (quantize_tracks_refused _ _ tr Htr); [done|].
  apply (quantize_track_refused _ _ msg Hmsg).
  assert (Hfar : ∀ n q, 120 ≤ n ≤ 127 →
            get_closest_note n allowed_notes = Some q →
            128 ≤ q).
  { intros n q Hn Hc.
    apply get_closest_note_Some in Hc as (c & Hc & -> & _).
    rewrite Forall_forall in Hrange. specialize (Hrange c Hc).
    pose proof (Z.div_mod n 12). pose proof (Z.mod_pos_bound n 12).
    clear -Hrange Hn H H0. lia. }
  unfold quantize_msg, quantizable, msg_note in *.
  destruct msg as [t b].
  destruct b as [c n v|c n v| | | | |]; cbn [body] in *; try done.
  - apply negb_true_iff in Hq. rewrite Hq.
    destruct (get_closest_note n allowed_notes) as [q|] eqn:Hc; [|done].
    specialize (Hfar n q Hnote Hc). cbn.
    destruct (Z.eqb_spec n q); [lia|]. cbn. unfold set_note.
    destruct (Z.leb_spec q 127); [lia|]. by rewrite andb_false_r.
  - apply negb_true_iff in Hq. rewrite Hq.
    destruct (get_closest_note n allowed_notes) as [q|] eqn:Hc; [|done].
    specialize (Hfar n q Hnote Hc). cbn.
    destruct (Z.eqb_spec n q); [lia|]. cbn. unfold set_note.
    destruct (Z.leb_spec q 127); [lia|]. by rewrite andb_false_r.
Qed.

Lemma process_midi_file_top_octave_witness :
  process_midi_file [8; 9; 11]
    {| type := 1; ticks_per_beat := 480;
       tracks := [[mkMsg 0 (NoteOn 0 60 100); mkMsg 10 (NoteOn 0 127 100)]] |}
  = NotSaved.
Proof.
  apply (process_midi_file_top_octave _ _
           [mkMsg 0 (NoteOn 0 60 100); mkMsg 10 (NoteOn 0 127 100)]
           (mkMsg 10 (NoteOn 0 127 100))).
  - repeat (apply Forall_cons_2; [lia|]). apply Forall_nil_2.
  - simpl. left.
  - right. left.
  - reflexivity.
  - cbv [msg_note body]. lia.
Defined.

(** X25.  Whatever the scale, [process_midi_file] saves nothing for a
    format-0 file that does not have exactly one track, nor for a file
    one of whose tracks holds a real-time message: where the loops go
    through, [save] raises, and [(0, {})] is returned. *)
Theorem process_midi_file_refused (allowed_notes : list Z) (mid : MidiFile) :
  (type mid = 0 ∧ length (tracks mid) ≠ 1%nat)
  ∨ (∃ tr msg, tr ∈ tracks mid ∧ msg ∈ tr ∧ is_realtime msg = true) →
  process_midi_file allowed_notes mid = NotSaved.
Proof.
  intros Hwhy. unfold process_midi_file.
  destruct (quantize_tracks allowed_notes (tracks mid)) as [[trs per]|] eqn:Hq;
    [|done].
  pose proof (quantize_tracks_blank _ _ _ _ Hq) as Hblank.
  assert (save {| type := type mid; ticks_per_beat := ticks_per_beat mid;
                  tracks := trs |} = None) as ->; [|done].
  destruct Hwhy as [[H0 Hlen]|(tr & msg & Htr & Hmsg & Hr)].
  - pose proof (Forall2_length _ _ _ Hblank) as Hsame.
    unfold save. cbn [type tracks]. unfold Track in *.
    rewrite <- Hsame, H0. cbn.
    apply Nat.eqb_neq in Hlen. by rewrite Hlen.
  - apply list_elem_of_lookup in Htr as [i Hi].
    destruct (Forall2_lookup_l _ _ _ _ _ Hblank Hi) as (tr' & Hi' & Htr').
    apply list_elem_of_lookup in Hmsg as [j Hj].
    destruct (Forall2_lookup_l _ _ _ _ _ Htr' Hj) as (msg' & Hj' & Hm).
    apply (save_refuses_realtime _ tr' msg').
    + by apply list_elem_of_lookup_2 in Hi'.
    + by apply list_elem_of_lookup_2 in Hj'.
    + destruct (blank_note_same _ _ Hm) as (_ & Er & _). congruence.
Qed.

Lemma process_midi_file_refused_witness :
  process_midi_file [2; 5; 9]
    {| type := 0; ticks_per_beat := 480;
       tracks := [[mkMsg 0 (NoteOn 0 60 100)]; [mkMsg 0 (NoteOn 1 64 100)]] |}
  = NotSaved
  ∧ process_midi_file [2; 5; 9]
      {| type := 1; ticks_per_beat := 480;
         tracks := [[mkMsg 0 (NoteOn 0 60 100); mkMsg 0 (System "clock" [])]] |}
    = NotSaved.
Proof.
  split; apply process_midi_file_refused.
  - left. split; [reflexivity|]. simpl. lia.
  - right. exists [mkMsg 0 (NoteOn 0 60 100); mkMsg 0 (System "clock" [])],
                  (mkMsg 0 (System "clock" [])).
    split; [simpl; left|]. split; [right; left|reflexivity].
Defined.

(** ** Reassigning twice *)

Lemma filter_none {A : Type} (p : A → bool) (l : list A) :
  Forall (λ x, p x = false) l → List.filter p l = [].
Proof.
  induction 1 as [|x l Hx _ IH]; [done|]. simpl. by rewrite Hx, IH.
Qed.

Lemma standardize_melodic_valid (k : Z) (ms : list TrackInfo) :
  Forall (λ t, channel t ∈ melodic_channels) ms →
  standardize_melodic k ms = ms.
Proof.
  intros H; revert k; induction H as [|t ms Ht _ IH]; intros k; [done|].
  rewrite standardize_melodic_cons, IH.
  apply py_in_melodic in Ht as Hin. rewrite Hin.
  apply elem_of_melodic_channels in Ht.
  destruct (Z.eqb_spec (channel t) 999); [lia|done].
Qed.

(** A list of percussion tracks followed by melodic tracks on valid
    channels is left as it is by the standardizer. *)
Lemma standardize_channels_standard (ds ms : list TrackInfo) :
  Forall (λ t, channel t = 9) ds →
  Forall (λ t, channel t ∈ melodic_channels) ms →
  standardize_channels (ds ++ ms) = ds ++ ms.
Proof.
  intros Hds Hms. unfold standardize_channels.
  assert (Hms9 : Forall (λ t, (channel t =? 9) = false) ms).
  { eapply Forall_impl; [exact Hms|]. intros t Ht.
    apply elem_of_melodic_channels in Ht.
    destruct (Z.eqb_spec (channel t) 9); [lia|done]. }
  assert (Hds9 : Forall (λ t, (channel t =? 9) = true) ds).
  { eapply Forall_impl; [exact Hds|]. intros t Ht. simpl in Ht.
    rewrite Ht. reflexivity. }
  rewrite !List.filter_app.
  rewrite (filter_all _ ds Hds9), (filter_none _ ms Hms9), app_nil_r.
  rewrite (filter_none (λ t, negb (channel t =? 9)) ds),
          (filter_all (λ t, negb (channel t =? 9)) ms), app_nil_l.
  - rewrite standardize_melodic_valid by done.
    f_equal. unfold standardize_drums. clear -Hds9.
    induction Hds9 as [|t ds Ht _ IH]; [done|]. cbn [map].
    by rewrite Ht, IH.
  - eapply Forall_impl; [exact Hms9|]. by intros t ->.
  - eapply Forall_impl; [exact Hds9|]. by intros t ->.
Qed.

Lemma detect_bass_track_twice (ts : list TrackInfo) :
  detect_bass_track (detect_bass_track ts) = detect_bass_track ts.
Proof.
  destruct (scan_bass 0 ts (None, 0)).1 as [[b bass]|] eqn:Hscan;
    [|by rewrite !(detect_bass_track_none _ Hscan)].
  destruct (decide (channel bass = 1)) as [H1|H1].
  { by rewrite !(detect_bass_track_placed _ _ _ Hscan H1). }
  pose proof (scan_bass_same_view 0 ts (detect_bass_track ts)
                (None, 0) (None, 0) (detect_bass_track_same_view ts)
                eq_refl eq_refl) as Hidx.
  rewrite Hscan in Hidx. simpl in Hidx.
  destruct (scan_bass 0 (detect_bass_track ts) (None, 0)).1
    as [[b' bass']|] eqn:Hscan'; [|done].
  simpl in Hidx. inversion Hidx; subst b'.
  destruct (scan_bass_0_found _ _ _ Hscan') as [Hb' _].
  rewrite (detect_bass_track_lookup_bass _ _ _ Hscan H1) in Hb'.
  inversion Hb'; subst bass'.
  by apply (detect_bass_track_placed _ _ _ Hscan').
Qed.

Lemma standardize_channels_split (ts : list TrackInfo) :
  Forall (λ t, channel t = 9) (List.filter (λ t, channel t =? 9) ts)
  ∧ standardize_channels ts
    = List.filter (λ t, channel t =? 9) ts
      ++ standardize_melodic 0 (melodic_of ts).
Proof.
  split.
  - apply List.Forall_forall. intros t Ht.
    apply List.filter_In in Ht as [_ Ht]. lia.
  - unfold standardize_channels. by rewrite standardize_drums_id.
Qed.

(** X22.  [standardize_channels] is idempotent, and so is the whole
    reassignment ([standardize_channels] followed by
    [detect_bass_track]): applied to its own output either returns it
    unchanged, messages and annotations included. *)
Theorem reassign_channels_idempotent (ts : list TrackInfo) :
  standardize_channels (standardize_channels ts) = standardize_channels ts
  ∧ reassign_channels (reassign_channels ts) = reassign_channels ts.
Proof.
  destruct (standardize_channels_split ts) as [Hds Hstd].
  pose proof (standardize_melodic_in_range 0 (melodic_of ts)) as Hms.
  split.
  - rewrite Hstd. by apply standardize_channels_standard.
  - unfold reassign_channels at 2 3. rewrite Hstd.
    destruct (detect_bass_track_after_drums _ _ Hds Hms)
      as (ms' & Heq & _ & Hms').
    unfold reassign_channels. rewrite Heq.
    rewrite (standardize_channels_standard _ _ Hds Hms').
    rewrite <- Heq. apply detect_bass_track_twice.
Qed.

(** ** Track order in the saved file *)

Lemma py_sort_ascending {A : Type} (key : A → Z) (l : list A) :
  StronglySorted (λ x y, key x ≤ key y) (py_sort key false l).
Proof.
  generalize (py_sort_sorted key false l).
  induction 1 as [|x l' _ IH Hx]; constructor; [done|].
  eapply Forall_impl; [exact Hx|]. unfold key_le. simpl. intros; lia.
Qed.

(** Two lists in ascending key order that agree on the elements of
    every key, order included, are equal. *)
Lemma ascending_same_classes {A : Type} (key : A → Z) (l1 l2 : list A) :
  StronglySorted (λ x y, key x ≤ key y) l1 →
  StronglySorted (λ x y, key x ≤ key y) l2 →
  (∀ k, List.filter (λ x, key x =? k) l1 = List.filter (λ x, key x =? k) l2) →
  l1 = l2.
Proof.
  intros H1; revert l2; induction H1 as [|x1 l1 Hs1 IH Hx1]; intros l2 H2 Hcl.
  - destruct l2 as [|x2 l2]; [done|].
    specialize (Hcl (key x2)). simpl in Hcl. by rewrite Z.eqb_refl in Hcl.
  - destruct H2 as [|x2 l2 Hs2 Hx2].
    { specialize (Hcl (key x1)). simpl in Hcl. by rewrite Z.eqb_refl in Hcl. }
    assert (Hkey : key x1 = key x2).
    { pose proof (Hcl (key x1)) as Ha. pose proof (Hcl (key x2)) as Hb.
      cbn [List.filter] in Ha, Hb. rewrite Z.eqb_refl in Ha, Hb.
      destruct (Z.eqb_spec (key x2) (key x1)) as [|Hne]; [done|].
      destruct (Z.eqb_spec (key x1) (key x2)) as [|_]; [done|].
      assert (Hin1 : x1 ∈ l2).
      { apply list_elem_of_In.
        apply (proj1 (List.filter_In (λ x, key x =? key x1) x1 l2)).
        rewrite <- Ha. by left. }
      assert (Hin2 : x2 ∈ l1).
      { apply list_elem_of_In.
        apply (proj1 (List.filter_In (λ x, key x =? key x2) x2 l1)).
        rewrite Hb. by left. }
      rewrite Forall_forall in Hx1, Hx2.
      specialize (Hx1 _ Hin2). specialize (Hx2 _ Hin1). lia. }
    pose proof (Hcl (key x1)) as Hhead. cbn [List.filter] in Hhead.
    rewrite <- Hkey, Z.eqb_refl in Hhead. inversion Hhead as [[Hx Htail]].
    subst x2. f_equal. apply IH; [done|].
    intros k. specialize (Hcl k). cbn [List.filter] in Hcl.
    destruct (key x1 =? k); [by inversion Hcl|done].
Qed.

(** Sorting elements of one high key followed by elements of lower
    keys moves the high ones, in their order, behind the others. *)
Lemma py_sort_high_first {A : Type} (key : A → Z) (hi : Z)
  (ds ms : list A) :
  Forall (λ x, key x = hi) ds → Forall (λ x, key x < hi) ms →
  py_sort key false (ds ++ ms) = py_sort key false ms ++ ds.
Proof.
  intros Hds Hms. apply (ascending_same_classes key).
  - apply py_sort_ascending.
  - apply StronglySorted_app_2.
    + intros x y Hx Hy. rewrite py_sort_perm in Hx.
      rewrite Forall_forall in Hds, Hms.
      specialize (Hms x Hx). specialize (Hds y Hy). lia.
    + apply py_sort_ascending.
    + clear Hms. induction Hds as [|x ds Hx Hall IH]; constructor; [done|].
      eapply Forall_impl; [exact Hall|]. simpl. intros; lia.
  - intros k. rewrite py_sort_stable, !List.filter_app, py_sort_stable.
    destruct (decide (k = hi)) as [->|Hne].
    + rewrite (filter_none _ ms), app_nil_r; [done|].
      eapply Forall_impl; [exact Hms|]. simpl. intros; lia.
    + rewrite (filter_none _ ds), app_nil_r; [done|].
      eapply Forall_impl; [exact Hds|]. simpl. intros; lia.
Qed.

Lemma melodic_of_after_drums (ds ms : list TrackInfo) :
  Forall (λ t, channel t = 9) ds →
  Forall (λ t, channel t ∈ melodic_channels) ms →
  melodic_of (ds ++ ms) = ms.
Proof.
  intros Hds Hms. unfold melodic_of. rewrite List.filter_app.
  rewrite (filter_none _ ds), (filter_all _ ms); [done| |].
  - eapply Forall_impl; [exact Hms|]. intros t Ht.
    apply elem_of_melodic_channels in Ht. simpl.
    destruct (Z.eqb_spec (channel t) 9); [lia|done].
  - eapply Forall_impl; [exact Hds|]. simpl. by intros t ->.
Qed.

(** X23.  The tracks the filter hands to [save], and [save] writes in
    that order, are the melodic tracks of the reassigned selection
    sorted by channel (stably, so in ascending order of channel, all on
    channels 0..3, as many as the selection has melodic tracks),
    followed by the percussion tracks: the selected tracks that were
    on channel 9, unchanged and in their order of selection. *)
Theorem filter_tracks_order (min_events : Z) (max_tracks : nat)
  (mid : MidiFile) :
  let sel := (select_top_tracks min_events max_tracks
                                (track_info (tracks mid))).1 in
  let out := process_tracks min_events max_tracks (tracks mid) in
  let melodic := py_sort channel false (melodic_of out) in
  let drums := List.filter (λ t, channel t =? 9) sel in
  tracks (filter_tracks min_events max_tracks mid)
  = map track melodic ++ map track drums
  ∧ py_sort channel false out = melodic ++ drums
  ∧ melodic ≡ₚ melodic_of out
  ∧ length melodic = length (melodic_of sel)
  ∧ StronglySorted (λ x y, channel x ≤ channel y) melodic
  ∧ Forall (λ t, channel t ∈ melodic_channels) melodic
  ∧ List.filter (λ t, channel t =? 9) out = drums
  ∧ (∀ saved, save (filter_tracks min_events max_tracks mid) = Some saved →
       tracks saved
       = map (λ t, fix_end_of_track 0 (track t)) (melodic ++ drums)).
Proof.
  intros sel out melodic drums.
  destruct (standardize_channels_split sel) as [Hds Hstd].
  pose proof (standardize_melodic_in_range 0 (melodic_of sel)) as Hms.
  destruct (detect_bass_track_after_drums _ _ Hds Hms)
    as (ms' & Heq & Hlen & Hms').
  assert (Hout : out = drums ++ ms').
  { unfold out, process_tracks, reassign_channels. fold sel.
    by rewrite Hstd, Heq. }
  assert (Hmel : melodic_of out = ms').
  { rewrite Hout. by apply melodic_of_after_drums. }
  assert (Hsorted : py_sort channel false out = melodic ++ drums).
  { unfold melodic. rewrite Hmel, Hout. apply (py_sort_high_first channel 9).
    - done.
    - eapply Forall_impl; [exact Hms'|]. intros t Ht.
      apply elem_of_melodic_channels in Ht. simpl. lia. }
  split.
  { unfold filter_tracks. cbn [tracks]. fold out.
    by rewrite Hsorted, map_app. }
  split; [done|]. split; [apply py_sort_perm|].
  split.
  { unfold melodic. rewrite (Permutation_length (py_sort_perm _ _ _)), Hmel.
    by rewrite Hlen, standardize_melodic_length. }
  split; [apply py_sort_ascending|].
  split; [unfold melodic; rewrite Hmel; by apply py_sort_Forall|].
  split.
  { rewrite Hout, List.filter_app.
    rewrite (filter_all _ drums), (filter_none _ ms'), app_nil_r; [done| |].
    - eapply Forall_impl; [exact Hms'|]. intros t Ht.
      apply elem_of_melodic_channels in Ht. simpl.
      destruct (Z.eqb_spec (channel t) 9); [lia|done].
    - eapply Forall_impl; [exact Hds|]. simpl. intros t ->. done. }
  intros saved Hsave. apply save_Some in Hsave as (_ & _ & -> & _).
  unfold filter_tracks. cbn [tracks]. fold out.
  by rewrite Hsorted, List.map_map.
Qed.

(** The sample selection of four tracks, through the filter: the bass
    track (from channel 7) ends on channel 1, and the percussion track
    comes last. *)
Example filter_tracks_sample :
  tracks (filter_tracks 1 5
            {| type := 1; ticks_per_beat := 480;
               tracks := [[mkMsg 0 (NoteOn 9 36 100)];
                          [mkMsg 0 (NoteOn 7 40 100)];
                          [mkMsg 0 (NoteOn 5 60 100)];
                          [mkMsg 0 (NoteOn 8 64 100)]] |})
  = [[mkMsg 0 (NoteOn 0 60 100)]; [mkMsg 0 (NoteOn 1 40 100)];
     [mkMsg 0 (NoteOn 2 64 100)]; [mkMsg 0 (NoteOn 9 36 100)]].
Proof. reflexivity. Qed.

(** ** What becomes of a file *)

Lemma is_realtime_set_channel (c : Z) (msg : Msg) :
  is_realtime (set_channel c msg) = is_realtime msg.
Proof. by destruct msg as [? [| | | | | |? []]]. Qed.

Lemma plain_timed_set_channel (c : Z) (msg : Msg) :
  plain_timed (set_channel c msg) ↔ plain_timed msg.
Proof. unfold plain_timed. by rewrite is_realtime_set_channel. Qed.

Lemma realtime_no_channel (msg : Msg) :
  is_realtime msg = true → is_meta msg = false ∧ msg_channel msg = None.
Proof. unfold is_realtime, is_meta, msg_channel. by destruct (body msg). Qed.

Lemma is_realtime_body (m m' : Msg) :
  body m = body m' → is_realtime m = is_realtime m'.
Proof. unfold is_realtime. by intros ->. Qed.

Lemma not_realtime (msg : Msg) :
  is_meta msg = true ∨ msg_channel msg ≠ None → is_realtime msg = false.
Proof.
  intros H. destruct (is_realtime msg) eqn:Hr; [|done].
  destruct (realtime_no_channel _ Hr) as [Hm Hc].
  destruct H as [H|H]; congruence.
Qed.

(** The tracks the splitter builds from a track of non-negative delta
    times pass the tests of [save]. *)
Lemma split_tracks_plain (original_track : Track) :
  nonneg_deltas original_track →
  Forall (Forall plain_timed)
         (meta_track_of (get_abs_times original_track)
          ++ flat_map (tracks_of_channel (get_abs_times original_track))
                      (seq 0 16)).
Proof.
  intros Hnn. set (abs := get_abs_times original_track).
  destruct (get_abs_times_from_ascending 0 _ Hnn) as [Hs Hge].
  fold (get_abs_times original_track) in Hs, Hge. fold abs in Hs, Hge.
  apply Forall_forall. intros out Hout.
  apply elem_of_split_tracks in Hout as [[_ ->]|(i & _ & _ & ->)].
  - assert (Hd : nonneg_deltas (to_relative (meta_of abs))).
    { apply to_relative_from_nonneg.
      - by apply StronglySorted_filter.
      - by apply Forall_List_filter. }
    apply Forall_forall. intros msg Hmsg. split.
    { unfold nonneg_deltas in Hd. rewrite Forall_forall in Hd. by apply Hd. }
    apply to_relative_from_elem in Hmsg as (e & He & Hb).
    rewrite (is_realtime_body _ _ Hb). apply not_realtime. left.
    unfold meta_of in He.
    by apply list_elem_of_In, List.filter_In in He as [_ He].
  - assert (Hd : nonneg_deltas
                   (to_relative (py_sort fst false (bucket_of i abs))
                    ++ [end_of_track])).
    { apply Forall_app. split; [|by repeat constructor].
      apply to_relative_from_nonneg.
      - apply py_sort_fst_ascending.
      - apply py_sort_Forall. by apply Forall_List_filter. }
    apply Forall_forall. intros msg Hmsg. split.
    { unfold nonneg_deltas in Hd. rewrite Forall_forall in Hd. by apply Hd. }
    apply elem_of_app in Hmsg as [Hmsg|Hmsg].
    + apply to_relative_from_elem in Hmsg as (e & He & Hb).
      rewrite (is_realtime_body _ _ Hb). apply not_realtime. right.
      rewrite py_sort_perm in He.
      apply elem_of_bucket_of in He as (_ & _ & ->). done.
    + apply list_elem_of_singleton in Hmsg. by subst msg.
Qed.

Lemma elem_of_track_info (tracks : list Track) (t : TrackInfo) :
  t ∈ track_info tracks → track t ∈ tracks.
Proof.
  unfold track_info. intros Ht.
  apply elem_of_lookup_imap in Ht as (i & tr & -> & Hi).
  by apply list_elem_of_lookup_2 in Hi.
Qed.

Lemma elem_of_selection (min_events : Z) (max_tracks : nat)
  (tracks : list Track) (t : TrackInfo) :
  t ∈ (select_top_tracks min_events max_tracks (track_info tracks)).1 →
  track t ∈ tracks.
Proof.
  cbn [select_top_tracks fst]. intros Ht.
  apply elem_of_take in Ht as (j & Ht & _).
  apply list_elem_of_lookup_2, elem_of_ranked in Ht as [Hin _].
  by apply elem_of_track_info.
Qed.

Lemma Forall_filter_split {A : Type} (P : A → Prop) (p : A → bool)
  (l : list A) :
  Forall P (List.filter p l ++ List.filter (λ x, negb (p x)) l) ↔ Forall P l.
Proof.
  rewrite !Forall_forall. split; intros H x Hx.
  - apply H. rewrite elem_of_app, !list_elem_of_In, !List.filter_In.
    apply list_elem_of_In in Hx. destruct (p x); [by left|by right].
  - by apply H, (elem_of_filter_split p).
Qed.

Lemma Forall2_Forall_iff {A : Type} (R : A → A → Prop) (P : A → Prop)
  (l l' : list A) :
  Forall2 R l l' → (∀ x y, R x y → (P x ↔ P y)) →
  Forall P l ↔ Forall P l'.
Proof.
  intros H HR. induction H as [|x y l l' Hxy _ IH]; [done|].
  rewrite !Forall_cons. by rewrite IH, (HR _ _ Hxy).
Qed.

(** What holds of every message of the selected tracks, whatever its
    channel, holds of every message handed to [save], and conversely. *)
Lemma filter_tracks_Forall (P : Msg → Prop) (min_events : Z)
  (max_tracks : nat) (mid : MidiFile) :
  (∀ c msg, P (set_channel c msg) ↔ P msg) →
  Forall (Forall P) (tracks (filter_tracks min_events max_tracks mid))
  ↔ Forall (λ t, Forall P (track t))
           (select_top_tracks min_events max_tracks
                              (track_info (tracks mid))).1.
Proof.
  intros HP. unfold filter_tracks, process_tracks. cbn [tracks].
  set (sel := (select_top_tracks min_events max_tracks
                 (track_info (tracks mid))).1).
  rewrite <- (Forall_filter_split _ (λ t, channel t =? 9) sel).
  fold (melodic_of sel).
  rewrite (Forall2_Forall_iff _ (λ t, Forall P (track t)) _ _
             (reassign_channels_same_content sel)).
  - rewrite <- (py_sort_perm channel false (reassign_channels sel)) at 2.
    split; intros H.
    + apply Forall_forall. intros t Ht. rewrite Forall_forall in H.
      apply H. apply list_elem_of_fmap. by exists t.
    + apply Forall_forall. intros tr Htr.
      apply list_elem_of_fmap in Htr as (t & -> & Ht).
      rewrite Forall_forall in H. by apply H.
  - intros t t' (_ & _ & Hmap).
    assert (Hblank : ∀ tr, Forall P (map (set_channel 0) tr) ↔ Forall P tr).
    { intros tr. induction tr as [|m tr IH]; [done|].
      cbn [map]. rewrite !Forall_cons. by rewrite IH, HP. }
    by rewrite <- (Hblank (track t)), <- Hmap, Hblank.
Qed.

Lemma save_Some_no_realtime (mid saved : MidiFile) :
  save mid = Some saved →
  Forall (Forall (λ msg, is_realtime msg = false)) (tracks mid).
Proof.
  intros Hsave. apply Forall_forall. intros tr Htr.
  apply Forall_forall. intros msg Hmsg.
  destruct (is_realtime msg) eqn:Hr; [|done].
  by rewrite (save_refuses_realtime _ _ _ Htr Hmsg Hr) in Hsave.
Qed.

(** What the filter does with the new file, by what the selected tracks
    hold. *)
Lemma save_filtered_outcome (min_events : Z) (max_tracks : nat)
  (mid : MidiFile) :
  Forall nonneg_deltas (tracks mid) →
  -32768 ≤ ticks_per_beat mid ≤ 32767 →
  Z.of_nat max_tracks ≤ 32767 →
  let sel := (select_top_tracks min_events max_tracks
                                (track_info (tracks mid))).1 in
  match save_filtered (filter_tracks min_events max_tracks mid) with
  | Saved _ =>
      ∀ t msg, t ∈ sel → msg ∈ track t → is_realtime msg = false
  | SaveRefused =>
      ∃ t msg, t ∈ sel ∧ msg ∈ track t ∧ is_realtime msg = true
  | _ => False
  end.
Proof.
  intros Hnn Htpb Hmax sel. unfold save_filtered.
  destruct (save (filter_tracks min_events max_tracks mid)) as [saved|]
    eqn:Hsave.
  - apply save_Some_no_realtime in Hsave.
    apply (filter_tracks_Forall (λ msg, is_realtime msg = false)) in Hsave;
      [|intros c msg; by rewrite is_realtime_set_channel].
    fold sel in Hsave. intros t msg Ht Hmsg.
    rewrite Forall_forall in Hsave. specialize (Hsave t Ht).
    rewrite Forall_forall in Hsave. by apply Hsave.
  - destruct (decide (Forall (λ t, Forall (λ msg, is_realtime msg = false)
                                          (track t)) sel)) as [Hall|Hnot].
    + exfalso.
      assert (Hplain : Forall (Forall plain_timed)
                         (tracks (filter_tracks min_events max_tracks mid))).
      { apply (filter_tracks_Forall plain_timed);
          [apply plain_timed_set_channel|].
        fold sel. apply Forall_forall. intros t Ht.
        apply Forall_forall. intros msg Hmsg. split.
        - apply elem_of_selection in Ht as Htr.
          rewrite Forall_forall in Hnn. specialize (Hnn _ Htr).
          unfold nonneg_deltas in Hnn. rewrite Forall_forall in Hnn.
          by apply Hnn.
        - rewrite Forall_forall in Hall. specialize (Hall t Ht).
          rewrite Forall_forall in Hall. by apply Hall. }
      destruct (filter_tracks_kept min_events max_tracks mid)
        as (Hty & Htpb' & Hlen & _).
      rewrite save_accepts in Hsave; [done| | |done].
      * rewrite Hty. done.
      * unfold header_fits. rewrite Hty, Htpb'. split; [lia|].
        split; [|done]. clear -Hlen Hmax. lia.
    + apply not_Forall_Exists in Hnot; [|apply _].
      apply Exists_exists in Hnot as (t & Ht & Hnot). cbn in Hnot.
      apply not_Forall_Exists in Hnot; [|apply _].
      apply Exists_exists in Hnot as (msg & Hmsg & Hr). cbn in Hr.
      exists t, msg. split; [done|]. split; [done|].
      by destruct (is_realtime msg).
Qed.

(** X24.  What becomes of a file as mido reads it (channels in 0..15,
    no negative delta time, ticks per beat in 16 signed bits) is
    settled by its format and by the tracks selected.  A format-0 file
    is saved when it has a track, and counted as an error
    ([IndexError]) when it has none.  A format-1 file is saved when
    none of the tracks selected from it holds a real-time message, and
    counted as an error, [save] raising, when one does.  A file of any
    other format is skipped. *)
Theorem process_file_outcome (min_events : Z) (max_tracks : nat)
  (mid : MidiFile) :
  Forall channels_in_range (tracks mid) →
  Forall nonneg_deltas (tracks mid) →
  -32768 ≤ ticks_per_beat mid ≤ 32767 →
  Z.of_nat max_tracks ≤ 32767 →
  match process_file min_events max_tracks mid with
  | Saved _ =>
      (type mid = 0 ∧ tracks mid ≠ [])
      ∨ (type mid = 1
         ∧ ∀ t msg,
             t ∈ (select_top_tracks min_events max_tracks
                                    (track_info (tracks mid))).1 →
             msg ∈ track t → is_realtime msg = false)
  | Errored e => e = IndexError ∧ type mid = 0 ∧ tracks mid = []
  | SaveRefused =>
      type mid = 1
      ∧ ∃ t msg,
          t ∈ (select_top_tracks min_events max_tracks
                                 (track_info (tracks mid))).1
          ∧ msg ∈ track t ∧ is_realtime msg = true
  | Skipped => type mid ≠ 0 ∧ type mid ≠ 1
  end.
Proof.
  intros Hrange Hnn Htpb Hmax. unfold process_file.
  destruct (Z.eqb_spec (type mid) 0) as [H0|H0].
  - destruct (tracks mid) as [|original_track others] eqn:Htracks.
    + unfold convert_type0_to_type1. by rewrite Htracks.
    + apply Forall_cons in Hrange as [Hrange _].
      apply Forall_cons in Hnn as [Hnn _].
      rewrite (convert_type0_to_type1_returns mid original_track others)
        by done.
      set (mid' := {| type := 1; ticks_per_beat := ticks_per_beat mid;
                      tracks := _ |}).
      pose proof (save_filtered_outcome min_events max_tracks mid') as Hout.
      cbn zeta in Hout.
      destruct (save_filtered (filter_tracks min_events max_tracks mid'))
        as [new_mid| |e|]; [by left| | |].
      * exfalso. apply Hout; [|done|done].
        eapply Forall_impl; [apply (split_tracks_plain _ Hnn)|].
        intros tr Htr. eapply Forall_impl; [exact Htr|]. by intros msg [? ?].
      * exfalso. apply Hout; [|done|done].
        eapply Forall_impl; [apply (split_tracks_plain _ Hnn)|].
        intros tr Htr. eapply Forall_impl; [exact Htr|]. by intros msg [? ?].
      * exfalso. destruct Hout as (t & msg & Ht & Hmsg & Hr); [|done|done|].
        { eapply Forall_impl; [apply (split_tracks_plain _ Hnn)|].
          intros tr Htr. eapply Forall_impl; [exact Htr|]. by intros m [? ?]. }
        apply elem_of_selection in Ht.
        pose proof (split_tracks_plain _ Hnn) as Hplain.
        rewrite Forall_forall in Hplain. specialize (Hplain _ Ht).
        rewrite Forall_forall in Hplain. destruct (Hplain _ Hmsg) as [_ Hr'].
        congruence.
  - destruct (Z.eqb_spec (type mid) 1) as [H1|H1]; [|done].
    pose proof (save_filtered_outcome min_events max_tracks mid Hnn Htpb Hmax)
      as Hout.
    cbn zeta in Hout.
    destruct (save_filtered (filter_tracks min_events max_tracks mid))
      as [new_mid| |e|]; [by right|done|done|done].
Qed.

Lemma process_file_outcome_witness :
  ∃ new_mid, process_file 2 5 sample_file = Saved new_mid
             ∧ tracks sample_file ≠ [].
Proof.
  pose proof (process_file_outcome 2 5 sample_file) as H.
  destruct (process_file 2 5 sample_file) as [new_mid| |e|] eqn:E;
    [|vm_compute in E; discriminate..].
  exists new_mid. split; [done|].
  destruct H as [[_ H]|[H _]]; [| | | |done|done].
  - apply Forall_cons_2; [apply sample_track_in_range|apply Forall_nil_2].
  - apply Forall_cons_2; [apply sample_track_nonneg|apply Forall_nil_2].
  - cbn. lia.
  - lia.
Defined.

(** A format-1 file with a clock message in its one track: the track
    is selected, [save] raises, and the file is counted as an error. *)
Example process_file_clock :
  process_file 1 5
    {| type := 1; ticks_per_beat := 480;
       tracks := [[mkMsg 0 (NoteOn 0 60 100); mkMsg 0 (System "clock" [])]] |}
  = SaveRefused.
Proof. reflexivity. Qed.
